(** * fontTools.misc.bezierTools: a shallow embedding over the real numbers

    The module [Lib/fontTools/misc/bezierTools.py] is embedded function by
    function.  Python floats are read as real numbers ([R]), so every
    statement below is a statement about exact real arithmetic.  Python
    exceptions are values of an error monad; a call chain that exceeds the
    interpreter's recursion limit raises [RecursionError].

    What the doubles do beyond exact arithmetic is outside this reading:
    rounding, overflow and underflow.  In particular [abs] of a complex
    number and the power operator raise OverflowError in CPython when the
    result exceeds the largest double, and over the doubles a subdivision
    also ends when the numbers underflow.  The statements on the outcome of
    the arc length routines are therefore made for control points of
    moderate magnitude, and the statements on RecursionError for budgets
    of nested calls at which no number underflows.

    Layout: the Python run-time that the module relies on ([Py]), the helper
    modules that are imported by the source ([ArrayTools], [TransformLib]),
    the embedded module ([BezierTools]), and then the verification. *)

From Stdlib Require Import Reals Lra Lia List ZArith Psatz Permutation Sorted.
Import ListNotations.
Open Scope bool_scope.
Open Scope R_scope.

(** ** The Python run-time *)

Module Py.

(** The exception classes that the embedded code can raise. *)
Inductive exn : Set :=
| ValueError
| TypeError
| NameError
| IndexError
| ZeroDivisionError
| RecursionError.

(** The outcome of a call: a value or a raised exception. *)
Inductive result (A : Type) : Type :=
| Ok (a : A)
| Raise (e : exn).

Arguments Ok {A} a.
Arguments Raise {A} e.

Definition bind {A B : Type} (m : result A) (k : A -> result B) : result B :=
  match m with
  | Ok a => k a
  | Raise e => Raise e
  end.

(** Comparisons of floats, as booleans. *)
Definition Rltb (x y : R) : bool := if Rlt_dec x y then true else false.
Definition Rleb (x y : R) : bool := if Rle_dec x y then true else false.
Definition Reqb (x y : R) : bool := if Req_dec_T x y then true else false.

(** [a / b] on floats raises ZeroDivisionError when [b] is zero. *)
Definition truediv (a b : R) : result R :=
  if Reqb b 0 then Raise ZeroDivisionError else Ok (a / b).

(** [math.sqrt] raises ValueError on a negative argument. *)
Definition math_sqrt (x : R) : result R :=
  if Rltb x 0 then Raise ValueError else Ok (sqrt x).

(** [math.acos] raises ValueError outside [-1, 1]. *)
Definition math_acos (x : R) : result R :=
  if Rltb x (-1) then Raise ValueError
  else if Rltb 1 x then Raise ValueError
  else Ok (acos x).

(** [math.atan2 y x], with the value 0 at the origin. *)
Definition math_atan2 (y x : R) : R :=
  if Rltb 0 x then atan (y / x)
  else if Rltb x 0 then
    (if Rleb 0 y then atan (y / x) + PI else atan (y / x) - PI)
  else if Rltb 0 y then PI / 2
  else if Rltb y 0 then - PI / 2
  else 0.

(** [pow(x, y)] for a float base.  A negative base with a fractional
    exponent gives a complex number in Python 3; the only caller passes the
    result on to [round], which rejects complex numbers with TypeError, so
    that outcome is produced here. *)
Definition pow_float (x y : R) : result R :=
  if Rltb x 0 then Raise TypeError
  else if Reqb x 0 then
    (if Rltb y 0 then Raise ZeroDivisionError
     else if Reqb y 0 then Ok 1 else Ok 0)
  else Ok (Rpower x y).

(** Rounding of a real to the nearest integer, ties to the even one. *)
Definition round_half_even (x : R) : Z :=
  let f := Int_part x in
  let r := x - IZR f in
  if Rltb r (1 / 2) then f
  else if Rltb (1 / 2) r then (f + 1)%Z
  else if Z.even f then f else (f + 1)%Z.

(** The built-in [round(x, ndigits)]. *)
Definition round (x : R) (ndigits : nat) : R :=
  IZR (round_half_even (x * 10 ^ ndigits)) / 10 ^ ndigits.

(** The built-in [int(x)] on a float: truncation towards zero. *)
Definition int (x : R) : Z :=
  if Rleb 0 x then Int_part x else (- Int_part (- x))%Z.

(** [math.isclose(a, b)] with its default tolerances
    [rel_tol = 1e-09] and [abs_tol = 0.0]. *)
Definition isclose (a b : R) : bool :=
  Rleb (Rabs (a - b)) (Rmax (1e-09 * Rmax (Rabs a) (Rabs b)) 0).

(** The built-in [sorted] on a list of floats (an insertion sort: on real
    numbers every ascending sort gives the same list). *)
Fixpoint insert (x : R) (l : list R) : list R :=
  match l with
  | [] => [x]
  | y :: l' => if Rleb x y then x :: y :: l' else y :: insert x l'
  end.

Definition sorted (l : list R) : list R := fold_right insert [] l.

(** Tuple unpacking [a, b = v] and [a, b, c = v]: a length mismatch raises
    ValueError. *)
Definition unpack2 {A : Type} (v : list A) : result (A * A) :=
  match v with
  | [a; b] => Ok (a, b)
  | _ => Raise ValueError
  end.

Definition unpack3 {A : Type} (v : list A) : result (A * A * A) :=
  match v with
  | [a; b; c] => Ok (a, b, c)
  | _ => Raise ValueError
  end.

Definition unpack4 {A : Type} (v : list A) : result (A * A * A * A) :=
  match v with
  | [a; b; c; d] => Ok (a, b, c, d)
  | _ => Raise ValueError
  end.

(** A call with a starred sequence argument, which is unpacked into two,
    three or four positional parameters: an arity mismatch raises
    TypeError. *)
Definition star2 {A : Type} (v : list A) : result (A * A) :=
  match v with
  | [a; b] => Ok (a, b)
  | _ => Raise TypeError
  end.

Definition star3 {A : Type} (v : list A) : result (A * A * A) :=
  match v with
  | [a; b; c] => Ok (a, b, c)
  | _ => Raise TypeError
  end.

Definition star4 {A : Type} (v : list A) : result (A * A * A * A) :=
  match v with
  | [a; b; c; d] => Ok (a, b, c, d)
  | _ => Raise TypeError
  end.

(** A list comprehension or [for] loop whose body can raise: the elements
    are processed from left to right and the first exception ends it. *)
Fixpoint for_each {A B : Type} (f : A -> result B) (l : list A)
  : result (list B) :=
  match l with
  | [] => Ok []
  | a :: l' =>
      match f a with
      | Raise e => Raise e
      | Ok b =>
          match for_each f l' with
          | Raise e => Raise e
          | Ok bs => Ok (b :: bs)
          end
      end
  end.

(** Indexing [v[0]] and [v[-1]]: IndexError on an empty sequence. *)
Definition first {A : Type} (v : list A) : result A :=
  match v with
  | [] => Raise IndexError
  | a :: _ => Ok a
  end.

Definition last {A : Type} (v : list A) : result A :=
  match rev v with
  | [] => Raise IndexError
  | a :: _ => Ok a
  end.

(** Python's complex numbers, used by the arc-length routines. *)
Record complex : Set := Complex { real : R; imag : R }.

Definition Cadd (z w : complex) : complex :=
  Complex (real z + real w) (imag z + imag w).
Definition Csub (z w : complex) : complex :=
  Complex (real z - real w) (imag z - imag w).
Definition Cmul (z w : complex) : complex :=
  Complex (real z * real w - imag z * imag w)
          (real z * imag w + imag z * real w).
(** A float operand is promoted to a complex number with imaginary part 0. *)
Definition Cfloat (x : R) : complex := Complex x 0.
Definition conjugate (z : complex) : complex := Complex (real z) (- imag z).
(** The built-in [abs] on a complex number: its modulus, over the real
    numbers (no OverflowError, see the head of the file). *)
Definition Cabs (z : complex) : R := sqrt (real z * real z + imag z * imag z).
(** The literal [1j]. *)
Definition j1 : complex := Complex 0 1.

End Py.

Export Py.

Declare Scope py_scope.
Delimit Scope py_scope with py.
Notation "x <- m ;; k" := (bind m (fun x => k))
  (at level 61, m at next level, right associativity) : py_scope.
Notation "' pat <- m ;; k" :=
  (bind m (fun x => match x with pat => k end))
  (at level 61, pat pattern, m at next level, right associativity) : py_scope.
Open Scope py_scope.

Declare Scope complex_scope.
Delimit Scope complex_scope with C.
Infix "+" := Cadd : complex_scope.
Infix "-" := Csub : complex_scope.
Infix "*" := Cmul : complex_scope.

(** ** Data model *)

(** A point is a 2D tuple of floats; a segment is a sequence of points. *)
Definition point : Set := (R * R)%type.
Definition segment : Set := list point.

(** The conversion [complex] of a 2D tuple. *)
Definition complex_of (p : point) : complex := Complex (fst p) (snd p).

(** (xMin, yMin, xMax, yMax) *)
Definition Bounds : Set := (R * R * R * R)%type.

(** [Intersection = namedtuple("Intersection", ["pt", "t1", "t2"])] *)
Record Intersection : Set := mkIntersection { pt : point; t1 : R; t2 : R }.

(** ** Imported helper modules *)

Module ArrayTools.

(** Modelled from the spec: [fontTools.misc.arrayTools.calcBounds], which is
    imported by the source but is not part of it.  It returns the
    axis-aligned extent (xMin, yMin, xMax, yMax) of a sequence of points. *)
Definition calcBounds (array : list point) : Bounds :=
  match array with
  | [] => (0, 0, 0, 0)
  | (x0, y0) :: rest =>
      fold_left
        (fun (acc : Bounds) (p : point) =>
           let '(xMin, yMin, xMax, yMax) := acc in
           (Rmin xMin (fst p), Rmin yMin (snd p),
            Rmax xMax (fst p), Rmax yMax (snd p)))
        rest (x0, y0, x0, y0)
  end.

(** Modelled from the spec: [fontTools.misc.arrayTools.sectRect], the test
    that two bounding rectangles intersect, with the intersection rectangle.
    A rectangle that is not a 4-tuple (the value None) cannot be unpacked:
    TypeError. *)
Definition sectRect (rect1 rect2 : option Bounds) : result (bool * Bounds) :=
  match rect1, rect2 with
  | Some (xMin1, yMin1, xMax1, yMax1), Some (xMin2, yMin2, xMax2, yMax2) =>
      let xMin := Rmax xMin1 xMin2 in
      let yMin := Rmax yMin1 yMin2 in
      let xMax := Rmin xMax1 xMax2 in
      let yMax := Rmin yMax1 yMax2 in
      if Rleb xMax xMin || Rleb yMax yMin
      then Ok (false, (0, 0, 0, 0))
      else Ok (true, (xMin, yMin, xMax, yMax))
  | _, _ => Raise TypeError
  end.

(** Modelled from the spec: [fontTools.misc.arrayTools.rectArea], the area
    of a bounding rectangle. *)
Definition rectArea (rect : Bounds) : R :=
  let '(xMin, yMin, xMax, yMax) := rect in
  (yMax - yMin) * (xMax - xMin).

End ArrayTools.

Export ArrayTools.

(** The interface of [fontTools.misc.transform] that the source uses.  The
    module is imported by the source but is not part of it; its operations
    are taken as parameters. *)
Class TransformLib : Type := {
  Transform : Type;
  Offset : R -> R -> Transform;
  Identity : Transform;
  rotate : Transform -> R -> Transform;
  transformPoint : Transform -> point -> point;
  reverseTransform : Transform -> Transform -> Transform
}.

(** Modelled from the spec: [Transform.transformPoints], which is not part
    of the source; it applies [transformPoint] to each point of a
    sequence. *)
Definition transformPoints `{TransformLib} (m : Transform) (points : list point)
  : list point :=
  map (transformPoint m) points.

(** ** The embedded module *)

Module BezierTools.

(** *** Cubic arc length by recursive subdivision *)

Definition _split_cubic_into_two (p0 p1 p2 p3 : complex)
  : (complex * complex * complex * complex)
    * (complex * complex * complex * complex) :=
  let mid := ((p0 + Cfloat 3 * (p1 + p2) + p3) * Cfloat 0.125)%C in
  let deriv3 := ((p3 + p2 - p1 - p0) * Cfloat 0.125)%C in
  ((p0, ((p0 + p1) * Cfloat 0.5)%C, (mid - deriv3)%C, mid),
   (mid, (mid + deriv3)%C, ((p2 + p3) * Cfloat 0.5)%C, p3)).

(** [depth] is the number of nested calls the interpreter still allows.
    Over the real numbers the subdivision ends only when the flatness test
    passes; over the doubles it also ends when the control points of a
    piece underflow. *)
Fixpoint _calcCubicArcLengthCRecurse (depth : nat) (mult : R)
    (p0 p1 p2 p3 : complex) : result R :=
  match depth with
  | O => Raise RecursionError
  | S depth' =>
      let arch := Cabs (p0 - p3)%C in
      let box := Cabs (p0 - p1)%C + Cabs (p1 - p2)%C + Cabs (p2 - p3)%C in
      if Rleb box (arch * mult)
      then Ok ((arch + box) * 0.5)
      else
        let '((a0, a1, a2, a3), (b0, b1, b2, b3)) :=
          _split_cubic_into_two p0 p1 p2 p3 in
        l1 <- _calcCubicArcLengthCRecurse depth' mult a0 a1 a2 a3 ;;
        l2 <- _calcCubicArcLengthCRecurse depth' mult b0 b1 b2 b3 ;;
        Ok (l1 + l2)
  end.

Definition calcCubicArcLengthC (depth : nat) (pt1 pt2 pt3 pt4 : complex)
    (tolerance : R) : result R :=
  let mult := 1 + 1.5 * tolerance in
  _calcCubicArcLengthCRecurse depth mult pt1 pt2 pt3 pt4.



Definition epsilonDigits : nat := 6.
Definition epsilon : R := 1e-10.

(** *** Quadratic arc length, closed form *)

Definition _dot (v1 v2 : complex) : R := real (v1 * conjugate v2)%C.

(** The square [x ** 2] is taken over the real numbers (no OverflowError,
    see the head of the file). *)
Definition _intSecAtan (x : R) : result R :=
  s <- math_sqrt (x ^ 2 + 1) ;;
  Ok (x * s / 2 + arcsinh x / 2).

Definition calcQuadraticArcLengthC (pt1 pt2 pt3 : complex) : result R :=
  let d0 := (pt2 - pt1)%C in
  let d1 := (pt3 - pt2)%C in
  let d := (d1 - d0)%C in
  let n := (d * j1)%C in
  let scale := Cabs n in
  if Reqb scale 0 then Ok (Cabs (pt3 - pt1)%C)
  else
    let origDist := _dot n d0 in
    if Rltb (Rabs origDist) epsilon then
      if Rleb 0 (_dot d0 d1) then Ok (Cabs (pt3 - pt1)%C)
      else
        let a := Cabs d0 in
        let b := Cabs d1 in
        truediv (a * a + b * b) (a + b)
    else
      x0 <- truediv (_dot d d0) origDist ;;
      x1 <- truediv (_dot d d1) origDist ;;
      i1 <- _intSecAtan x1 ;;
      i0 <- _intSecAtan x0 ;;
      q <- truediv (2 * (i1 - i0) * origDist) (scale * (x1 - x0)) ;;
      Ok (Rabs q).


(** *** Arc length by Gaussian quadrature *)

Definition approximateQuadraticArcLengthC (pt1 pt2 pt3 : complex) : R :=
  let v0 := Cabs (Cfloat (- 0.492943519233745) * pt1
                  + Cfloat 0.430331482911935 * pt2
                  + Cfloat 0.0626120363218102 * pt3)%C in
  let v1 := Cabs (pt3 - pt1)%C * 0.4444444444444444 in
  let v2 := Cabs (Cfloat (- 0.0626120363218102) * pt1
                  - Cfloat 0.430331482911935 * pt2
                  + Cfloat 0.492943519233745 * pt3)%C in
  v0 + v1 + v2.

Definition approximateQuadraticArcLength (pt1 pt2 pt3 : point) : R :=
  approximateQuadraticArcLengthC
    (complex_of pt1) (complex_of pt2) (complex_of pt3).

Definition approximateCubicArcLengthC (pt1 pt2 pt3 pt4 : complex) : R :=
  let v0 := Cabs (pt2 - pt1)%C * 0.15 in
  let v1 := Cabs (Cfloat (- 0.558983582205757) * pt1
                  + Cfloat 0.325650248872424 * pt2
                  + Cfloat 0.208983582205757 * pt3
                  + Cfloat 0.024349751127576 * pt4)%C in
  let v2 := Cabs (pt4 - pt1 + pt3 - pt2)%C * 0.26666666666666666 in
  let v3 := Cabs (Cfloat (- 0.024349751127576) * pt1
                  - Cfloat 0.208983582205757 * pt2
                  - Cfloat 0.325650248872424 * pt3
                  + Cfloat 0.558983582205757 * pt4)%C in
  let v4 := Cabs (pt4 - pt3)%C * 0.15 in
  v0 + v1 + v2 + v3 + v4.

Definition approximateCubicArcLength (pt1 pt2 pt3 pt4 : point) : R :=
  approximateCubicArcLengthC
    (complex_of pt1) (complex_of pt2) (complex_of pt3) (complex_of pt4).

(** *** Conversion between control points and power-basis parameters *)

Definition calcQuadraticParameters (pt1 pt2 pt3 : point)
  : point * point * point :=
  let '(x2, y2) := pt2 in
  let '(x3, y3) := pt3 in
  let '(cx, cy) := pt1 in
  let bx := (x2 - cx) * 2.0 in
  let by_ := (y2 - cy) * 2.0 in
  let ax := x3 - cx - bx in
  let ay := y3 - cy - by_ in
  ((ax, ay), (bx, by_), (cx, cy)).

Definition calcCubicParameters (pt1 pt2 pt3 pt4 : point)
  : point * point * point * point :=
  let '(x2, y2) := pt2 in
  let '(x3, y3) := pt3 in
  let '(x4, y4) := pt4 in
  let '(dx, dy) := pt1 in
  let cx := (x2 - dx) * 3.0 in
  let cy := (y2 - dy) * 3.0 in
  let bx := (x3 - x2) * 3.0 - cx in
  let by_ := (y3 - y2) * 3.0 - cy in
  let ax := x4 - dx - cx - bx in
  let ay := y4 - dy - cy - by_ in
  ((ax, ay), (bx, by_), (cx, cy), (dx, dy)).

Definition calcQuadraticPoints (a b c : point) : point * point * point :=
  let '(ax, ay) := a in
  let '(bx, by_) := b in
  let '(cx, cy) := c in
  let x1 := cx in
  let y1 := cy in
  let x2 := (bx * 0.5) + cx in
  let y2 := (by_ * 0.5) + cy in
  let x3 := ax + bx + cx in
  let y3 := ay + by_ + cy in
  ((x1, y1), (x2, y2), (x3, y3)).

Definition calcCubicPoints (a b c d : point)
  : point * point * point * point :=
  let '(ax, ay) := a in
  let '(bx, by_) := b in
  let '(cx, cy) := c in
  let '(dx, dy) := d in
  let x1 := dx in
  let y1 := dy in
  let x2 := (cx / 3.0) + dx in
  let y2 := (cy / 3.0) + dy in
  let x3 := (bx + cx) / 3.0 + x2 in
  let y3 := (by_ + cy) / 3.0 + y2 in
  let x4 := ax + dx + cx + bx in
  let y4 := ay + dy + cy + by_ in
  ((x1, y1), (x2, y2), (x3, y3), (x4, y4)).

(** *** Equation solvers *)

Definition solveQuadratic (a b c : R) : result (list R) :=
  if Rltb (Rabs a) epsilon then
    if Rltb (Rabs b) epsilon then
      Ok []
    else
      r <- truediv (- c) b ;;
      Ok [r]
  else
    let DD := b * b - 4.0 * a * c in
    if Rleb 0.0 DD then
      rDD <- math_sqrt DD ;;
      r1 <- truediv ((- b + rDD) / 2.0) a ;;
      r2 <- truediv ((- b - rDD) / 2.0) a ;;
      Ok [r1; r2]
    else
      Ok [].

Definition solveCubic (a b c d : R) : result (list R) :=
  if Rltb (Rabs a) epsilon then
    solveQuadratic b c d
  else
    a1 <- truediv b a ;;
    a2 <- truediv c a ;;
    a3 <- truediv d a ;;
    let Q := (a1 * a1 - 3.0 * a2) / 9.0 in
    let R_ := (2.0 * a1 * a1 * a1 - 9.0 * a1 * a2 + 27.0 * a3) / 54.0 in
    let R2 := R_ * R_ in
    let Q3 := Q * Q * Q in
    let R2 := if Rltb R2 epsilon then 0 else R2 in
    let Q3 := if Rltb (Rabs Q3) epsilon then 0 else Q3 in
    let R2_Q3 := R2 - Q3 in
    if Reqb R2 0 && Reqb Q3 0 then
      let x := round (- a1 / 3.0) epsilonDigits in
      Ok [x; x; x]
    else if Rleb R2_Q3 (epsilon * 0.5) then
      sQ3 <- math_sqrt Q3 ;;
      q <- truediv R_ sQ3 ;;
      theta <- math_acos (Rmax (Rmin q 1.0) (- 1.0)) ;;
      sQ <- math_sqrt Q ;;
      let rQ2 := - 2.0 * sQ in
      let a1_3 := a1 / 3.0 in
      let x0 := rQ2 * cos (theta / 3.0) - a1_3 in
      let x1 := rQ2 * cos ((theta + 2.0 * PI) / 3.0) - a1_3 in
      let x2 := rQ2 * cos ((theta + 4.0 * PI) / 3.0) - a1_3 in
      '(x0, x1, x2) <- unpack3 (sorted [x0; x1; x2]) ;;
      if Rltb (x1 - x0) epsilon && Rltb (x2 - x1) epsilon then
        let x := round ((x0 + x1 + x2) / 3) epsilonDigits in
        Ok [x; x; x]
      else if Rltb (x1 - x0) epsilon then
        let x := round ((x0 + x1) / 2) epsilonDigits in
        let x2 := round x2 epsilonDigits in
        Ok [x; x; x2]
      else if Rltb (x2 - x1) epsilon then
        let x0 := round x0 epsilonDigits in
        let x := round ((x1 + x2) / 2) epsilonDigits in
        Ok [x0; x; x]
      else
        let x0 := round x0 epsilonDigits in
        let x1 := round x1 epsilonDigits in
        let x2 := round x2 epsilonDigits in
        Ok [x0; x1; x2]
    else
      s <- math_sqrt R2_Q3 ;;
      x <- pow_float (s + Rabs R_) (1 / 3.0) ;;
      qx <- truediv Q x ;;
      let x := x + qx in
      let x := if Rleb 0.0 R_ then - x else x in
      let x := round (x - a1 / 3.0) epsilonDigits in
      Ok [x].

(** *** Bounding boxes *)

(** The test [0 <= t < 1] of the list comprehensions. *)
Definition in_unit_half_open (t : R) : bool := Rleb 0 t && Rltb t 1.

Definition calcQuadraticBounds (pt1 pt2 pt3 : point) : result Bounds :=
  let '((ax, ay), (bx, by_), (cx, cy)) :=
    calcQuadraticParameters pt1 pt2 pt3 in
  let ax2 := ax * 2.0 in
  let ay2 := ay * 2.0 in
  let roots := [] in
  roots <- (if Reqb ax2 0 then Ok roots
            else r <- truediv (- bx) ax2 ;; Ok (roots ++ [r])) ;;
  roots <- (if Reqb ay2 0 then Ok roots
            else r <- truediv (- by_) ay2 ;; Ok (roots ++ [r])) ;;
  let points :=
    map (fun t => (ax * t * t + bx * t + cx, ay * t * t + by_ * t + cy))
        (filter in_unit_half_open roots)
    ++ [pt1; pt3] in
  Ok (calcBounds points).

Definition calcCubicBounds (pt1 pt2 pt3 pt4 : point) : result Bounds :=
  let '((ax, ay), (bx, by_), (cx, cy), (dx, dy)) :=
    calcCubicParameters pt1 pt2 pt3 pt4 in
  let ax3 := ax * 3.0 in
  let ay3 := ay * 3.0 in
  let bx2 := bx * 2.0 in
  let by2 := by_ * 2.0 in
  xs <- solveQuadratic ax3 bx2 cx ;;
  let xRoots := filter in_unit_half_open xs in
  ys <- solveQuadratic ay3 by2 cy ;;
  let yRoots := filter in_unit_half_open ys in
  let roots := xRoots ++ yRoots in
  let points :=
    map (fun t => (ax * t * t * t + bx * t * t + cx * t + dx,
                   ay * t * t * t + by_ * t * t + cy * t + dy))
        roots
    ++ [pt1; pt4] in
  Ok (calcBounds points).

(** *** Splitting at parameter values *)

Definition _splitQuadraticAtT (a b c : point) (ts : list R)
  : list (point * point * point) :=
  let ts := 0.0 :: ts ++ [1.0] in
  let '(ax, ay) := a in
  let '(bx, by_) := b in
  let '(cx, cy) := c in
  map (fun i : nat =>
         let t1 := nth i ts 0 in
         let t2 := nth (i + 1) ts 0 in
         let delta := t2 - t1 in
         let delta_2 := delta * delta in
         let a1x := ax * delta_2 in
         let a1y := ay * delta_2 in
         let b1x := (2 * ax * t1 + bx) * delta in
         let b1y := (2 * ay * t1 + by_) * delta in
         let t1_2 := t1 * t1 in
         let c1x := ax * t1_2 + bx * t1 + cx in
         let c1y := ay * t1_2 + by_ * t1 + cy in
         calcQuadraticPoints (a1x, a1y) (b1x, b1y) (c1x, c1y))
      (seq 0 (length ts - 1)).

Definition _splitCubicAtT (a b c d : point) (ts : list R)
  : list (point * point * point * point) :=
  let ts := 0.0 :: ts ++ [1.0] in
  let '(ax, ay) := a in
  let '(bx, by_) := b in
  let '(cx, cy) := c in
  let '(dx, dy) := d in
  map (fun i : nat =>
         let t1 := nth i ts 0 in
         let t2 := nth (i + 1) ts 0 in
         let delta := t2 - t1 in
         let delta_2 := delta * delta in
         let delta_3 := delta * delta_2 in
         let t1_2 := t1 * t1 in
         let t1_3 := t1 * t1_2 in
         let a1x := ax * delta_3 in
         let a1y := ay * delta_3 in
         let b1x := (3 * ax * t1 + bx) * delta_2 in
         let b1y := (3 * ay * t1 + by_) * delta_2 in
         let c1x := (2 * bx * t1 + cx + 3 * ax * t1_2) * delta in
         let c1y := (2 * by_ * t1 + cy + 3 * ay * t1_2) * delta in
         let d1x := ax * t1_3 + bx * t1_2 + cx * t1 + dx in
         let d1y := ay * t1_3 + by_ * t1_2 + cy * t1 + dy in
         calcCubicPoints (a1x, a1y) (b1x, b1y) (c1x, c1y) (d1x, d1y))
      (seq 0 (length ts - 1)).

Definition splitQuadraticAtT (pt1 pt2 pt3 : point) (ts : list R)
  : list (point * point * point) :=
  let '(a, b, c) := calcQuadraticParameters pt1 pt2 pt3 in
  _splitQuadraticAtT a b c ts.

Definition splitCubicAtT (pt1 pt2 pt3 pt4 : point) (ts : list R)
  : list (point * point * point * point) :=
  let '(a, b, c, d) := calcCubicParameters pt1 pt2 pt3 pt4 in
  _splitCubicAtT a b c d ts.

(** *** Splitting at a coordinate *)

(** Indexing a 2D tuple by the flag [isHorizontal]: [False] selects the
    item 0 (x) and [True] the item 1 (y). *)
Definition item (p : point) (isHorizontal : bool) : R :=
  if isHorizontal then snd p else fst p.

Definition splitLine (pt1 pt2 : point) (where_ : R) (isHorizontal : bool)
  : result (list (point * point)) :=
  let '(pt1x, pt1y) := pt1 in
  let '(pt2x, pt2y) := pt2 in
  let ax := pt2x - pt1x in
  let ay := pt2y - pt1y in
  let bx := pt1x in
  let by_ := pt1y in
  let a := item (ax, ay) isHorizontal in
  if Reqb a 0 then Ok [(pt1, pt2)]
  else
    t <- truediv (where_ - item (bx, by_) isHorizontal) a ;;
    if in_unit_half_open t then
      let midPt := (ax * t + bx, ay * t + by_) in
      Ok [(pt1, midPt); (midPt, pt2)]
    else Ok [(pt1, pt2)].

Definition splitQuadratic (pt1 pt2 pt3 : point) (where_ : R)
    (isHorizontal : bool) : result (list (point * point * point)) :=
  let '(a, b, c) := calcQuadraticParameters pt1 pt2 pt3 in
  solutions <- solveQuadratic (item a isHorizontal) (item b isHorizontal)
                 (item c isHorizontal - where_) ;;
  let solutions := sorted (filter in_unit_half_open solutions) in
  match solutions with
  | [] => Ok [(pt1, pt2, pt3)]
  | _ => Ok (_splitQuadraticAtT a b c solutions)
  end.

Definition splitCubic (pt1 pt2 pt3 pt4 : point) (where_ : R)
    (isHorizontal : bool) : result (list (point * point * point * point)) :=
  let '(a, b, c, d) := calcCubicParameters pt1 pt2 pt3 pt4 in
  solutions <- solveCubic (item a isHorizontal) (item b isHorizontal)
                 (item c isHorizontal) (item d isHorizontal - where_) ;;
  let solutions := sorted (filter in_unit_half_open solutions) in
  match solutions with
  | [] => Ok [(pt1, pt2, pt3, pt4)]
  | _ => Ok (_splitCubicAtT a b c d solutions)
  end.

(** *** Point at time *)

Definition linePointAtT (pt1 pt2 : point) (t : R) : point :=
  (fst pt1 * (1 - t) + fst pt2 * t, snd pt1 * (1 - t) + snd pt2 * t).

Definition quadraticPointAtT (pt1 pt2 pt3 : point) (t : R) : point :=
  let x := (1 - t) * (1 - t) * fst pt1 + 2 * (1 - t) * t * fst pt2
           + t * t * fst pt3 in
  let y := (1 - t) * (1 - t) * snd pt1 + 2 * (1 - t) * t * snd pt2
           + t * t * snd pt3 in
  (x, y).

Definition cubicPointAtT (pt1 pt2 pt3 pt4 : point) (t : R) : point :=
  let x := (1 - t) * (1 - t) * (1 - t) * fst pt1
           + 3 * (1 - t) * (1 - t) * t * fst pt2
           + 3 * (1 - t) * t * t * fst pt3
           + t * t * t * fst pt4 in
  let y := (1 - t) * (1 - t) * (1 - t) * snd pt1
           + 3 * (1 - t) * (1 - t) * t * snd pt2
           + 3 * (1 - t) * t * t * snd pt3
           + t * t * t * snd pt4 in
  (x, y).

Definition segmentPointAtT (seg : segment) (t : R) : result point :=
  if (length seg =? 2)%nat then
    '(pt1, pt2) <- star2 seg ;;
    Ok (linePointAtT pt1 pt2 t)
  else if (length seg =? 3)%nat then
    '(pt1, pt2, pt3) <- star3 seg ;;
    Ok (quadraticPointAtT pt1 pt2 pt3 t)
  else if (length seg =? 4)%nat then
    '(pt1, pt2, pt3, pt4) <- star4 seg ;;
    Ok (cubicPointAtT pt1 pt2 pt3 pt4 t)
  else
    Raise ValueError.

(** *** Intersection finders *)

Definition _line_t_of_pt (s e pt : point) : result R :=
  let '(sx, sy) := s in
  let '(ex, ey) := e in
  let '(px, py) := pt in
  if negb (isclose sx ex) then
    truediv (px - sx) (ex - sx)
  else if negb (isclose sy ey) then
    truediv (py - sy) (ey - sy)
  else
    Ok (- 1).

Definition _both_points_are_on_same_side_of_origin (a b c : point) : bool :=
  let xDiff := (fst a - fst c) * (fst b - fst c) in
  let yDiff := (snd a - snd c) * (snd b - snd c) in
  negb (Rleb xDiff 0.0 && Rleb yDiff 0.0).

(** The evaluation of the name [xy]: the module binds no such name, neither
    as a local variable of the function that mentions it, nor as a global,
    nor as a built-in. *)
Definition xy : result R := Raise NameError.

Definition lineLineIntersections (s1 e1 s2 e2 : point)
  : result (list Intersection) :=
  let '(ax, ay) := s1 in
  let '(bx, by_) := e1 in
  let '(cx, cy) := s2 in
  let '(dx, dy) := e2 in
  if isclose cx dx && isclose ax bx then Ok []
  else if isclose cy dy && isclose ay by_ then Ok []
  else if isclose cx dx && isclose cy dy then Ok []
  else if isclose ax bx && isclose ay by_ then Ok []
  else if isclose bx ax then
    let x := ax in
    xy_ <- xy ;;
    slope34 <- truediv (dy - xy_) (dx - cx) ;;
    let y := slope34 * (x - cx) + cy in
    let pt := (x, y) in
    t1 <- _line_t_of_pt s1 e1 pt ;;
    t2 <- _line_t_of_pt s2 e2 pt ;;
    Ok [mkIntersection pt t1 t2]
  else if isclose cx dx then
    let x := cx in
    slope12 <- truediv (by_ - ay) (bx - ax) ;;
    let y := slope12 * (x - ax) + ay in
    let pt := (x, y) in
    t1 <- _line_t_of_pt s1 e1 pt ;;
    t2 <- _line_t_of_pt s2 e2 pt ;;
    Ok [mkIntersection pt t1 t2]
  else
    slope12 <- truediv (by_ - ay) (bx - ax) ;;
    slope34 <- truediv (dy - cy) (dx - cx) ;;
    if isclose slope12 slope34 then Ok []
    else
      x <- truediv (slope12 * ax - ay - slope34 * cx + cy)
                   (slope12 - slope34) ;;
      let y := slope12 * (x - ax) + ay in
      let pt := (x, y) in
      if _both_points_are_on_same_side_of_origin pt e1 s1
         && _both_points_are_on_same_side_of_origin pt s2 e2 then
        t1 <- _line_t_of_pt s1 e1 pt ;;
        t2 <- _line_t_of_pt s2 e2 pt ;;
        Ok [mkIntersection pt t1 t2]
      else Ok [].

Section CurveIntersections.

Context `{TransformLib}.

Definition _alignment_transformation (seg : segment) : result Transform :=
  start <- first seg ;;
  end_ <- last seg ;;
  let m := Offset (- fst start) (- snd start) in
  let endpt := transformPoint m end_ in
  let angle := math_atan2 (snd endpt) (fst endpt) in
  Ok (reverseTransform m (rotate Identity (- angle))).

(** The call of [calcCubicParameters] with a starred sequence; its result
    is the 4-tuple (a, b, c, d). *)
Definition calcCubicParameters_star (args : list point)
  : result (list point) :=
  '(pt1, pt2, pt3, pt4) <- star4 args ;;
  let '(a, b, c, d) := calcCubicParameters pt1 pt2 pt3 pt4 in
  Ok [a; b; c; d].

(** The test [0.0 <= i <= 1] of the list comprehension. *)
Definition in_unit_closed (i : R) : bool := Rleb 0.0 i && Rleb i 1.

Definition _curve_line_intersections_t (curve line : segment)
  : result (list R) :=
  m <- _alignment_transformation line ;;
  let aligned_curve := transformPoints m curve in
  intersections <-
    (if (length curve =? 3)%nat then
       params <- calcCubicParameters_star aligned_curve ;;
       '(a, b, c) <- unpack3 params ;;
       intersections <- solveQuadratic (fst a) (fst b) (fst c) ;;
       more <- solveQuadratic (snd a) (snd b) (snd c) ;;
       Ok (intersections ++ more)
     else if (length curve =? 4)%nat then
       params <- calcCubicParameters_star aligned_curve ;;
       '(a, b, c, d) <- unpack4 params ;;
       intersections <- solveCubic (fst a) (fst b) (fst c) (fst d) ;;
       more <- solveCubic (snd a) (snd b) (snd c) (snd d) ;;
       Ok (intersections ++ more)
     else
       Raise ValueError) ;;
  Ok (sorted (filter in_unit_closed intersections)).

Definition curveLineIntersections (curve line : segment)
  : result (list Intersection) :=
  pointFinder <-
    (if (length curve =? 3)%nat then
       Ok (fun (args : segment) (t : R) =>
             '(pt1, pt2, pt3) <- star3 args ;;
             Ok (quadraticPointAtT pt1 pt2 pt3 t))
     else if (length curve =? 4)%nat then
       Ok (fun (args : segment) (t : R) =>
             '(pt1, pt2, pt3, pt4) <- star4 args ;;
             Ok (cubicPointAtT pt1 pt2 pt3 pt4 t))
     else
       Raise ValueError) ;;
  ts <- _curve_line_intersections_t curve line ;;
  for_each
    (fun t =>
       pt <- pointFinder curve t ;;
       '(s, e) <- star2 line ;;
       t2 <- _line_t_of_pt s e pt ;;
       Ok (mkIntersection pt t t2))
    ts.

(** A function that falls off its end returns [None]. *)
Definition _curve_bounds (c : segment) : result (option Bounds) :=
  if (length c =? 3)%nat then
    '(pt1, pt2, pt3) <- star3 c ;;
    b <- calcQuadraticBounds pt1 pt2 pt3 ;;
    Ok (Some b)
  else if (length c =? 4)%nat then
    '(pt1, pt2, pt3, pt4) <- star4 c ;;
    b <- calcCubicBounds pt1 pt2 pt3 pt4 ;;
    Ok (Some b)
  else
    Ok None.

Definition _split_segment_at_t (c : segment) (t : R)
  : result (option (list segment)) :=
  if (length c =? 2)%nat then
    '(s, e) <- unpack2 c ;;
    let midpoint := linePointAtT s e t in
    Ok (Some [[s; midpoint]; [midpoint; e]])
  else if (length c =? 3)%nat then
    '(pt1, pt2, pt3) <- star3 c ;;
    Ok (Some (map (fun '(q1, q2, q3) => [q1; q2; q3])
                  (splitQuadraticAtT pt1 pt2 pt3 [t])))
  else if (length c =? 4)%nat then
    '(pt1, pt2, pt3, pt4) <- star4 c ;;
    Ok (Some (map (fun '(q1, q2, q3, q4) => [q1; q2; q3; q4])
                  (splitCubicAtT pt1 pt2 pt3 pt4 [t])))
  else
    Ok None.

(** The final comprehension of [_curve_curve_intersections_t]: the first
    entry with a given [unique_key] is kept, [seen] holds the keys met. *)
Fixpoint _unique (precision : R) (seen : list Z) (found : list (R * R))
  : result (list (R * R)) :=
  match found with
  | [] => Ok []
  | ts :: rest =>
      q <- truediv (fst ts) precision ;;
      let key := int q in
      if existsb (Z.eqb key) seen then _unique precision seen rest
      else
        kept <- _unique precision (key :: seen) rest ;;
        Ok (ts :: kept)
  end.

Definition midpoint (r : R * R) : R := 0.5 * (fst r + snd r).

(** Unpacking the two halves [c1, c2 = _split_segment_at_t(...)]: the value
    None cannot be unpacked (TypeError). *)
Definition unpack_halves (v : option (list segment))
  : result (segment * segment) :=
  match v with
  | None => Raise TypeError
  | Some l => unpack2 l
  end.

Fixpoint _curve_curve_intersections_t (depth : nat) (curve1 curve2 : segment)
    (precision : R) (range1 range2 : option (R * R)) : result (list (R * R)) :=
  match depth with
  | O => Raise RecursionError
  | S depth' =>
      bounds1 <- _curve_bounds curve1 ;;
      bounds2 <- _curve_bounds curve2 ;;
      let range1 := match range1 with None => (0.0, 1.0) | Some r => r end in
      let range2 := match range2 with None => (0.0, 1.0) | Some r => r end in
      '(intersects, _) <- sectRect bounds1 bounds2 ;;
      if negb intersects then Ok []
      else
        match bounds1, bounds2 with
        | Some b1, Some b2 =>
            if Rltb (rectArea b1) precision && Rltb (rectArea b2) precision
            then Ok [(midpoint range1, midpoint range2)]
            else
              halves1 <- _split_segment_at_t curve1 0.5 ;;
              '(c11, c12) <- unpack_halves halves1 ;;
              let c11_range := (fst range1, midpoint range1) in
              let c12_range := (midpoint range1, snd range1) in
              halves2 <- _split_segment_at_t curve2 0.5 ;;
              '(c21, c22) <- unpack_halves halves2 ;;
              let c21_range := (fst range2, midpoint range2) in
              let c22_range := (midpoint range2, snd range2) in
              f1 <- _curve_curve_intersections_t depth' c11 c21 precision
                      (Some c11_range) (Some c21_range) ;;
              f2 <- _curve_curve_intersections_t depth' c12 c21 precision
                      (Some c12_range) (Some c21_range) ;;
              f3 <- _curve_curve_intersections_t depth' c11 c22 precision
                      (Some c11_range) (Some c22_range) ;;
              f4 <- _curve_curve_intersections_t depth' c12 c22 precision
                      (Some c12_range) (Some c22_range) ;;
              let found := f1 ++ f2 ++ f3 ++ f4 in
              _unique precision [] found
        | _, _ => Raise TypeError
        end
  end.

(** The default value of the keyword argument [precision]. *)
Definition default_precision : R := 1e-3.

Definition curveCurveIntersections (depth : nat) (curve1 curve2 : segment)
  : result (list Intersection) :=
  intersection_ts <-
    _curve_curve_intersections_t depth curve1 curve2 default_precision
      None None ;;
  for_each
    (fun ts =>
       pt <- segmentPointAtT curve1 (fst ts) ;;
       Ok (mkIntersection pt (fst ts) (snd ts)))
    intersection_ts.

Definition segmentSegmentIntersections (depth : nat) (seg1 seg2 : segment)
  : result (list Intersection) :=
  let '(seg2, seg1) :=
    if (length seg1 <? length seg2)%nat then (seg1, seg2) else (seg2, seg1) in
  if (2 <? length seg1)%nat then
    if (2 <? length seg2)%nat then
      curveCurveIntersections depth seg1 seg2
    else
      curveLineIntersections seg1 seg2
  else if (length seg1 =? 2)%nat && (length seg2 =? 2)%nat then
    '(s1, e1, s2, e2) <- star4 (seg1 ++ seg2) ;;
    lineLineIntersections s1 e1 s2 e2
  else
    Raise ValueError.

End CurveIntersections.

End BezierTools.

Export BezierTools.

(** ** Vocabulary of the statements *)

(** The first and the last control point of a sub-segment. *)
Definition start3 (s : point * point * point) : point :=
  let '(p, _, _) := s in p.
Definition end3 (s : point * point * point) : point :=
  let '(_, _, p) := s in p.
Definition start4 (s : point * point * point * point) : point :=
  let '(p, _, _, _) := s in p.
Definition end4 (s : point * point * point * point) : point :=
  let '(_, _, _, p) := s in p.

(** The power-basis polynomials that the splitters re-parameterise. *)
Definition quadraticPower (a b c : point) (t : R) : point :=
  (fst a * (t * t) + fst b * t + fst c, snd a * (t * t) + snd b * t + snd c).
Definition cubicPower (a b c d : point) (t : R) : point :=
  (fst a * (t * (t * t)) + fst b * (t * t) + fst c * t + fst d,
   snd a * (t * (t * t)) + snd b * (t * t) + snd c * t + snd d).

(** The length of a segment that the dispatchers accept. *)
Definition valid_length (n : nat) : Prop := n = 2%nat \/ n = 3%nat \/ n = 4%nat.


(** Two flat arches of width [2 * L] and height [h / 2], the second one
    shifted by [L] along the x-axis.  Their bounding boxes overlap and have
    the area [L * h]. *)
Definition flat_curve1 (L h : R) : segment := [(0, 0); (L, h); (2 * L, 0)].
Definition flat_curve2 (L h : R) : segment :=
  [(L, 0); (2 * L, h); (3 * L, 0)].

(** Two small quadratic curves whose bounding boxes overlap and are both
    smaller than the default precision. *)
Definition small_curve1 : segment := [(0, 0); (0.01, 0.01); (0.02, 0.02)].
Definition small_curve2 : segment := [(0, 0); (0.01, 0.005); (0.02, 0.01)].

(** The components of a bounding rectangle, and the points inside it. *)
Definition xMin_of (b : Bounds) : R := fst (fst (fst b)).
Definition yMin_of (b : Bounds) : R := snd (fst (fst b)).
Definition xMax_of (b : Bounds) : R := snd (fst b).
Definition yMax_of (b : Bounds) : R := snd b.

Definition inside (b : Bounds) (p : point) : Prop :=
  xMin_of b <= fst p <= xMax_of b /\ yMin_of b <= snd p <= yMax_of b.

(** One coordinate of a cubic in power basis, and its derivative. *)
Definition cubic_poly (a b c d t : R) : R :=
  a * (t * (t * t)) + b * (t * t) + c * t + d.
Definition cubic_poly' (a b c t : R) : R :=
  3 * a * (t * t) + 2 * b * t + c.

(** The derivative [3 A t^2 + 2 B t + C] of one coordinate of a cubic is
    solved exactly by [solveQuadratic (3 A) (2 B) C] when the solver takes
    it for what it is: a true quadratic ([|3 A| >= epsilon]), or, with
    [A = 0], a linear equation ([|2 B| >= epsilon]) or a constant
    ([B = 0]). *)
Definition derivative_solved (a b : R) : Prop :=
  epsilon <= Rabs (a * 3.0)
  \/ (a = 0 /\ (epsilon <= Rabs (b * 2.0) \/ b = 0)).

(** The quantities that [solveCubic] computes for [a x^3 + b x^2 + c x + d]
    when [a] is not small: Q and R of the normalised equation, and R^2 and
    Q^3 after values below epsilon are set to zero. *)
Definition cubic_Q (a b c : R) : R :=
  let a1 := b / a in
  let a2 := c / a in
  (a1 * a1 - 3.0 * a2) / 9.0.

Definition cubic_R (a b c d : R) : R :=
  let a1 := b / a in
  let a2 := c / a in
  let a3 := d / a in
  (2.0 * a1 * a1 * a1 - 9.0 * a1 * a2 + 27.0 * a3) / 54.0.

Definition cubic_R2 (a b c d : R) : R :=
  let R2 := cubic_R a b c d * cubic_R a b c d in
  if Rltb R2 epsilon then 0 else R2.

Definition cubic_Q3 (a b c : R) : R :=
  let Q3 := cubic_Q a b c * cubic_Q a b c * cubic_Q a b c in
  if Rltb (Rabs Q3) epsilon then 0 else Q3.

(** The three trigonometric roots, before they are sorted. *)
Definition cubic_trig_roots (a b c d : R) : list R :=
  let theta :=
    acos (Rmax (Rmin (cubic_R a b c d / sqrt (cubic_Q3 a b c)) 1.0) (- 1.0)) in
  let rQ2 := - 2.0 * sqrt (cubic_Q a b c) in
  let a1_3 := b / a / 3.0 in
  [rQ2 * cos (theta / 3.0) - a1_3;
   rQ2 * cos ((theta + 2.0 * PI) / 3.0) - a1_3;
   rQ2 * cos ((theta + 4.0 * PI) / 3.0) - a1_3].

(** [r0, r1, r2] are the ascending roots [s0 <= s1 <= s2] after adjacent
    roots closer than epsilon were replaced by their average and every
    root was rounded to [epsilonDigits] decimal digits. *)
Definition merged_and_rounded (s0 s1 s2 r0 r1 r2 : R) : Prop :=
  (s1 - s0 < epsilon /\ s2 - s1 < epsilon
   /\ r0 = round ((s0 + s1 + s2) / 3) epsilonDigits
   /\ r1 = r0 /\ r2 = r0)
  \/ (s1 - s0 < epsilon /\ ~ s2 - s1 < epsilon
      /\ r0 = round ((s0 + s1) / 2) epsilonDigits
      /\ r1 = r0 /\ r2 = round s2 epsilonDigits)
  \/ (~ s1 - s0 < epsilon /\ s2 - s1 < epsilon
      /\ r0 = round s0 epsilonDigits
      /\ r1 = round ((s1 + s2) / 2) epsilonDigits /\ r2 = r1)
  \/ (~ s1 - s0 < epsilon /\ ~ s2 - s1 < epsilon
      /\ r0 = round s0 epsilonDigits
      /\ r1 = round s1 epsilonDigits
      /\ r2 = round s2 epsilonDigits).

(** The straight-line distance between two points. *)
Definition dist (p q : point) : R :=
  sqrt ((fst q - fst p) * (fst q - fst p) + (snd q - snd p) * (snd q - snd p)).



(** The same for a complex number ([moderate p] is
    [moderateC (complex_of p)]), and the largest finite double,
    [sys.float_info.max]. *)
Definition moderateC (z : complex) : Prop :=
  Rabs (real z) <= 1e70 /\ Rabs (imag z) <= 1e70.

Definition float_max : R := 1.7976931348623157e308.

(** A call that does not raise ValueError, the exception that the
    dispatchers raise for an unsupported degree. *)
Definition no_ValueError {A : Type} (m : result A) : Prop :=
  m <> Raise ValueError.

(** Modelled from the spec: an implementation of the interface
    [TransformLib] by affine maps [(xx, xy, yx, yy, dx, dy)], for which
    the alignment is the translation by minus the start of the line
    followed by the rotation by minus the angle of the line. *)
Definition affine_TransformLib : TransformLib :=
  {| Transform := (R * R * R * R * R * R)%type;
     Offset := fun x y => (1, 0, 0, 1, x, y);
     Identity := (1, 0, 0, 1, 0, 0);
     rotate := fun m angle =>
       let '(xx2, xy2, yx2, yy2, dx2, dy2) := m in
       let c := cos angle in
       let s := sin angle in
       (c * xx2 + s * yx2, c * xy2 + s * yy2,
        - s * xx2 + c * yx2, - s * xy2 + c * yy2,
        dx2, dy2);
     transformPoint := fun m p =>
       let '(xx, xy, yx, yy, dx, dy) := m in
       (xx * fst p + yx * snd p + dx, xy * fst p + yy * snd p + dy);
     reverseTransform := fun m other =>
       let '(xx1, xy1, yx1, yy1, dx1, dy1) := m in
       let '(xx2, xy2, yx2, yy2, dx2, dy2) := other in
       (xx1 * xx2 + xy1 * yx2, xx1 * xy2 + xy1 * yy2,
        yx1 * xx2 + yy1 * yx2, yx1 * xy2 + yy1 * yy2,
        xx2 * dx1 + yx2 * dy1 + dx2, xy2 * dx1 + yy2 * dy1 + dy2) |}.

(** The point of a sub-segment, given as a tuple, at a parameter. *)
Definition quadraticPointAtT3 (seg : point * point * point) (t : R) : point :=
  let '(p1, p2, p3) := seg in quadraticPointAtT p1 p2 p3 t.
Definition cubicPointAtT4 (seg : point * point * point * point) (t : R)
  : point :=
  let '(p1, p2, p3, p4) := seg in cubicPointAtT p1 p2 p3 p4 t.

(** The similarity [z |-> k * z + v] of the complex plane: a rotation and
    scaling by [k] followed by a translation by [v]. *)
Definition similarity (k v z : complex) : complex := (k * z + v)%C.

(** The slope of the line through [s] and [e], the point where the lines
    through [s1], [e1] and through [s2], [e2] cross, and the parameter of a
    point of a line read off its x or its y coordinate. *)
Definition slope (s e : point) : R := (snd e - snd s) / (fst e - fst s).

Definition crossing (s1 e1 s2 e2 : point) : point :=
  let x := (slope s1 e1 * fst s1 - snd s1 - slope s2 e2 * fst s2 + snd s2)
           / (slope s1 e1 - slope s2 e2) in
  (x, slope s1 e1 * (x - fst s1) + snd s1).

Definition x_parameter (s e p : point) : R :=
  (fst p - fst s) / (fst e - fst s).

Definition y_parameter (s e p : point) : R :=
  (snd p - snd s) / (snd e - snd s).

(** The point of the line through [s1] and [e1] at the x coordinate of
    [s2]. *)
Definition vertical_crossing (s1 e1 s2 : point) : point :=
  (fst s2, slope s1 e1 * (fst s2 - fst s1) + snd s1).

(** The key [unique_key] under which [_curve_curve_intersections_t]
    remembers a pair of parameters. *)
Definition unique_key (precision : R) (ts : R * R) : Z :=
  int (fst ts / precision).

(** The rectangle [b] lies within the rectangle [c]. *)
Definition rect_within (b c : Bounds) : Prop :=
  xMin_of c <= xMin_of b /\ yMin_of c <= yMin_of b
  /\ xMax_of b <= xMax_of c /\ yMax_of b <= yMax_of c.

(** The point with the coordinates of a complex number. *)
Definition point_of (z : complex) : point := (real z, imag z).

(** Two straight quadratics that cross: the first climbs from (0, 0) to
    (2, 2^-10), the second from (0.5, 3 * 2^-13) to (2.5, 7 * 2^-13).  The
    bounding box of the first has an area above the default precision, the
    bounding boxes of the four halves have areas below it. *)
Definition crossing_curve1 : segment :=
  [(0, 0); (1, 0.00048828125); (2, 0.0009765625)].
Definition crossing_curve2 : segment :=
  [(0.5, 0.0003662109375); (1.5, 0.0006103515625); (2.5, 0.0008544921875)].
(** * Verification *)

(** ** The run-time: comparisons, division, square root *)

Lemma Rltb_spec (x y : R) : reflect (x < y) (Rltb x y).
Proof. unfold Rltb. destruct (Rlt_dec x y); constructor; assumption. Qed.

Lemma Rleb_spec (x y : R) : reflect (x <= y) (Rleb x y).
Proof. unfold Rleb. destruct (Rle_dec x y); constructor; assumption. Qed.

Lemma Reqb_spec (x y : R) : reflect (x = y) (Reqb x y).
Proof. unfold Reqb. destruct (Req_dec_T x y); constructor; assumption. Qed.

Lemma Rltb_true (x y : R) : x < y -> Rltb x y = true.
Proof. intros. destruct (Rltb_spec x y); [reflexivity | contradiction]. Qed.

Lemma Rltb_false (x y : R) : y <= x -> Rltb x y = false.
Proof. intros. destruct (Rltb_spec x y); [lra | reflexivity]. Qed.

Lemma Rleb_true (x y : R) : x <= y -> Rleb x y = true.
Proof. intros. destruct (Rleb_spec x y); [reflexivity | contradiction]. Qed.

Lemma Rleb_false (x y : R) : y < x -> Rleb x y = false.
Proof. intros. destruct (Rleb_spec x y); [lra | reflexivity]. Qed.

Lemma Reqb_true (x y : R) : x = y -> Reqb x y = true.
Proof. intros. destruct (Reqb_spec x y); [reflexivity | contradiction]. Qed.

Lemma Reqb_false (x y : R) : x <> y -> Reqb x y = false.
Proof. intros. destruct (Reqb_spec x y); [contradiction | reflexivity]. Qed.

Lemma truediv_ok (a b : R) : b <> 0 -> truediv a b = Ok (a / b).
Proof. intros Hb. unfold truediv. now rewrite Reqb_false. Qed.

Lemma math_sqrt_ok (x : R) : 0 <= x -> math_sqrt x = Ok (sqrt x).
Proof. intros Hx. unfold math_sqrt. now rewrite Rltb_false. Qed.

Lemma math_acos_ok (x : R) : -1 <= x <= 1 -> math_acos x = Ok (acos x).
Proof.
  intros [Hlo Hhi]. unfold math_acos.
  rewrite Rltb_false by assumption. now rewrite Rltb_false.
Qed.

Lemma epsilon_pos : 0 < epsilon.
Proof. unfold epsilon. lra. Qed.

(** Decimal literals such as [2.0] are rationals; [field] and [ring] want
    them as quotients of integers. *)
Ltac decimals :=
  unfold Q2R in *; cbn [QArith_base.Qnum QArith_base.Qden] in *.

(** Case analysis on every comparison that the goal still tests. *)
Ltac cases_on_tests :=
  repeat match goal with
    | |- context [Rltb ?x ?y] => destruct (Rltb_spec x y)
    | |- context [Rleb ?x ?y] => destruct (Rleb_spec x y)
    | |- context [Reqb ?x ?y] => destruct (Reqb_spec x y)
    end.

(** ** Power-basis conversion *)

Lemma calcQuadraticPoints_Parameters (pt1 pt2 pt3 : point) :
  (let '(a, b, c) := calcQuadraticParameters pt1 pt2 pt3 in
   calcQuadraticPoints a b c) = (pt1, pt2, pt3).
Proof.
  destruct pt1 as [x1 y1], pt2 as [x2 y2], pt3 as [x3 y3].
  unfold calcQuadraticParameters, calcQuadraticPoints.
  repeat f_equal; lra.
Qed.

Lemma calcCubicPoints_Parameters (pt1 pt2 pt3 pt4 : point) :
  (let '(a, b, c, d) := calcCubicParameters pt1 pt2 pt3 pt4 in
   calcCubicPoints a b c d) = (pt1, pt2, pt3, pt4).
Proof.
  destruct pt1 as [x1 y1], pt2 as [x2 y2], pt3 as [x3 y3], pt4 as [x4 y4].
  unfold calcCubicParameters, calcCubicPoints.
  repeat f_equal; lra.
Qed.

(** C8. Converting the control points of a quadratic, or of a cubic, to
    power-basis parameters and back gives the control points again,
    exactly in real arithmetic. *)
Theorem basis_conversion_roundtrip :
  (forall pt1 pt2 pt3 : point,
      (let '(a, b, c) := calcQuadraticParameters pt1 pt2 pt3 in
       calcQuadraticPoints a b c) = (pt1, pt2, pt3))
  /\ (forall pt1 pt2 pt3 pt4 : point,
      (let '(a, b, c, d) := calcCubicParameters pt1 pt2 pt3 pt4 in
       calcCubicPoints a b c d) = (pt1, pt2, pt3, pt4)).
Proof.
  split.
  - exact calcQuadraticPoints_Parameters.
  - exact calcCubicPoints_Parameters.
Qed.

(** ** The quadratic solver *)

Lemma Rabs_ge_epsilon_neq0 (a : R) : epsilon <= Rabs a -> a <> 0.
Proof.
  intros Ha Hz. subst a. rewrite Rabs_R0 in Ha.
  pose proof epsilon_pos. lra.
Qed.

Lemma solveQuadratic_degenerate (a b c : R) :
  Rabs a < epsilon -> Rabs b < epsilon -> solveQuadratic a b c = Ok [].
Proof.
  intros Ha Hb. unfold solveQuadratic.
  now rewrite !Rltb_true by assumption.
Qed.

Lemma solveQuadratic_linear (a b c : R) :
  Rabs a < epsilon -> epsilon <= Rabs b ->
  solveQuadratic a b c = Ok [- c / b].
Proof.
  intros Ha Hb. unfold solveQuadratic.
  rewrite Rltb_true by assumption. rewrite Rltb_false by assumption.
  rewrite truediv_ok by (now apply Rabs_ge_epsilon_neq0). reflexivity.
Qed.

Lemma solveQuadratic_complex (a b c : R) :
  epsilon <= Rabs a -> b * b - 4 * a * c < 0 ->
  solveQuadratic a b c = Ok [].
Proof.
  intros Ha HD. unfold solveQuadratic.
  rewrite Rltb_false by assumption. now rewrite Rleb_false by lra.
Qed.

Lemma solveQuadratic_real (a b c : R) :
  epsilon <= Rabs a -> 0 <= b * b - 4 * a * c ->
  solveQuadratic a b c =
    Ok [(- b + sqrt (b * b - 4 * a * c)) / (2 * a);
        (- b - sqrt (b * b - 4 * a * c)) / (2 * a)].
Proof.
  intros Ha HD. unfold solveQuadratic.
  pose proof (Rabs_ge_epsilon_neq0 a Ha) as Hne.
  rewrite Rltb_false by assumption. rewrite Rleb_true by lra.
  replace (b * b - 4.0 * a * c) with (b * b - 4 * a * c) by lra.
  rewrite math_sqrt_ok by assumption. cbn [bind].
  rewrite !truediv_ok by assumption. cbn [bind].
  f_equal. f_equal.
  - decimals. field; assumption.
  - f_equal. decimals. field; assumption.
Qed.

(** C4. The four cases of [solveQuadratic]: no root for a degenerate
    equation, the root [-c/b] of a linear one, no root when the
    discriminant is negative, and otherwise the two roots of the quadratic
    formula, the one with [+ sqrt D] first. *)
Theorem solveQuadratic_cases (a b c : R) :
  (Rabs a < epsilon -> Rabs b < epsilon -> solveQuadratic a b c = Ok [])
  /\ (Rabs a < epsilon -> epsilon <= Rabs b ->
      solveQuadratic a b c = Ok [- c / b])
  /\ (epsilon <= Rabs a -> b * b - 4 * a * c < 0 ->
      solveQuadratic a b c = Ok [])
  /\ (epsilon <= Rabs a -> 0 <= b * b - 4 * a * c ->
      solveQuadratic a b c =
        Ok [(- b + sqrt (b * b - 4 * a * c)) / (2 * a);
            (- b - sqrt (b * b - 4 * a * c)) / (2 * a)]).
Proof.
  repeat split.
  - apply solveQuadratic_degenerate.
  - apply solveQuadratic_linear.
  - apply solveQuadratic_complex.
  - apply solveQuadratic_real.
Qed.

Lemma solveQuadratic_cases_witness :
  solveQuadratic 0 0 1 = Ok []
  /\ solveQuadratic 0 2 4 = Ok [- 4 / 2]
  /\ solveQuadratic 1 0 1 = Ok []
  /\ solveQuadratic 1 0 (- 1) =
       Ok [(- 0 + sqrt (0 * 0 - 4 * 1 * - 1)) / (2 * 1);
           (- 0 - sqrt (0 * 0 - 4 * 1 * - 1)) / (2 * 1)].
Proof.
  assert (H0 : Rabs 0 < epsilon)
    by (rewrite Rabs_R0; unfold epsilon; lra).
  assert (H1 : epsilon <= Rabs 1)
    by (rewrite Rabs_R1; unfold epsilon; lra).
  assert (H2 : epsilon <= Rabs 2)
    by (rewrite Rabs_pos_eq by lra; unfold epsilon; lra).
  repeat split.
  - destruct (solveQuadratic_cases 0 0 1) as (Hc & _). now apply Hc.
  - destruct (solveQuadratic_cases 0 2 4) as (_ & Hc & _). now apply Hc.
  - destruct (solveQuadratic_cases 1 0 1) as (_ & _ & Hc & _).
    apply Hc; [assumption | lra].
  - destruct (solveQuadratic_cases 1 0 (- 1)) as (_ & _ & _ & Hc).
    apply Hc; [assumption | lra].
Defined.

(** ** Splitting at parameter values *)

Lemma nth_error_map_seq {A : Type} (F : nat -> A) (n i : nat) (s : A) :
  nth_error (map F (seq 0 n)) i = Some s -> (i < n)%nat /\ s = F i.
Proof.
  intros Hs.
  assert (Hi : (i < n)%nat).
  { assert (Hlen : nth_error (map F (seq 0 n)) i <> None) by congruence.
    apply nth_error_Some in Hlen.
    now rewrite length_map, length_seq in Hlen. }
  split; [assumption |].
  rewrite nth_error_map, nth_error_seq in Hs.
  destruct (Nat.ltb_spec i n); [| lia].
  cbn in Hs. congruence.
Qed.

Lemma nth_error_map_seq_lt {A : Type} (F : nat -> A) (n i : nat) :
  (i < n)%nat -> nth_error (map F (seq 0 n)) i = Some (F i).
Proof.
  intros Hi. rewrite nth_error_map, nth_error_seq.
  destruct (Nat.ltb_spec i n); [reflexivity | lia].
Qed.

(** The list of split points, with 0.0 inserted in front and 1.0
    appended. *)
Lemma split_points_length (ts : list R) :
  Nat.sub (length (0.0 :: ts ++ [1.0])) 1 = S (length ts).
Proof. cbn [length]. rewrite length_app. cbn. lia. Qed.

Lemma split_points_last (ts : list R) :
  nth (Nat.add (length ts) 1) (0.0 :: ts ++ [1.0]) 0 = 1.
Proof.
  rewrite Nat.add_1_r. cbn [nth].
  rewrite app_nth2 by lia. rewrite Nat.sub_diag. cbn. lra.
Qed.

Section QuadraticSplit.

Variables (a b c : point) (ts : list R).

Let ts' : list R := 0.0 :: ts ++ [1.0].

Lemma _splitQuadraticAtT_nth (i : nat) (s : point * point * point) :
  nth_error (_splitQuadraticAtT a b c ts) i = Some s ->
  (i < S (length ts))%nat
  /\ start3 s = quadraticPower a b c (nth i ts' 0)
  /\ end3 s = quadraticPower a b c (nth (i + 1) ts' 0).
Proof.
  unfold _splitQuadraticAtT.
  destruct a as [ax ay], b as [bx by_], c as [cx cy].
  rewrite split_points_length. intros Hs.
  apply nth_error_map_seq in Hs as [Hi ->].
  split; [assumption |].
  unfold calcQuadraticPoints, quadraticPower, start3, end3, ts'; cbn [fst snd].
  split; f_equal; decimals; ring.
Qed.

Lemma _splitQuadraticAtT_length :
  length (_splitQuadraticAtT a b c ts) = S (length ts).
Proof.
  unfold _splitQuadraticAtT.
  destruct a as [ax ay], b as [bx by_], c as [cx cy].
  now rewrite length_map, length_seq, split_points_length.
Qed.

End QuadraticSplit.

Section CubicSplit.

Variables (a b c d : point) (ts : list R).

Let ts' : list R := 0.0 :: ts ++ [1.0].

Lemma _splitCubicAtT_nth (i : nat) (s : point * point * point * point) :
  nth_error (_splitCubicAtT a b c d ts) i = Some s ->
  (i < S (length ts))%nat
  /\ start4 s = cubicPower a b c d (nth i ts' 0)
  /\ end4 s = cubicPower a b c d (nth (i + 1) ts' 0).
Proof.
  unfold _splitCubicAtT.
  destruct a as [ax ay], b as [bx by_], c as [cx cy], d as [dx dy].
  rewrite split_points_length. intros Hs.
  apply nth_error_map_seq in Hs as [Hi ->].
  split; [assumption |].
  unfold calcCubicPoints, cubicPower, start4, end4, ts'; cbn [fst snd].
  split; f_equal; decimals; field.
Qed.

Lemma _splitCubicAtT_length :
  length (_splitCubicAtT a b c d ts) = S (length ts).
Proof.
  unfold _splitCubicAtT.
  destruct a as [ax ay], b as [bx by_], c as [cx cy], d as [dx dy].
  now rewrite length_map, length_seq, split_points_length.
Qed.

End CubicSplit.

Lemma quadraticPower_start (pt1 pt2 pt3 : point) :
  (let '(a, b, c) := calcQuadraticParameters pt1 pt2 pt3 in
   quadraticPower a b c 0) = pt1.
Proof.
  destruct pt1 as [x1 y1], pt2 as [x2 y2], pt3 as [x3 y3].
  unfold calcQuadraticParameters, quadraticPower; cbn [fst snd].
  f_equal; ring.
Qed.

Lemma quadraticPower_end (pt1 pt2 pt3 : point) :
  (let '(a, b, c) := calcQuadraticParameters pt1 pt2 pt3 in
   quadraticPower a b c 1) = pt3.
Proof.
  destruct pt1 as [x1 y1], pt2 as [x2 y2], pt3 as [x3 y3].
  unfold calcQuadraticParameters, quadraticPower; cbn [fst snd].
  f_equal; ring.
Qed.

Lemma cubicPower_start (pt1 pt2 pt3 pt4 : point) :
  (let '(a, b, c, d) := calcCubicParameters pt1 pt2 pt3 pt4 in
   cubicPower a b c d 0) = pt1.
Proof.
  destruct pt1 as [x1 y1], pt2 as [x2 y2], pt3 as [x3 y3], pt4 as [x4 y4].
  unfold calcCubicParameters, cubicPower; cbn [fst snd].
  f_equal; ring.
Qed.

Lemma cubicPower_end (pt1 pt2 pt3 pt4 : point) :
  (let '(a, b, c, d) := calcCubicParameters pt1 pt2 pt3 pt4 in
   cubicPower a b c d 1) = pt4.
Proof.
  destruct pt1 as [x1 y1], pt2 as [x2 y2], pt3 as [x3 y3], pt4 as [x4 y4].
  unfold calcCubicParameters, cubicPower; cbn [fst snd].
  f_equal; ring.
Qed.

Lemma splitQuadraticAtT_chain (pt1 pt2 pt3 : point) (ts : list R) :
  let segs := splitQuadraticAtT pt1 pt2 pt3 ts in
  length segs = S (length ts)
  /\ (exists s, nth_error segs 0 = Some s /\ start3 s = pt1)
  /\ (forall i s s',
         nth_error segs i = Some s -> nth_error segs (S i) = Some s' ->
         end3 s = start3 s')
  /\ (exists s, nth_error segs (length ts) = Some s /\ end3 s = pt3).
Proof.
  unfold splitQuadraticAtT.
  pose proof (quadraticPower_start pt1 pt2 pt3) as H0.
  pose proof (quadraticPower_end pt1 pt2 pt3) as H1.
  destruct (calcQuadraticParameters pt1 pt2 pt3) as [[a b] c].
  pose proof (_splitQuadraticAtT_length a b c ts) as Hlen.
  cbv zeta. repeat split.
  - assumption.
  - destruct (nth_error (_splitQuadraticAtT a b c ts) 0) as [s |] eqn:Hs.
    + exists s. split; [reflexivity |].
      apply _splitQuadraticAtT_nth in Hs as (_ & -> & _).
      cbn [nth]. rewrite <- H0. f_equal. lra.
    + apply nth_error_None in Hs. lia.
  - intros i s s' Hs Hs'.
    apply _splitQuadraticAtT_nth in Hs as (_ & _ & ->).
    apply _splitQuadraticAtT_nth in Hs' as (_ & -> & _).
    now rewrite Nat.add_1_r.
  - destruct (nth_error (_splitQuadraticAtT a b c ts) (length ts))
      as [s |] eqn:Hs.
    + exists s. split; [reflexivity |].
      apply _splitQuadraticAtT_nth in Hs as (_ & _ & ->).
      now rewrite split_points_last.
    + apply nth_error_None in Hs. lia.
Qed.

Lemma splitCubicAtT_chain (pt1 pt2 pt3 pt4 : point) (ts : list R) :
  let segs := splitCubicAtT pt1 pt2 pt3 pt4 ts in
  length segs = S (length ts)
  /\ (exists s, nth_error segs 0 = Some s /\ start4 s = pt1)
  /\ (forall i s s',
         nth_error segs i = Some s -> nth_error segs (S i) = Some s' ->
         end4 s = start4 s')
  /\ (exists s, nth_error segs (length ts) = Some s /\ end4 s = pt4).
Proof.
  unfold splitCubicAtT.
  pose proof (cubicPower_start pt1 pt2 pt3 pt4) as H0.
  pose proof (cubicPower_end pt1 pt2 pt3 pt4) as H1.
  destruct (calcCubicParameters pt1 pt2 pt3 pt4) as [[[a b] c] d].
  pose proof (_splitCubicAtT_length a b c d ts) as Hlen.
  cbv zeta. repeat split.
  - assumption.
  - destruct (nth_error (_splitCubicAtT a b c d ts) 0) as [s |] eqn:Hs.
    + exists s. split; [reflexivity |].
      apply _splitCubicAtT_nth in Hs as (_ & -> & _).
      cbn [nth]. rewrite <- H0. f_equal. lra.
    + apply nth_error_None in Hs. lia.
  - intros i s s' Hs Hs'.
    apply _splitCubicAtT_nth in Hs as (_ & _ & ->).
    apply _splitCubicAtT_nth in Hs' as (_ & -> & _).
    now rewrite Nat.add_1_r.
  - destruct (nth_error (_splitCubicAtT a b c d ts) (length ts))
      as [s |] eqn:Hs.
    + exists s. split; [reflexivity |].
      apply _splitCubicAtT_nth in Hs as (_ & _ & ->).
      now rewrite split_points_last.
    + apply nth_error_None in Hs. lia.
Qed.

(** C6. [splitQuadraticAtT] and [splitCubicAtT] at the parameters
    t1, ..., tk return k+1 sub-segments, each again a triple (a quadruple)
    of control points; the first one starts at the start point of the
    input, the last control point of each one is the first control point
    of the next, and the last one ends at the end point of the input.  The
    equalities are exact.  They hold for every list of parameters, so in
    particular for every ascending list of parameters in [0, 1]. *)
Theorem splitAtT_chain :
  (forall (pt1 pt2 pt3 : point) (ts : list R),
      let segs := splitQuadraticAtT pt1 pt2 pt3 ts in
      length segs = S (length ts)
      /\ (exists s, nth_error segs 0 = Some s /\ start3 s = pt1)
      /\ (forall i s s',
             nth_error segs i = Some s -> nth_error segs (S i) = Some s' ->
             end3 s = start3 s')
      /\ (exists s, nth_error segs (length ts) = Some s /\ end3 s = pt3))
  /\ (forall (pt1 pt2 pt3 pt4 : point) (ts : list R),
      let segs := splitCubicAtT pt1 pt2 pt3 pt4 ts in
      length segs = S (length ts)
      /\ (exists s, nth_error segs 0 = Some s /\ start4 s = pt1)
      /\ (forall i s s',
             nth_error segs i = Some s -> nth_error segs (S i) = Some s' ->
             end4 s = start4 s')
      /\ (exists s, nth_error segs (length ts) = Some s /\ end4 s = pt4)).
Proof.
  split.
  - exact splitQuadraticAtT_chain.
  - exact splitCubicAtT_chain.
Qed.

Lemma splitAtT_chain_witness :
  exists s s',
    nth_error (splitQuadraticAtT (0, 0) (50, 100) (100, 0) [0.5; 0.75]) 1
    = Some s
    /\ nth_error (splitQuadraticAtT (0, 0) (50, 100) (100, 0) [0.5; 0.75]) 2
       = Some s'
    /\ end3 s = start3 s'.
Proof.
  destruct splitAtT_chain as [Hquadratic _].
  destruct (Hquadratic (0, 0) (50, 100) (100, 0) [0.5; 0.75])
    as (_ & _ & Hchain & _).
  do 2 eexists. split; [reflexivity |]. split; [reflexivity |].
  apply (Hchain 1%nat); reflexivity.
Defined.

(** ** Line/line intersection *)

Lemma isclose_sym (a b : R) : isclose a b = isclose b a.
Proof.
  unfold isclose. now rewrite Rabs_minus_sym, (Rmax_comm (Rabs a)).
Qed.

(** Comparisons between concrete numbers: [Rabs], [Rmax] and [Rmin] are
    unfolded and the cases are closed by linear arithmetic. *)
Ltac concrete_cases :=
  unfold Rabs, Rmax, Rmin in *;
  repeat match goal with
    | |- context [Rcase_abs ?x] => destruct (Rcase_abs x)
    | |- context [Rle_dec ?x ?y] => destruct (Rle_dec x y)
    end;
  try lra.

Ltac concrete_isclose :=
  unfold isclose;
  first [ apply Rleb_true; concrete_cases; fail
        | apply Rleb_false; concrete_cases; fail ].

(** Evaluation of the tests and of [Rmin], [Rmax], [Rabs] on concrete
    numbers, innermost first. *)
Ltac eval_float :=
  repeat match goal with
    | |- context [Rmin ?x ?y] =>
        first [ rewrite (Rmin_left x y) by lra
              | rewrite (Rmin_right x y) by lra ]
    | |- context [Rmax ?x ?y] =>
        first [ rewrite (Rmax_left x y) by lra
              | rewrite (Rmax_right x y) by lra ]
    | |- context [Rabs ?x] =>
        first [ rewrite (Rabs_pos_eq x) by lra
              | rewrite (Rabs_left1 x) by lra ]
    | |- context [Rltb ?x ?y] =>
        first [ rewrite (Rltb_true x y) by lra
              | rewrite (Rltb_false x y) by lra ]
    | |- context [Rleb ?x ?y] =>
        first [ rewrite (Rleb_true x y) by lra
              | rewrite (Rleb_false x y) by lra ]
    | |- context [Reqb ?x ?y] =>
        first [ rewrite (Reqb_true x y) by lra
              | rewrite (Reqb_false x y) by lra ]
    end.

(** C2. When the first line is vertical, neither segment is degenerate and
    the second line is not vertical, [lineLineIntersections] reaches the
    branch that mentions the unbound name [xy] and raises NameError; it
    returns no Intersection. *)
Theorem lineLineIntersections_vertical_first_raises
    (ax ay bx by_ cx cy dx dy : R) :
  isclose ax bx = true ->
  isclose ax bx && isclose ay by_ = false ->
  isclose cx dx && isclose cy dy = false ->
  isclose cx dx = false ->
  lineLineIntersections (ax, ay) (bx, by_) (cx, cy) (dx, dy)
  = Raise NameError.
Proof.
  intros Hvert Hnd1 Hnd2 Hnv.
  unfold lineLineIntersections.
  rewrite Hvert in *. cbn [andb] in Hnd1.
  rewrite Hnv, Hnd1. cbn [andb].
  rewrite Bool.andb_false_r. cbn [andb].
  rewrite (isclose_sym bx ax), Hvert.
  reflexivity.
Qed.

Lemma lineLineIntersections_vertical_first_raises_witness :
  lineLineIntersections (0, 0) (0, 1) (- 1, 0) (1, 1) = Raise NameError.
Proof.
  assert (H00 : isclose 0 0 = true) by concrete_isclose.
  assert (H01 : isclose 0 1 = false) by concrete_isclose.
  assert (H11 : isclose (- 1) 1 = false) by concrete_isclose.
  apply lineLineIntersections_vertical_first_raises.
  - exact H00.
  - now rewrite H00, H01.
  - now rewrite H11, H01.
  - exact H11.
Defined.

(** ** Dispatch on the degree *)

Lemma segmentPointAtT_line (pt1 pt2 : point) (t : R) :
  segmentPointAtT [pt1; pt2] t = Ok (linePointAtT pt1 pt2 t).
Proof. reflexivity. Qed.

Lemma segmentPointAtT_quadratic (pt1 pt2 pt3 : point) (t : R) :
  segmentPointAtT [pt1; pt2; pt3] t = Ok (quadraticPointAtT pt1 pt2 pt3 t).
Proof. reflexivity. Qed.

Lemma segmentPointAtT_cubic (pt1 pt2 pt3 pt4 : point) (t : R) :
  segmentPointAtT [pt1; pt2; pt3; pt4] t
  = Ok (cubicPointAtT pt1 pt2 pt3 pt4 t).
Proof. reflexivity. Qed.

Lemma segmentPointAtT_raises_iff (seg : segment) (t : R) :
  segmentPointAtT seg t = Raise ValueError <-> ~ valid_length (length seg).
Proof.
  unfold valid_length.
  destruct seg as [| p1 [| p2 [| p3 [| p4 [| p5 rest]]]]];
    cbn; split; intros Hx; try reflexivity; try discriminate; try lia.
Qed.

Lemma segmentPointAtT_ok (seg : segment) (t : R) :
  valid_length (length seg) ->
  exists p, segmentPointAtT seg t = Ok p.
Proof.
  unfold valid_length.
  destruct seg as [| p1 [| p2 [| p3 [| p4 [| p5 rest]]]]];
    cbn [length]; intros Hlen; try lia; eexists; reflexivity.
Qed.

(** ** Curve/curve intersection *)

Lemma for_each_Forall2 {A B : Type} (f : A -> result B) (l : list A)
    (res : list B) :
  for_each f l = Ok res -> Forall2 (fun a b => f a = Ok b) l res.
Proof.
  revert res. induction l as [| a l IH]; intros res Hres; cbn in Hres.
  - injection Hres as <-. constructor.
  - destruct (f a) as [b |] eqn:Hb; [| discriminate].
    destruct (for_each f l) as [bs |]; [| discriminate].
    injection Hres as <-. constructor; auto.
Qed.

Lemma curveCurveIntersections_records (depth : nat) (curve1 curve2 : segment)
    (res : list Intersection) :
  curveCurveIntersections depth curve1 curve2 = Ok res ->
  exists tss,
    _curve_curve_intersections_t depth curve1 curve2 default_precision
      None None = Ok tss
    /\ Forall2
         (fun ts i =>
            segmentPointAtT curve1 (fst ts) = Ok (pt i)
            /\ t1 i = fst ts /\ t2 i = snd ts)
         tss res.
Proof.
  unfold curveCurveIntersections. intros Hres.
  destruct (_curve_curve_intersections_t depth curve1 curve2
              default_precision None None) as [tss |]; [| discriminate].
  exists tss. split; [reflexivity |].
  cbn [bind] in Hres. apply for_each_Forall2 in Hres.
  induction Hres as [| ts i tss' res' Hi _ IH]; constructor; [| exact IH].
  destruct (segmentPointAtT curve1 (fst ts)) as [p |]; [| discriminate].
  cbn [bind] in Hi. injection Hi as <-. cbn. auto.
Qed.

Lemma curveCurveIntersections_pt (depth : nat) (curve1 curve2 : segment)
    (res : list Intersection) :
  curveCurveIntersections depth curve1 curve2 = Ok res ->
  Forall (fun i => segmentPointAtT curve1 (t1 i) = Ok (pt i)) res.
Proof.
  intros Hres.
  apply curveCurveIntersections_records in Hres as (tss & _ & HF).
  induction HF as [| ts i tss' res' (Hp & Ht1 & _) _ IH]; constructor.
  - now rewrite Ht1.
  - exact IH.
Qed.

Lemma Intersection_eq (p q : point) (a a' b b' : R) :
  fst p = fst q -> snd p = snd q -> a = a' -> b = b' ->
  mkIntersection p a b = mkIntersection q a' b'.
Proof.
  destruct p, q; cbn; intros; subst; reflexivity.
Qed.

Lemma curveCurveIntersections_small_curves :
  curveCurveIntersections 1 small_curve1 small_curve2
  = Ok [mkIntersection (0.01, 0.01) 0.5 0.5].
Proof.
  unfold curveCurveIntersections, _curve_curve_intersections_t,
    small_curve1, small_curve2, _curve_bounds.
  cbn [length Nat.eqb star3 bind].
  unfold calcQuadraticBounds, calcQuadraticParameters.
  eval_float. cbn [bind app filter map calcBounds fold_left fst snd].
  eval_float. unfold sectRect. eval_float. cbn [orb bind negb].
  unfold rectArea, default_precision.
  eval_float. cbn [andb bind for_each fst snd].
  unfold segmentPointAtT. cbn [length Nat.eqb star3 bind fst snd].
  unfold quadraticPointAtT, midpoint. cbn [fst snd].
  do 2 f_equal. apply Intersection_eq; cbn [fst snd]; lra.
Qed.

(** The bounding box of an arch: a quadratic whose end points lie at the
    same height and whose control point lies above the middle of them. *)
Lemma calcQuadraticBounds_arch (x1 x2 x3 h : R) :
  x2 - x1 = x3 - x2 -> x1 < x2 -> 0 < h ->
  calcQuadraticBounds (x1, 0) (x2, h) (x3, 0) = Ok (x1, 0, x3, h / 2).
Proof.
  intros Hmid Hx Hh.
  unfold calcQuadraticBounds, calcQuadraticParameters.
  rewrite (Reqb_true ((x3 - x1 - (x2 - x1) * 2.0) * 2.0)) by lra.
  rewrite (Reqb_false ((0 - 0 - (h - 0) * 2.0) * 2.0)) by lra.
  rewrite truediv_ok by lra. cbn [bind app].
  replace (- ((h - 0) * 2.0) / ((0 - 0 - (h - 0) * 2.0) * 2.0)) with 0.5
    by (decimals; field; lra).
  unfold in_unit_half_open. cbn [filter].
  rewrite (Rleb_true 0 0.5), (Rltb_true 0.5 1) by lra.
  cbn [andb map app calcBounds fold_left fst snd].
  eval_float. f_equal.
  repeat match goal with |- (_, _) = (_, _) => apply f_equal2 end; lra.
Qed.

(** Two flat arches: both bounding boxes are smaller than the default
    precision, so the call stops at once and reports the middle of either
    curve, whatever the distance between the two. *)
Lemma curveCurveIntersections_flat_curves (L h : R) :
  0 < L -> 0 < h -> L * h < 0.001 ->
  curveCurveIntersections 1 (flat_curve1 L h) (flat_curve2 L h)
  = Ok [mkIntersection (L, h / 2) 0.5 0.5].
Proof.
  intros HL Hh Harea.
  unfold curveCurveIntersections, _curve_curve_intersections_t,
    flat_curve1, flat_curve2, _curve_bounds.
  cbn [length Nat.eqb star3 bind].
  rewrite !calcQuadraticBounds_arch by lra. cbn [bind].
  unfold sectRect. eval_float. cbn [orb bind negb].
  unfold rectArea, default_precision.
  rewrite !Rltb_true by nra.
  cbn [andb bind for_each fst snd].
  unfold segmentPointAtT. cbn [length Nat.eqb star3 bind fst snd].
  unfold quadraticPointAtT, midpoint. cbn [fst snd].
  do 2 f_equal. apply Intersection_eq; cbn [fst snd]; lra.
Qed.

Lemma flat_curve2_middle (L h : R) :
  segmentPointAtT (flat_curve2 L h) 0.5 = Ok (2 * L, h / 2).
Proof.
  unfold flat_curve2, segmentPointAtT.
  cbn [length Nat.eqb star3 bind]. unfold quadraticPointAtT.
  cbn [fst snd]. do 2 f_equal; lra.
Qed.

Lemma flat_curves_apart (L h : R) :
  0 <= L -> dist (L, h / 2) (2 * L, h / 2) = L.
Proof.
  intros HL. unfold dist. cbn [fst snd].
  replace ((2 * L - L) * (2 * L - L) + (h / 2 - h / 2) * (h / 2 - h / 2))
    with (L * L) by ring.
  now apply sqrt_square.
Qed.

(** The claim C10 as it is stated fails for two flat arches 2000 wide and
    5e-8 high: both bounding boxes have the area 1e-4, below the precision
    0.001, and the only record returned has [pt] = (1000, 5e-8), the middle
    of the first arch, while the second arch at [t2] = 0.5 is at
    (2000, 5e-8), at the distance 1000. *)
Lemma curveCurveIntersections_flat_curves_far_apart :
  curveCurveIntersections 1 (flat_curve1 1000 1e-7) (flat_curve2 1000 1e-7)
  = Ok [mkIntersection (1000, 1e-7 / 2) 0.5 0.5]
  /\ segmentPointAtT (flat_curve2 1000 1e-7) 0.5 = Ok (2 * 1000, 1e-7 / 2)
  /\ dist (1000, 1e-7 / 2) (2 * 1000, 1e-7 / 2) = 1000
  /\ default_precision < 1000.
Proof.
  split; [apply curveCurveIntersections_flat_curves; lra |].
  split; [apply flat_curve2_middle |].
  split; [apply flat_curves_apart; lra |].
  unfold default_precision. lra.
Qed.

(** C10, amended. Every Intersection record returned by
    [curveCurveIntersections] has as [pt] exactly the point of the first
    curve at [t1].  The second curve is not evaluated, and the distance
    from [pt] to the point of the second curve at [t2] is not bounded by
    the precision: the subdivision stops when both bounding boxes have an
    area below the precision, and for every distance [L] between 1 and 1e70
    there are two curves for which the only record returned has its [pt]
    at the distance [L] from the second curve at [t2]. *)
Theorem curveCurveIntersections_pt_on_first_curve :
  (forall (depth : nat) (curve1 curve2 : segment) (res : list Intersection),
      curveCurveIntersections depth curve1 curve2 = Ok res ->
      Forall (fun i => segmentPointAtT curve1 (t1 i) = Ok (pt i)) res)
  /\ (forall L : R,
         1 <= L <= 1e70 ->
         exists (curve1 curve2 : segment) (i : Intersection) (q : point),
           curveCurveIntersections 1 curve1 curve2 = Ok [i]
           /\ segmentPointAtT curve1 (t1 i) = Ok (pt i)
           /\ segmentPointAtT curve2 (t2 i) = Ok q
           /\ dist (pt i) q = L).
Proof.
  split.
  - exact curveCurveIntersections_pt.
  - intros L HL.
    assert (Hh : 0 < 0.0005 / L)
      by (apply Rdiv_lt_0_compat; lra).
    assert (Harea : L * (0.0005 / L) < 0.001)
      by (replace (L * (0.0005 / L)) with 0.0005 by (field; lra); lra).
    pose proof (curveCurveIntersections_flat_curves L (0.0005 / L))
      as Hcall.
    exists (flat_curve1 L (0.0005 / L)), (flat_curve2 L (0.0005 / L)),
      (mkIntersection (L, 0.0005 / L / 2) 0.5 0.5),
      (2 * L, 0.0005 / L / 2).
    specialize (Hcall ltac:(lra) Hh Harea).
    split; [exact Hcall |].
    split.
    + pose proof (curveCurveIntersections_pt _ _ _ _ Hcall) as Hpt.
      now inversion Hpt.
    + cbn [t2 pt]. split; [apply flat_curve2_middle |].
      apply flat_curves_apart. lra.
Qed.

Lemma curveCurveIntersections_pt_on_first_curve_witness :
  Forall (fun i => segmentPointAtT small_curve1 (t1 i) = Ok (pt i))
    [mkIntersection (0.01, 0.01) 0.5 0.5].
Proof.
  destruct curveCurveIntersections_pt_on_first_curve as [Hall _].
  apply (Hall 1%nat small_curve1 small_curve2).
  exact curveCurveIntersections_small_curves.
Defined.

(** ** Bounding boxes *)

(** [solveQuadratic] never raises: every division and square root in it is
    guarded. *)
Lemma solveQuadratic_total (a b c : R) :
  exists roots, solveQuadratic a b c = Ok roots.
Proof.
  destruct (Rlt_le_dec (Rabs a) epsilon) as [Ha | Ha].
  - destruct (Rlt_le_dec (Rabs b) epsilon) as [Hb | Hb].
    + eexists. now apply solveQuadratic_degenerate.
    + eexists. now apply solveQuadratic_linear.
  - destruct (Rlt_le_dec (b * b - 4 * a * c) 0) as [HD | HD].
    + eexists. now apply solveQuadratic_complex.
    + eexists. now apply solveQuadratic_real.
Qed.

(** Every root that [solveQuadratic] returns for a true quadratic, or for
    a linear equation, solves the equation, and every solution is
    returned. *)
Lemma solveQuadratic_complete_quadratic (a b c s : R) (roots : list R) :
  epsilon <= Rabs a ->
  solveQuadratic a b c = Ok roots ->
  a * (s * s) + b * s + c = 0 ->
  In s roots.
Proof.
  intros Ha Hroots Hs.
  pose proof (Rabs_ge_epsilon_neq0 a Ha) as Hne.
  assert (HD : b * b - 4 * a * c = (2 * a * s + b) * (2 * a * s + b)) by nra.
  assert (HD0 : 0 <= b * b - 4 * a * c)
    by (rewrite HD; apply Rle_0_sqr).
  rewrite solveQuadratic_real in Hroots by assumption.
  injection Hroots as <-.
  rewrite HD. fold (Rsqr (2 * a * s + b)). rewrite sqrt_Rsqr_abs.
  unfold Rabs. destruct (Rcase_abs (2 * a * s + b)).
  - right. left. field. assumption.
  - left. field. assumption.
Qed.

Lemma solveQuadratic_complete_linear (b c s : R) (roots : list R) :
  epsilon <= Rabs b ->
  solveQuadratic 0 b c = Ok roots ->
  b * s + c = 0 ->
  In s roots.
Proof.
  intros Hb Hroots Hs.
  pose proof (Rabs_ge_epsilon_neq0 b Hb) as Hne.
  rewrite solveQuadratic_linear in Hroots;
    [| rewrite Rabs_R0; apply epsilon_pos | assumption].
  injection Hroots as <-. left. field_simplify_eq; [lra | assumption].
Qed.

Lemma calcBounds_fold (rest : list point) (acc : Bounds) :
  let step := fun (acc : Bounds) (p : point) =>
                let '(xMin, yMin, xMax, yMax) := acc in
                (Rmin xMin (fst p), Rmin yMin (snd p),
                 Rmax xMax (fst p), Rmax yMax (snd p)) in
  let r := fold_left step rest acc in
  (xMin_of r <= xMin_of acc /\ yMin_of r <= yMin_of acc
   /\ xMax_of acc <= xMax_of r /\ yMax_of acc <= yMax_of r)
  /\ (forall p, In p rest -> inside r p).
Proof.
  intros step. revert acc.
  induction rest as [| q rest IH]; intros acc; cbn [fold_left].
  - split; [lra | intros p []].
  - destruct (IH (step acc q)) as ((Hx & Hy & HX & HY) & Hin).
    assert (Hq : (xMin_of (step acc q) <= xMin_of acc
                  /\ yMin_of (step acc q) <= yMin_of acc
                  /\ xMax_of acc <= xMax_of (step acc q)
                  /\ yMax_of acc <= yMax_of (step acc q))
                 /\ inside (step acc q) q).
    { destruct acc as [[[xm ym] xM] yM]. unfold inside, step.
      cbn [xMin_of yMin_of xMax_of yMax_of fst snd].
      pose proof (Rmin_l xm (fst q)). pose proof (Rmin_r xm (fst q)).
      pose proof (Rmin_l ym (snd q)). pose proof (Rmin_r ym (snd q)).
      pose proof (Rmax_l xM (fst q)). pose proof (Rmax_r xM (fst q)).
      pose proof (Rmax_l yM (snd q)). pose proof (Rmax_r yM (snd q)).
      lra. }
    destruct Hq as ((Hx' & Hy' & HX' & HY') & Hqin).
    split; [lra |].
    intros p [<- | Hp]; [| now apply Hin].
    unfold inside in *. lra.
Qed.

Lemma calcBounds_inside (points : list point) (p : point) :
  In p points -> inside (calcBounds points) p.
Proof.
  destruct points as [| [x0 y0] rest]; [intros [] |].
  intros Hp. unfold calcBounds.
  destruct (calcBounds_fold rest (x0, y0, x0, y0))
    as ((Hx & Hy & HX & HY) & Hin).
  cbv zeta in *.
  destruct Hp as [<- | Hp]; [| now apply Hin].
  unfold inside. cbn [xMin_of yMin_of xMax_of yMax_of fst snd] in *.
  repeat split; assumption.
Qed.

Lemma inside_ordered (b : Bounds) (p : point) :
  inside b p -> xMin_of b <= xMax_of b /\ yMin_of b <= yMax_of b.
Proof. unfold inside. lra. Qed.

(** *** Extrema of a polynomial on the unit interval *)

Lemma cubic_poly_derivable (a b c d x : R) :
  derivable_pt_lim (cubic_poly a b c d) x (cubic_poly' a b c x).
Proof.
  unfold cubic_poly, cubic_poly'.
  replace (3 * a * (x * x) + 2 * b * x + c)
    with (a * (1 * (x * x) + x * (1 * x + x * 1))
          + b * (1 * x + x * 1) + c * 1 + 0) by ring.
  apply (derivable_pt_lim_plus
           (fun t => a * (t * (t * t)) + b * (t * t) + c * t) (fun _ => d));
    [| apply derivable_pt_lim_const].
  apply (derivable_pt_lim_plus
           (fun t => a * (t * (t * t)) + b * (t * t)) (fun t => c * t));
    [| apply (derivable_pt_lim_scal (fun t => t)); apply derivable_pt_lim_id].
  apply (derivable_pt_lim_plus
           (fun t => a * (t * (t * t))) (fun t => b * (t * t))).
  - apply (derivable_pt_lim_scal (fun t => t * (t * t))).
    apply (derivable_pt_lim_mult (fun t => t) (fun t => t * t)).
    + apply derivable_pt_lim_id.
    + apply (derivable_pt_lim_mult (fun t => t) (fun t => t));
        apply derivable_pt_lim_id.
  - apply (derivable_pt_lim_scal (fun t => t * t)).
    apply (derivable_pt_lim_mult (fun t => t) (fun t => t));
      apply derivable_pt_lim_id.
Qed.

(** A differentiable function on [0, 1] is largest at an end point or at
    an interior zero of its derivative. *)
Lemma maximum_on_unit (f f' : R -> R) :
  (forall x, derivable_pt_lim f x (f' x)) ->
  forall t, 0 <= t <= 1 ->
  exists s, f t <= f s /\ (s = 0 \/ s = 1 \/ (0 < s < 1 /\ f' s = 0)).
Proof.
  intros Hd t Ht.
  assert (Hder : forall x, derivable_pt f x).
  { intros x. exists (f' x). apply Hd. }
  destruct (continuity_ab_maj f 0 1) as (Mx & Hmax & HMx).
  - lra.
  - intros c _. apply derivable_continuous_pt, Hder.
  - exists Mx. split; [now apply Hmax |].
    destruct (Req_dec Mx 0) as [-> | H0]; [now left |].
    destruct (Req_dec Mx 1) as [-> | H1]; [now right; left |].
    right. right. split; [lra |].
    assert (Hz : derive_pt f Mx (Hder Mx) = 0).
    { apply (deriv_maximum f 0 1 Mx); try lra.
      intros x Hx0 Hx1. apply Hmax. lra. }
    rewrite <- Hz. symmetry. apply derive_pt_eq_0. apply Hd.
Qed.

Lemma cubic_poly_extrema (a b c d t : R) :
  0 <= t <= 1 ->
  (exists s, cubic_poly a b c d t <= cubic_poly a b c d s
             /\ (s = 0 \/ s = 1 \/ (0 < s < 1 /\ cubic_poly' a b c s = 0)))
  /\ (exists s, cubic_poly a b c d s <= cubic_poly a b c d t
                /\ (s = 0 \/ s = 1
                    \/ (0 < s < 1 /\ cubic_poly' a b c s = 0))).
Proof.
  intros Ht. split.
  - apply (maximum_on_unit (cubic_poly a b c d) (cubic_poly' a b c));
      [| assumption].
    intros x. apply cubic_poly_derivable.
  - destruct (maximum_on_unit (cubic_poly (- a) (- b) (- c) (- d))
                (cubic_poly' (- a) (- b) (- c))) with (t := t)
      as (s & Hs & Hcase).
    + intros x. apply cubic_poly_derivable.
    + assumption.
    + exists s. unfold cubic_poly, cubic_poly' in *. split; [lra |].
      destruct Hcase as [-> | [-> | [Hs01 Hd]]]; auto.
      right. right. split; [assumption | lra].
Qed.

(** The values of one coordinate stay within [lo, hi] when the end points
    and the interior critical points are among the points bounded. *)
Lemma axis_contained (a b c d : R) (proj : point -> R)
    (points : list point) (lo hi : R) :
  (forall p, In p points -> lo <= proj p <= hi) ->
  (exists p, In p points /\ proj p = cubic_poly a b c d 0) ->
  (exists p, In p points /\ proj p = cubic_poly a b c d 1) ->
  (forall s, 0 < s < 1 -> cubic_poly' a b c s = 0 ->
             exists p, In p points /\ proj p = cubic_poly a b c d s) ->
  forall t, 0 <= t <= 1 -> lo <= cubic_poly a b c d t <= hi.
Proof.
  intros Hbound H0 H1 Hcrit t Ht.
  assert (Hval : forall s,
             s = 0 \/ s = 1 \/ (0 < s < 1 /\ cubic_poly' a b c s = 0) ->
             lo <= cubic_poly a b c d s <= hi).
  { intros s [-> | [-> | [Hs Hd]]].
    - destruct H0 as (p & Hp & <-). now apply Hbound.
    - destruct H1 as (p & Hp & <-). now apply Hbound.
    - destruct (Hcrit s Hs Hd) as (p & Hp & <-). now apply Hbound. }
  destruct (cubic_poly_extrema a b c d t Ht)
    as ((s & Hs & Hcs) & (s' & Hs' & Hcs')).
  pose proof (Hval s Hcs). pose proof (Hval s' Hcs'). lra.
Qed.

Lemma in_unit_half_open_true (s : R) :
  0 < s < 1 -> in_unit_half_open s = true.
Proof.
  intros Hs. unfold in_unit_half_open.
  rewrite Rleb_true by lra. now rewrite Rltb_true by lra.
Qed.

(** The extent of the end points and of the curve at the roots kept by the
    filter contains the curve, provided every interior critical point of a
    coordinate is either among the roots or no higher and no lower than
    the start point. *)
Lemma extent_contains_curve (ax bx cx dx ay by_ cy dy : R)
    (g : R -> point) (roots : list R) (p_start p_end : point) :
  (forall t, g t = (cubic_poly ax bx cx dx t, cubic_poly ay by_ cy dy t)) ->
  p_start = g 0 ->
  p_end = g 1 ->
  (forall s, 0 < s < 1 -> cubic_poly' ax bx cx s = 0 ->
             In s roots \/ cubic_poly ax bx cx dx s = cubic_poly ax bx cx dx 0) ->
  (forall s, 0 < s < 1 -> cubic_poly' ay by_ cy s = 0 ->
             In s roots \/ cubic_poly ay by_ cy dy s = cubic_poly ay by_ cy dy 0) ->
  let points := map g (filter in_unit_half_open roots) ++ [p_start; p_end] in
  forall t, 0 <= t <= 1 -> inside (calcBounds points) (g t).
Proof.
  intros Hg Hstart Hend Hcx Hcy points t Ht.
  assert (Hs_in : In p_start points)
    by (apply in_or_app; right; now left).
  assert (He_in : In p_end points)
    by (apply in_or_app; right; right; now left).
  assert (Hroot_in : forall s, 0 < s < 1 -> In s roots -> In (g s) points).
  { intros s Hs Hin. apply in_or_app. left. apply in_map.
    apply filter_In. split; [assumption | now apply in_unit_half_open_true]. }
  rewrite Hg. unfold inside. cbn [fst snd]. split.
  - apply (axis_contained ax bx cx dx fst points); [| | | | assumption].
    + intros p Hp. apply (calcBounds_inside points p Hp).
    + exists p_start. split; [assumption |]. now rewrite Hstart, Hg.
    + exists p_end. split; [assumption |]. now rewrite Hend, Hg.
    + intros s Hs Hd. destruct (Hcx s Hs Hd) as [Hin | Heq].
      * exists (g s). split; [now apply Hroot_in |]. now rewrite Hg.
      * exists p_start. split; [assumption |]. now rewrite Hstart, Hg, Heq.
  - apply (axis_contained ay by_ cy dy snd points); [| | | | assumption].
    + intros p Hp. apply (calcBounds_inside points p Hp).
    + exists p_start. split; [assumption |]. now rewrite Hstart, Hg.
    + exists p_end. split; [assumption |]. now rewrite Hend, Hg.
    + intros s Hs Hd. destruct (Hcy s Hs Hd) as [Hin | Heq].
      * exists (g s). split; [now apply Hroot_in |]. now rewrite Hg.
      * exists p_start. split; [assumption |]. now rewrite Hstart, Hg, Heq.
Qed.

Lemma extent_ordered (g : R -> point) (roots : list R)
    (p_start p_end : point) :
  let b := calcBounds (map g roots ++ [p_start; p_end]) in
  xMin_of b <= xMax_of b /\ yMin_of b <= yMax_of b.
Proof.
  intros b. apply (inside_ordered b p_start).
  apply calcBounds_inside, in_or_app. right. now left.
Qed.

(** *** The quadratic *)

Lemma quadraticPointAtT_power (pt1 pt2 pt3 : point) (t : R) :
  quadraticPointAtT pt1 pt2 pt3 t
  = (let '(a, b, c) := calcQuadraticParameters pt1 pt2 pt3 in
     (cubic_poly 0 (fst a) (fst b) (fst c) t,
      cubic_poly 0 (snd a) (snd b) (snd c) t)).
Proof.
  destruct pt1 as [x1 y1], pt2 as [x2 y2], pt3 as [x3 y3].
  unfold quadraticPointAtT, calcQuadraticParameters, cubic_poly.
  cbn [fst snd]. f_equal; decimals; field.
Qed.

(** The roots that [calcQuadraticBounds] collects: the zero of the
    derivative on each axis whose leading coefficient is not zero. *)
Lemma calcQuadraticBounds_eq (pt1 pt2 pt3 : point) :
  let '((ax, ay), (bx, by_), (cx, cy)) :=
    calcQuadraticParameters pt1 pt2 pt3 in
  exists roots,
    calcQuadraticBounds pt1 pt2 pt3
    = Ok (calcBounds
            (map (fun t => (ax * t * t + bx * t + cx,
                            ay * t * t + by_ * t + cy))
                 (filter in_unit_half_open roots)
             ++ [pt1; pt3]))
    /\ (ax = 0 \/ In (- bx / (ax * 2)) roots)
    /\ (ay = 0 \/ In (- by_ / (ay * 2)) roots).
Proof.
  unfold calcQuadraticBounds.
  destruct (calcQuadraticParameters pt1 pt2 pt3) as [[[ax ay] [bx by_]] [cx cy]].
  destruct (Reqb_spec (ax * 2.0) 0) as [Hax | Hax];
    destruct (Reqb_spec (ay * 2.0) 0) as [Hay | Hay];
    rewrite ?truediv_ok by assumption; cbn [bind app];
    eexists; (split; [reflexivity |]); split;
    try (left; lra);
    right; replace 2 with 2.0 by lra; cbn [In]; auto.
Qed.

Lemma calcQuadraticBounds_contains (pt1 pt2 pt3 : point) :
  exists b,
    calcQuadraticBounds pt1 pt2 pt3 = Ok b
    /\ xMin_of b <= xMax_of b /\ yMin_of b <= yMax_of b
    /\ forall t, 0 <= t <= 1 -> inside b (quadraticPointAtT pt1 pt2 pt3 t).
Proof.
  pose proof (calcQuadraticBounds_eq pt1 pt2 pt3) as Heq.
  pose proof (quadraticPointAtT_power pt1 pt2 pt3) as Hpow.
  pose proof (quadraticPower_start pt1 pt2 pt3) as Hstart.
  pose proof (quadraticPower_end pt1 pt2 pt3) as Hend.
  destruct (calcQuadraticParameters pt1 pt2 pt3)
    as [[[ax ay] [bx by_]] [cx cy]].
  destruct Heq as (roots & -> & Hrx & Hry).
  cbn [fst snd] in Hpow.
  unfold quadraticPower in Hstart, Hend; cbn [fst snd] in Hstart, Hend.
  eexists. split; [reflexivity |].
  set (g := fun t : R =>
              (ax * t * t + bx * t + cx, ay * t * t + by_ * t + cy)).
  assert (Hg : forall t, g t = (cubic_poly 0 ax bx cx t,
                                cubic_poly 0 ay by_ cy t)).
  { intros t. unfold g, cubic_poly. f_equal; ring. }
  pose proof (extent_ordered g (filter in_unit_half_open roots) pt1 pt3)
    as [Hox Hoy].
  split; [exact Hox |]. split; [exact Hoy |].
  intros t Ht. rewrite Hpow, <- Hg.
  apply extent_contains_curve
    with (ax := 0) (bx := ax) (cx := bx) (dx := cx)
         (ay := 0) (by_ := ay) (cy := by_) (dy := cy); try assumption.
  - rewrite <- Hstart. unfold g. f_equal; ring.
  - rewrite <- Hend. unfold g. f_equal; ring.
  - intros s Hs Hd. unfold cubic_poly' in Hd.
    destruct (Req_dec ax 0) as [-> | Hne].
    + right. unfold cubic_poly. nra.
    + left. destruct Hrx as [-> | Hin]; [contradiction |].
      replace s with (- bx / (ax * 2)); [assumption |].
      field_simplify_eq; [lra | assumption].
  - intros s Hs Hd. unfold cubic_poly' in Hd.
    destruct (Req_dec ay 0) as [-> | Hne].
    + right. unfold cubic_poly. nra.
    + left. destruct Hry as [-> | Hin]; [contradiction |].
      replace s with (- by_ / (ay * 2)); [assumption |].
      field_simplify_eq; [lra | assumption].
Qed.

(** *** The cubic *)

Lemma cubicPointAtT_power (pt1 pt2 pt3 pt4 : point) (t : R) :
  cubicPointAtT pt1 pt2 pt3 pt4 t
  = (let '(a, b, c, d) := calcCubicParameters pt1 pt2 pt3 pt4 in
     (cubic_poly (fst a) (fst b) (fst c) (fst d) t,
      cubic_poly (snd a) (snd b) (snd c) (snd d) t)).
Proof.
  destruct pt1 as [x1 y1], pt2 as [x2 y2], pt3 as [x3 y3], pt4 as [x4 y4].
  unfold cubicPointAtT, calcCubicParameters, cubic_poly.
  cbn [fst snd]. f_equal; decimals; field.
Qed.

(** [calcCubicBounds] never raises; it bounds the end points and the curve
    at the roots in [0, 1) that [solveQuadratic] finds for the derivative
    of either coordinate. *)
Lemma calcCubicBounds_eq (pt1 pt2 pt3 pt4 : point) :
  let '((ax, ay), (bx, by_), (cx, cy), (dx, dy)) :=
    calcCubicParameters pt1 pt2 pt3 pt4 in
  exists xs ys,
    solveQuadratic (ax * 3.0) (bx * 2.0) cx = Ok xs
    /\ solveQuadratic (ay * 3.0) (by_ * 2.0) cy = Ok ys
    /\ calcCubicBounds pt1 pt2 pt3 pt4
       = Ok (calcBounds
               (map (fun t => (ax * t * t * t + bx * t * t + cx * t + dx,
                               ay * t * t * t + by_ * t * t + cy * t + dy))
                    (filter in_unit_half_open (xs ++ ys))
                ++ [pt1; pt4])).
Proof.
  unfold calcCubicBounds.
  destruct (calcCubicParameters pt1 pt2 pt3 pt4)
    as [[[[ax ay] [bx by_]] [cx cy]] [dx dy]].
  destruct (solveQuadratic_total (ax * 3.0) (bx * 2.0) cx) as [xs Hxs].
  destruct (solveQuadratic_total (ay * 3.0) (by_ * 2.0) cy) as [ys Hys].
  exists xs, ys. rewrite Hxs, Hys. cbn [bind].
  now rewrite filter_app.
Qed.

Lemma calcCubicBounds_total (pt1 pt2 pt3 pt4 : point) :
  exists b, calcCubicBounds pt1 pt2 pt3 pt4 = Ok b.
Proof.
  pose proof (calcCubicBounds_eq pt1 pt2 pt3 pt4) as Heq.
  destruct (calcCubicParameters pt1 pt2 pt3 pt4)
    as [[[[ax ay] [bx by_]] [cx cy]] [dx dy]].
  destruct Heq as (xs & ys & _ & _ & ->). eexists. reflexivity.
Qed.

Lemma calcQuadraticBounds_total (pt1 pt2 pt3 : point) :
  exists b, calcQuadraticBounds pt1 pt2 pt3 = Ok b.
Proof.
  destruct (calcQuadraticBounds_contains pt1 pt2 pt3) as (b & Hb & _).
  now exists b.
Qed.

(** The critical points of a coordinate whose derivative is solved
    exactly are among the roots returned, unless the coordinate is
    constant. *)
Lemma derivative_solved_critical (a b c d s : R) (roots : list R) :
  derivative_solved a b ->
  solveQuadratic (a * 3.0) (b * 2.0) c = Ok roots ->
  cubic_poly' a b c s = 0 ->
  In s roots \/ cubic_poly a b c d s = cubic_poly a b c d 0.
Proof.
  unfold cubic_poly'. intros [Ha | [-> [Hb | ->]]] Hroots Hd.
  - left.
    apply (solveQuadratic_complete_quadratic (a * 3.0) (b * 2.0) c);
      try assumption.
    rewrite <- Hd. decimals. field.
  - left. replace (0 * 3.0) with 0 in Hroots by lra.
    apply (solveQuadratic_complete_linear (b * 2.0) c); try assumption.
    rewrite <- Hd. decimals. field.
  - right. unfold cubic_poly. nra.
Qed.

Lemma calcCubicBounds_contains (pt1 pt2 pt3 pt4 : point) :
  exists b,
    calcCubicBounds pt1 pt2 pt3 pt4 = Ok b
    /\ xMin_of b <= xMax_of b /\ yMin_of b <= yMax_of b
    /\ (let '(a, b_, _, _) := calcCubicParameters pt1 pt2 pt3 pt4 in
        derivative_solved (fst a) (fst b_) ->
        derivative_solved (snd a) (snd b_) ->
        forall t, 0 <= t <= 1 ->
                  inside b (cubicPointAtT pt1 pt2 pt3 pt4 t)).
Proof.
  pose proof (calcCubicBounds_eq pt1 pt2 pt3 pt4) as Heq.
  pose proof (cubicPointAtT_power pt1 pt2 pt3 pt4) as Hpow.
  pose proof (cubicPower_start pt1 pt2 pt3 pt4) as Hstart.
  pose proof (cubicPower_end pt1 pt2 pt3 pt4) as Hend.
  destruct (calcCubicParameters pt1 pt2 pt3 pt4)
    as [[[[ax ay] [bx by_]] [cx cy]] [dx dy]].
  destruct Heq as (xs & ys & Hxs & Hys & ->).
  cbn [fst snd] in *.
  unfold cubicPower in Hstart, Hend; cbn [fst snd] in Hstart, Hend.
  eexists. split; [reflexivity |].
  set (g := fun t : R =>
              (ax * t * t * t + bx * t * t + cx * t + dx,
               ay * t * t * t + by_ * t * t + cy * t + dy)).
  assert (Hg : forall t, g t = (cubic_poly ax bx cx dx t,
                                cubic_poly ay by_ cy dy t)).
  { intros t. unfold g, cubic_poly. f_equal; ring. }
  pose proof (extent_ordered g (filter in_unit_half_open (xs ++ ys))
                pt1 pt4) as [Hox Hoy].
  split; [exact Hox |]. split; [exact Hoy |].
  intros Hsx Hsy t Ht. rewrite Hpow, <- Hg.
  apply extent_contains_curve
    with (ax := ax) (bx := bx) (cx := cx) (dx := dx)
         (ay := ay) (by_ := by_) (cy := cy) (dy := dy); try assumption.
  - rewrite <- Hstart. unfold g. f_equal; ring.
  - rewrite <- Hend. unfold g. f_equal; ring.
  - intros s _ Hd.
    destruct (derivative_solved_critical ax bx cx dx s xs Hsx Hxs Hd)
      as [Hin | Hconst]; [left | now right].
    apply in_or_app. now left.
  - intros s _ Hd.
    destruct (derivative_solved_critical ay by_ cy dy s ys Hsy Hys Hd)
      as [Hin | Hconst]; [left | now right].
    apply in_or_app. now right.
Qed.

(** A cubic whose x-coordinate is the tiny parabola [3e-11 t (1 - t)]: its
    bounds are the single point (0, 0), although the curve reaches
    x = 7.5e-12 at t = 0.5. *)
Lemma calcCubicBounds_tiny_arch :
  calcCubicBounds (0, 0) (1e-11, 0) (1e-11, 0) (0, 0) = Ok (0, 0, 0, 0).
Proof.
  unfold calcCubicBounds, calcCubicParameters.
  rewrite (solveQuadratic_degenerate _ _ _);
    [| eval_float; unfold epsilon; lra ..].
  rewrite (solveQuadratic_degenerate _ _ _);
    [| eval_float; unfold epsilon; lra ..].
  cbn [bind filter app map calcBounds fold_left fst snd].
  eval_float. reflexivity.
Qed.

(** The claim C5 as it is stated fails for this cubic: its bounds are
    (0, 0, 0, 0), and its point at t = 0.5 is not inside. *)
Lemma calcCubicBounds_misses_tiny_arch :
  calcCubicBounds (0, 0) (1e-11, 0) (1e-11, 0) (0, 0) = Ok (0, 0, 0, 0)
  /\ 0 <= 0.5 <= 1
  /\ ~ inside (0, 0, 0, 0)
         (cubicPointAtT (0, 0) (1e-11, 0) (1e-11, 0) (0, 0) 0.5).
Proof.
  split; [exact calcCubicBounds_tiny_arch |]. split; [lra |].
  unfold inside, cubicPointAtT.
  cbn [xMin_of yMin_of xMax_of yMax_of fst snd]. lra.
Qed.

(** C5, amended.  [calcQuadraticBounds] and [calcCubicBounds] return a
    rectangle with xMin <= xMax and yMin <= yMax.  The rectangle of a
    quadratic contains the point of the segment at every t in [0, 1].  The
    rectangle of a cubic does so when, on each axis, the derivative of the
    coordinate is solved exactly by [solveQuadratic]: with A and B the
    power-basis coefficients of t^3 and t^2, either |3 A| >= epsilon, or
    A = 0 and (|2 B| >= epsilon or B = 0). *)
Theorem bounds_contain_segment :
  (forall pt1 pt2 pt3 : point,
      exists b,
        calcQuadraticBounds pt1 pt2 pt3 = Ok b
        /\ xMin_of b <= xMax_of b /\ yMin_of b <= yMax_of b
        /\ forall t, 0 <= t <= 1 ->
                     inside b (quadraticPointAtT pt1 pt2 pt3 t))
  /\ (forall pt1 pt2 pt3 pt4 : point,
         exists b,
           calcCubicBounds pt1 pt2 pt3 pt4 = Ok b
           /\ xMin_of b <= xMax_of b /\ yMin_of b <= yMax_of b
           /\ (let '(a, b_, _, _) := calcCubicParameters pt1 pt2 pt3 pt4 in
               derivative_solved (fst a) (fst b_) ->
               derivative_solved (snd a) (snd b_) ->
               forall t, 0 <= t <= 1 ->
                         inside b (cubicPointAtT pt1 pt2 pt3 pt4 t))).
Proof.
  split.
  - exact calcQuadraticBounds_contains.
  - exact calcCubicBounds_contains.
Qed.

Lemma bounds_contain_segment_witness :
  (exists b,
      calcQuadraticBounds (0, 0) (50, 100) (100, 0) = Ok b
      /\ inside b (quadraticPointAtT (0, 0) (50, 100) (100, 0) 0.5))
  /\ (exists b,
         calcCubicBounds (0, 0) (25, 100) (75, 100) (100, 0) = Ok b
         /\ inside b
              (cubicPointAtT (0, 0) (25, 100) (75, 100) (100, 0) 0.5)).
Proof.
  destruct bounds_contain_segment as [Hq Hc]. split.
  - destruct (Hq (0, 0) (50, 100) (100, 0)) as (b & Hb & _ & _ & Hin).
    exists b. split; [exact Hb |]. apply Hin. lra.
  - destruct (Hc (0, 0) (25, 100) (75, 100) (100, 0))
      as (b & Hb & _ & _ & Hin).
    exists b. split; [exact Hb |].
    cbv beta iota zeta delta [calcCubicParameters fst snd] in Hin.
    apply Hin.
    + left. eval_float. unfold epsilon. lra.
    + right. split; [lra |]. left. eval_float. unfold epsilon. lra.
    + lra.
Defined.

(** ** The cubic solver *)

(** *** [sorted] *)

Lemma insert_perm (x : R) (l : list R) : Permutation (insert x l) (x :: l).
Proof.
  induction l as [| y l IH]; cbn [insert].
  - apply Permutation_refl.
  - destruct (Rleb x y).
    + apply Permutation_refl.
    + apply perm_trans with (y :: x :: l).
      * now apply perm_skip.
      * apply perm_swap.
Qed.

Lemma sorted_perm (l : list R) : Permutation (sorted l) l.
Proof.
  induction l as [| x l IH]; cbn [sorted fold_right].
  - apply perm_nil.
  - apply perm_trans with (x :: sorted l).
    + apply insert_perm.
    + now apply perm_skip.
Qed.

Lemma insert_Sorted (x : R) (l : list R) :
  Sorted Rle l -> Sorted Rle (insert x l).
Proof.
  induction l as [| y l IH]; intros Hs; cbn [insert].
  - repeat constructor.
  - destruct (Rleb_spec x y) as [Hxy | Hxy].
    + constructor; [assumption | now constructor].
    + inversion Hs as [| ? ? Hl Hhd]; subst.
      constructor; [now apply IH |].
      destruct l as [| z l]; cbn [insert].
      * constructor. lra.
      * destruct (Rleb x z); constructor; [lra |].
        now inversion Hhd.
Qed.

Lemma sorted_Sorted (l : list R) : Sorted Rle (sorted l).
Proof.
  induction l as [| x l IH]; cbn [sorted fold_right].
  - constructor.
  - now apply insert_Sorted.
Qed.

(** Sorting three numbers gives three numbers, in ascending order. *)
Lemma sorted3 (x y z : R) :
  exists s0 s1 s2,
    sorted [x; y; z] = [s0; s1; s2]
    /\ s0 <= s1 <= s2
    /\ Permutation [s0; s1; s2] [x; y; z].
Proof.
  pose proof (sorted_perm [x; y; z]) as Hperm.
  pose proof (sorted_Sorted [x; y; z]) as Hsorted.
  pose proof (Permutation_length Hperm) as Hlen.
  destruct (sorted [x; y; z]) as [| s0 [| s1 [| s2 [| s3 l]]]];
    try discriminate.
  exists s0, s1, s2. split; [reflexivity |]. split; [| assumption].
  inversion Hsorted as [| ? ? Hs' Hhd0]; subst.
  inversion Hs' as [| ? ? _ Hhd1]; subst.
  inversion Hhd0; subst. inversion Hhd1; subst. lra.
Qed.

(** *** [round] is monotone *)

Lemma Int_part_bounds (x : R) :
  IZR (Int_part x) <= x < IZR (Int_part x) + 1.
Proof. destruct (base_Int_part x). lra. Qed.

Lemma Int_part_le (x y : R) : x <= y -> (Int_part x <= Int_part y)%Z.
Proof.
  intros Hxy.
  pose proof (Int_part_bounds x). pose proof (Int_part_bounds y).
  assert (Hlt : IZR (Int_part x) < IZR (Int_part y + 1))
    by (rewrite plus_IZR; lra).
  apply lt_IZR in Hlt. lia.
Qed.

Lemma round_half_even_range (x : R) :
  (Int_part x <= round_half_even x <= Int_part x + 1)%Z.
Proof.
  unfold round_half_even.
  destruct (Rltb _ _); [lia |].
  destruct (Rltb _ _); [lia |].
  destruct (Z.even _); lia.
Qed.

Lemma round_half_even_le (x y : R) :
  x <= y -> (round_half_even x <= round_half_even y)%Z.
Proof.
  intros Hxy.
  pose proof (Int_part_le x y Hxy) as Hfloor.
  destruct (Z.eq_dec (Int_part x) (Int_part y)) as [Heq | Hne].
  - unfold round_half_even. rewrite <- Heq.
    destruct (Rltb_spec (x - IZR (Int_part x)) (1 / 2)) as [Hx1 | Hx1].
    + destruct (Rltb _ _); [lia |].
      destruct (Rltb _ _); [lia |].
      destruct (Z.even _); lia.
    + rewrite (Rltb_false (y - IZR (Int_part x))) by lra.
      destruct (Rltb_spec (1 / 2) (x - IZR (Int_part x))) as [Hx2 | Hx2].
      * rewrite (Rltb_true (1 / 2)) by lra. lia.
      * destruct (Rltb (1 / 2) (y - IZR (Int_part x)));
          destruct (Z.even (Int_part x)); lia.
  - pose proof (round_half_even_range x).
    pose proof (round_half_even_range y). lia.
Qed.

Lemma round_le (x y : R) (ndigits : nat) :
  x <= y -> round x ndigits <= round y ndigits.
Proof.
  intros Hxy. unfold round.
  assert (Hpow : 0 < 10 ^ ndigits) by (apply pow_lt; lra).
  apply Rmult_le_compat_r; [left; now apply Rinv_0_lt_compat |].
  apply IZR_le, round_half_even_le.
  apply Rmult_le_compat_r; lra.
Qed.

(** *** The branches of [solveCubic] *)

(** [solveCubic] for a leading coefficient that is not small, with the
    local variables of the source written as the named quantities. *)
Lemma solveCubic_eq (a b c d : R) :
  epsilon <= Rabs a ->
  solveCubic a b c d =
    let a1 := b / a in
    let Q := cubic_Q a b c in
    let R_ := cubic_R a b c d in
    let R2 := cubic_R2 a b c d in
    let Q3 := cubic_Q3 a b c in
    let R2_Q3 := R2 - Q3 in
    if Reqb R2 0 && Reqb Q3 0 then
      let x := round (- a1 / 3.0) epsilonDigits in
      Ok [x; x; x]
    else if Rleb R2_Q3 (epsilon * 0.5) then
      sQ3 <- math_sqrt Q3 ;;
      q <- truediv R_ sQ3 ;;
      theta <- math_acos (Rmax (Rmin q 1.0) (- 1.0)) ;;
      sQ <- math_sqrt Q ;;
      let rQ2 := - 2.0 * sQ in
      let a1_3 := a1 / 3.0 in
      let x0 := rQ2 * cos (theta / 3.0) - a1_3 in
      let x1 := rQ2 * cos ((theta + 2.0 * PI) / 3.0) - a1_3 in
      let x2 := rQ2 * cos ((theta + 4.0 * PI) / 3.0) - a1_3 in
      '(x0, x1, x2) <- unpack3 (sorted [x0; x1; x2]) ;;
      if Rltb (x1 - x0) epsilon && Rltb (x2 - x1) epsilon then
        let x := round ((x0 + x1 + x2) / 3) epsilonDigits in
        Ok [x; x; x]
      else if Rltb (x1 - x0) epsilon then
        let x := round ((x0 + x1) / 2) epsilonDigits in
        let x2 := round x2 epsilonDigits in
        Ok [x; x; x2]
      else if Rltb (x2 - x1) epsilon then
        let x0 := round x0 epsilonDigits in
        let x := round ((x1 + x2) / 2) epsilonDigits in
        Ok [x0; x; x]
      else
        let x0 := round x0 epsilonDigits in
        let x1 := round x1 epsilonDigits in
        let x2 := round x2 epsilonDigits in
        Ok [x0; x1; x2]
    else
      s <- math_sqrt R2_Q3 ;;
      x <- pow_float (s + Rabs R_) (1 / 3.0) ;;
      qx <- truediv Q x ;;
      let x := x + qx in
      let x := if Rleb 0.0 R_ then - x else x in
      let x := round (x - a1 / 3.0) epsilonDigits in
      Ok [x].
Proof.
  intros Ha. pose proof (Rabs_ge_epsilon_neq0 a Ha) as Hne.
  unfold solveCubic.
  rewrite Rltb_false by assumption.
  rewrite !truediv_ok by assumption.
  reflexivity.
Qed.

Lemma cubic_R2_cases (a b c d : R) :
  cubic_R2 a b c d = 0 \/ epsilon <= cubic_R2 a b c d.
Proof.
  unfold cubic_R2. cbv zeta.
  destruct (Rltb_spec (cubic_R a b c d * cubic_R a b c d) epsilon);
    [now left | right; lra].
Qed.

Lemma cubic_Q3_cases (a b c : R) :
  cubic_Q3 a b c = 0
  \/ (epsilon <= Rabs (cubic_Q3 a b c)
      /\ cubic_Q3 a b c = cubic_Q a b c * cubic_Q a b c * cubic_Q a b c).
Proof.
  unfold cubic_Q3. cbv zeta.
  destruct (Rltb_spec
              (Rabs (cubic_Q a b c * cubic_Q a b c * cubic_Q a b c)) epsilon);
    [now left | right; split; [lra | reflexivity]].
Qed.

(** In the branch of three real roots Q^3, and so Q, is positive: the
    square roots and the division of that branch are defined. *)
Lemma three_real_roots_Q_pos (a b c d : R) :
  ~ (cubic_R2 a b c d = 0 /\ cubic_Q3 a b c = 0) ->
  cubic_R2 a b c d - cubic_Q3 a b c <= epsilon / 2 ->
  0 < cubic_Q3 a b c /\ 0 < cubic_Q a b c.
Proof.
  intros Hnot Hle. pose proof epsilon_pos as Heps.
  assert (HQ3 : 0 < cubic_Q3 a b c
                /\ cubic_Q3 a b c
                   = cubic_Q a b c * cubic_Q a b c * cubic_Q a b c).
  { destruct (cubic_R2_cases a b c d) as [HR | HR];
      destruct (cubic_Q3_cases a b c) as [HQ | [HQ HQeq]].
    - exfalso. auto.
    - split; [| assumption].
      unfold Rabs in HQ. destruct (Rcase_abs (cubic_Q3 a b c)); lra.
    - lra.
    - split; [| assumption].
      unfold Rabs in HQ. destruct (Rcase_abs (cubic_Q3 a b c)); lra. }
  destruct HQ3 as [Hpos Heq]. split; [assumption |].
  destruct (Rlt_le_dec 0 (cubic_Q a b c)) as [HQ | HQ]; [assumption |].
  exfalso. rewrite Heq in Hpos.
  assert (0 <= cubic_Q a b c * cubic_Q a b c) by nra. nra.
Qed.

Lemma clamp_range (q : R) : -1 <= Rmax (Rmin q 1.0) (- 1.0) <= 1.
Proof.
  pose proof (Rmax_r (Rmin q 1.0) (- 1.0)).
  pose proof (Rmin_r q 1.0).
  assert (Rmax (Rmin q 1.0) (- 1.0) <= 1.0)
    by (apply Rmax_lub; lra).
  lra.
Qed.

Lemma solveCubic_triple_root (a b c d : R) :
  epsilon <= Rabs a ->
  cubic_R2 a b c d = 0 -> cubic_Q3 a b c = 0 ->
  solveCubic a b c d =
    Ok [round (- (b / a) / 3) epsilonDigits;
        round (- (b / a) / 3) epsilonDigits;
        round (- (b / a) / 3) epsilonDigits].
Proof.
  intros Ha HR HQ. rewrite solveCubic_eq by assumption. cbv zeta.
  rewrite HR, HQ, Reqb_true by reflexivity. cbn [andb].
  replace (- (b / a) / 3.0) with (- (b / a) / 3) by lra. reflexivity.
Qed.

Lemma solveCubic_three_real_roots (a b c d : R) :
  epsilon <= Rabs a ->
  ~ (cubic_R2 a b c d = 0 /\ cubic_Q3 a b c = 0) ->
  cubic_R2 a b c d - cubic_Q3 a b c <= epsilon / 2 ->
  exists s0 s1 s2 r0 r1 r2,
    Permutation [s0; s1; s2] (cubic_trig_roots a b c d)
    /\ s0 <= s1 <= s2
    /\ solveCubic a b c d = Ok [r0; r1; r2]
    /\ r0 <= r1 <= r2
    /\ merged_and_rounded s0 s1 s2 r0 r1 r2.
Proof.
  intros Ha Hnot Hle.
  destruct (three_real_roots_Q_pos a b c d Hnot Hle) as [HQ3 HQ].
  rewrite solveCubic_eq by assumption. cbv zeta.
  assert (Hbranch : Reqb (cubic_R2 a b c d) 0 && Reqb (cubic_Q3 a b c) 0
                    = false).
  { rewrite (Reqb_false (cubic_Q3 a b c)) by lra.
    apply Bool.andb_false_r. }
  rewrite Hbranch, Rleb_true by lra.
  rewrite math_sqrt_ok by lra. cbn [bind].
  rewrite truediv_ok
    by (pose proof (sqrt_lt_R0 _ HQ3); lra).
  cbn [bind]. rewrite math_acos_ok by apply clamp_range. cbn [bind].
  rewrite math_sqrt_ok by lra. cbn [bind].
  match goal with
  | |- context [sorted [?x; ?y; ?z]] =>
      destruct (sorted3 x y z) as (s0 & s1 & s2 & -> & Hs & Hperm)
  end.
  cbn [unpack3 bind].
  exists s0, s1, s2.
  assert (H3 : (s0 + s1 + s2) / 3 <= (s0 + s1 + s2) / 3) by lra.
  destruct (Rltb_spec (s1 - s0) epsilon) as [H10 | H10];
    destruct (Rltb_spec (s2 - s1) epsilon) as [H21 | H21]; cbn [andb];
    do 3 eexists;
    (split; [exact Hperm |]); (split; [exact Hs |]);
    (split; [reflexivity |]).
  - split; [lra |]. left. auto.
  - split; [split; [lra | apply round_le; lra] |].
    right; left. auto.
  - split; [split; [apply round_le; lra | lra] |].
    right; right; left. auto.
  - split; [split; apply round_le; lra |].
    right; right; right. auto.
Qed.

(** C3.  For a leading coefficient that is not small, [solveCubic] returns
    in the triple-root case (R^2 and Q^3 both set to zero) the root
    [-a1/3], rounded to 6 decimal digits, three times; and in the case of
    three real roots (R^2 and Q^3 not both zero, R^2 - Q^3 <= epsilon/2)
    exactly three roots in ascending order: the three trigonometric roots
    sorted, adjacent ones closer than epsilon replaced by their average,
    and each rounded to 6 decimal digits. *)
Theorem solveCubic_real_roots (a b c d : R) :
  epsilon <= Rabs a ->
  (cubic_R2 a b c d = 0 /\ cubic_Q3 a b c = 0 ->
   solveCubic a b c d =
     Ok [round (- (b / a) / 3) epsilonDigits;
         round (- (b / a) / 3) epsilonDigits;
         round (- (b / a) / 3) epsilonDigits])
  /\ (~ (cubic_R2 a b c d = 0 /\ cubic_Q3 a b c = 0) ->
      cubic_R2 a b c d - cubic_Q3 a b c <= epsilon / 2 ->
      exists s0 s1 s2 r0 r1 r2,
        Permutation [s0; s1; s2] (cubic_trig_roots a b c d)
        /\ s0 <= s1 <= s2
        /\ solveCubic a b c d = Ok [r0; r1; r2]
        /\ r0 <= r1 <= r2
        /\ merged_and_rounded s0 s1 s2 r0 r1 r2).
Proof.
  intros Ha. split.
  - intros [HR HQ]. now apply solveCubic_triple_root.
  - intros Hnot Hle. now apply solveCubic_three_real_roots.
Qed.

Lemma solveCubic_real_roots_witness :
  solveCubic 1 0 0 0 =
    Ok [round (- (0 / 1) / 3) epsilonDigits;
        round (- (0 / 1) / 3) epsilonDigits;
        round (- (0 / 1) / 3) epsilonDigits]
  /\ exists s0 s1 s2 r0 r1 r2,
       Permutation [s0; s1; s2] (cubic_trig_roots 1 0 (- 3) 0)
       /\ s0 <= s1 <= s2
       /\ solveCubic 1 0 (- 3) 0 = Ok [r0; r1; r2]
       /\ r0 <= r1 <= r2
       /\ merged_and_rounded s0 s1 s2 r0 r1 r2.
Proof.
  assert (H1 : epsilon <= Rabs 1)
    by (rewrite Rabs_R1; unfold epsilon; lra).
  assert (HR0 : cubic_R2 1 0 0 0 = 0).
  { unfold cubic_R2, cubic_R. cbv zeta.
    rewrite Rltb_true; [reflexivity | unfold epsilon; lra]. }
  assert (HQ0 : cubic_Q3 1 0 0 = 0).
  { unfold cubic_Q3, cubic_Q. cbv zeta.
    rewrite Rltb_true; [reflexivity |].
    rewrite Rabs_pos_eq by lra. unfold epsilon. lra. }
  assert (HR1 : cubic_R2 1 0 (- 3) 0 = 0).
  { unfold cubic_R2, cubic_R. cbv zeta.
    rewrite Rltb_true; [reflexivity | unfold epsilon; lra]. }
  assert (HQ1 : cubic_Q3 1 0 (- 3) = 1).
  { unfold cubic_Q3, cubic_Q. cbv zeta.
    rewrite Rltb_false; [lra |].
    rewrite Rabs_pos_eq by lra. unfold epsilon. lra. }
  split.
  - destruct (solveCubic_real_roots 1 0 0 0 H1) as [Htriple _].
    apply Htriple. now split.
  - destruct (solveCubic_real_roots 1 0 (- 3) 0 H1) as [_ Hthree].
    apply Hthree.
    + rewrite HQ1. intros [_ Habs]. lra.
    + rewrite HR1, HQ1. unfold epsilon. lra.
Defined.

(** [solveCubic] never raises: in each branch the square roots, the
    arc cosine, the cube root and the divisions are defined. *)
Lemma solveCubic_total (a b c d : R) :
  exists roots, solveCubic a b c d = Ok roots.
Proof.
  destruct (Rlt_le_dec (Rabs a) epsilon) as [Ha | Ha].
  { unfold solveCubic. rewrite Rltb_true by assumption.
    apply solveQuadratic_total. }
  destruct (Req_dec (cubic_R2 a b c d) 0) as [HR | HR];
    [destruct (Req_dec (cubic_Q3 a b c) 0) as [HQ | HQ] |].
  - eexists. now apply solveCubic_triple_root.
  - destruct (Rle_lt_dec (cubic_R2 a b c d - cubic_Q3 a b c) (epsilon / 2))
      as [Hle | Hgt].
    + destruct (solveCubic_three_real_roots a b c d Ha)
        as (s0 & s1 & s2 & r0 & r1 & r2 & _ & _ & -> & _);
        [tauto | assumption | eexists; reflexivity].
    + rewrite solveCubic_eq by assumption. cbv zeta.
      rewrite (Reqb_false (cubic_Q3 a b c)), Bool.andb_false_r by assumption.
      rewrite Rleb_false by lra.
      pose proof epsilon_pos.
      rewrite math_sqrt_ok by lra. cbn [bind].
      assert (Hbase : 0 < sqrt (cubic_R2 a b c d - cubic_Q3 a b c)
                          + Rabs (cubic_R a b c d)).
      { pose proof (sqrt_lt_R0 (cubic_R2 a b c d - cubic_Q3 a b c)).
        pose proof (Rabs_pos (cubic_R a b c d)). lra. }
      unfold pow_float.
      rewrite Rltb_false, Reqb_false by lra. cbn [bind].
      rewrite truediv_ok; [eexists; reflexivity |].
      unfold Rpower. pose proof (exp_pos
        (1 / 3.0 * ln (sqrt (cubic_R2 a b c d - cubic_Q3 a b c)
                       + Rabs (cubic_R a b c d)))). lra.
  - destruct (Rle_lt_dec (cubic_R2 a b c d - cubic_Q3 a b c) (epsilon / 2))
      as [Hle | Hgt].
    + destruct (solveCubic_three_real_roots a b c d Ha)
        as (s0 & s1 & s2 & r0 & r1 & r2 & _ & _ & -> & _);
        [tauto | assumption | eexists; reflexivity].
    + rewrite solveCubic_eq by assumption. cbv zeta.
      rewrite (Reqb_false (cubic_R2 a b c d)) by assumption. cbn [andb].
      rewrite Rleb_false by lra.
      pose proof epsilon_pos.
      rewrite math_sqrt_ok by lra. cbn [bind].
      assert (Hbase : 0 < sqrt (cubic_R2 a b c d - cubic_Q3 a b c)
                          + Rabs (cubic_R a b c d)).
      { pose proof (sqrt_lt_R0 (cubic_R2 a b c d - cubic_Q3 a b c)).
        pose proof (Rabs_pos (cubic_R a b c d)). lra. }
      unfold pow_float.
      rewrite Rltb_false, Reqb_false by lra. cbn [bind].
      rewrite truediv_ok; [eexists; reflexivity |].
      unfold Rpower. pose proof (exp_pos
        (1 / 3.0 * ln (sqrt (cubic_R2 a b c d - cubic_Q3 a b c)
                       + Rabs (cubic_R a b c d)))). lra.
Qed.

(** ** Arc length *)

Lemma Cabs_nonneg (z : complex) : 0 <= Cabs z.
Proof. apply sqrt_pos. Qed.


Lemma Cabs_sqr (z : complex) :
  Cabs z * Cabs z = real z * real z + imag z * imag z.
Proof. unfold Cabs. apply sqrt_sqrt. nra. Qed.


(** *** The quadratic *)

Lemma _intSecAtan_ok (x : R) : exists v, _intSecAtan x = Ok v.
Proof.
  unfold _intSecAtan. rewrite math_sqrt_ok by nra. eexists. reflexivity.
Qed.



(** *** The cubic *)

(** Whatever the subdivision returns is a sum of non-negative terms; over
    the real numbers the only exception it can raise is RecursionError. *)
Lemma _calcCubicArcLengthCRecurse_nonneg (depth : nat) (mult : R)
    (p0 p1 p2 p3 : complex) :
  (exists len, _calcCubicArcLengthCRecurse depth mult p0 p1 p2 p3 = Ok len
               /\ 0 <= len)
  \/ _calcCubicArcLengthCRecurse depth mult p0 p1 p2 p3
     = Raise RecursionError.
Proof.
  revert p0 p1 p2 p3.
  induction depth as [| depth IH]; intros p0 p1 p2 p3;
    cbn [_calcCubicArcLengthCRecurse].
  - now right.
  - destruct (Rleb _ _).
    + left. eexists. split; [reflexivity |].
      pose proof (Cabs_nonneg (p0 - p3)%C).
      pose proof (Cabs_nonneg (p0 - p1)%C).
      pose proof (Cabs_nonneg (p1 - p2)%C).
      pose proof (Cabs_nonneg (p2 - p3)%C).
      lra.
    + destruct (_split_cubic_into_two p0 p1 p2 p3)
        as [[[[a0 a1] a2] a3] [[[b0 b1] b2] b3]].
      destruct (IH a0 a1 a2 a3) as [(l1 & -> & Hl1) | ->]; [| now right].
      cbn [bind].
      destruct (IH b0 b1 b2 b3) as [(l2 & -> & Hl2) | ->]; [| now right].
      cbn [bind]. left. eexists. split; [reflexivity | lra].
Qed.





(** *** Moderate control points and the range of the doubles

    In CPython [abs] of a complex number and the power [x ** 2] raise
    OverflowError when the result exceeds the largest double.  For
    moderate control points no modulus and no square that the two arc
    length routines compute comes near it. *)

Lemma Rabs_le_bounds (x b : R) : Rabs x <= b -> - b <= x <= b.
Proof. unfold Rabs. destruct (Rcase_abs x); lra. Qed.

Lemma Cabs_le_sum (z : complex) : Cabs z <= Rabs (real z) + Rabs (imag z).
Proof.
  pose proof (Rabs_pos (real z)) as Hr. pose proof (Rabs_pos (imag z)) as Hi.
  apply Rsqr_incr_0_var; [| lra].
  unfold Rsqr. rewrite Cabs_sqr.
  assert (Hr2 : Rabs (real z) * Rabs (real z) = real z * real z)
    by (rewrite <- Rabs_mult; apply Rabs_pos_eq; nra).
  assert (Hi2 : Rabs (imag z) * Rabs (imag z) = imag z * imag z)
    by (rewrite <- Rabs_mult; apply Rabs_pos_eq; nra).
  nra.
Qed.

Lemma moderate_modulus_in_range (z w : complex) :
  moderateC z -> moderateC w -> Cabs (z - w)%C <= float_max.
Proof.
  intros [Hzr Hzi] [Hwr Hwi].
  apply Rabs_le_bounds in Hzr, Hzi, Hwr, Hwi.
  pose proof (Cabs_le_sum (z - w)%C) as Hsum.
  assert (Hr : Rabs (real (z - w)%C) <= 2e70)
    by (unfold Csub; cbn [real imag]; apply Rabs_le; lra).
  assert (Hi : Rabs (imag (z - w)%C) <= 2e70)
    by (unfold Csub; cbn [real imag]; apply Rabs_le; lra).
  unfold float_max. lra.
Qed.

(** The subdivision of a cubic with moderate control points sees moderate
    control points only: those of the halves are weighted means of those
    of the curve. *)
Lemma _split_cubic_into_two_moderate (p0 p1 p2 p3 : complex) :
  moderateC p0 -> moderateC p1 -> moderateC p2 -> moderateC p3 ->
  let '((a0, a1, a2, a3), (b0, b1, b2, b3)) :=
    _split_cubic_into_two p0 p1 p2 p3 in
  (moderateC a0 /\ moderateC a1 /\ moderateC a2 /\ moderateC a3)
  /\ (moderateC b0 /\ moderateC b1 /\ moderateC b2 /\ moderateC b3).
Proof.
  intros [H0r H0i] [H1r H1i] [H2r H2i] [H3r H3i].
  apply Rabs_le_bounds in H0r, H0i, H1r, H1i, H2r, H2i, H3r, H3i.
  destruct p0 as [x0 y0], p1 as [x1 y1], p2 as [x2 y2], p3 as [x3 y3].
  unfold _split_cubic_into_two, moderateC, Cadd, Csub, Cmul, Cfloat.
  cbn [real imag] in *.
  repeat split; apply Rabs_le; lra.
Qed.

(** The moduli that [calcQuadraticArcLengthC] computes and the two
    squares that [_intSecAtan] computes for it, for a quadratic with
    moderate control points. *)
Lemma calcQuadraticArcLengthC_in_range (pt1 pt2 pt3 : complex) :
  moderateC pt1 -> moderateC pt2 -> moderateC pt3 ->
  let d0 := (pt2 - pt1)%C in
  let d1 := (pt3 - pt2)%C in
  let d := (d1 - d0)%C in
  let n := (d * j1)%C in
  (Cabs n <= float_max /\ Cabs (pt3 - pt1)%C <= float_max
   /\ Cabs d0 <= float_max /\ Cabs d1 <= float_max)
  /\ (epsilon <= Rabs (_dot n d0) ->
      (_dot d d1 / _dot n d0) ^ 2 <= float_max
      /\ (_dot d d0 / _dot n d0) ^ 2 <= float_max).
Proof.
  intros M1 M2 M3 d0 d1 d n. split.
  - repeat split; try (now apply moderate_modulus_in_range).
    destruct M1 as [H1r H1i], M2 as [H2r H2i], M3 as [H3r H3i].
    apply Rabs_le_bounds in H1r, H1i, H2r, H2i, H3r, H3i.
    pose proof (Cabs_le_sum n) as Hsum.
    assert (Hr : Rabs (real n) <= 4e70)
      by (unfold n, d, d1, d0, Cmul, Csub, j1; cbn [real imag];
          apply Rabs_le; lra).
    assert (Hi : Rabs (imag n) <= 4e70)
      by (unfold n, d, d1, d0, Cmul, Csub, j1; cbn [real imag];
          apply Rabs_le; lra).
    unfold float_max. lra.
  - intros Horig.
    destruct M1 as [H1r H1i], M2 as [H2r H2i], M3 as [H3r H3i].
    apply Rabs_le_bounds in H1r, H1i, H2r, H2i, H3r, H3i.
    pose proof epsilon_pos as Heps.
    assert (Hsq : forall D : R,
               Rabs D <= 16e140 -> (D / _dot n d0) ^ 2 <= float_max).
    { intros D HD.
      set (q := Rabs D * / Rabs (_dot n d0)).
      assert (Hinv : / Rabs (_dot n d0) <= / epsilon)
        by (apply Rinv_le_contravar; assumption).
      assert (Hinv0 : 0 < / Rabs (_dot n d0))
        by (apply Rinv_0_lt_compat; lra).
      assert (Hq : 0 <= q <= 16e140 * / epsilon).
      { unfold q. pose proof (Rabs_pos D). split; [nra |].
        apply Rmult_le_compat; lra. }
      replace ((D / _dot n d0) ^ 2) with (q * q).
      - assert (Hqq : q * q <= 16e140 * / epsilon * (16e140 * / epsilon))
          by (apply Rmult_le_compat; lra).
        unfold epsilon, float_max in *. lra.
      - unfold q. rewrite <- Rabs_inv, <- Rabs_mult, <- Rabs_mult.
        rewrite Rabs_pos_eq by nra. unfold Rdiv. ring. }
    destruct pt1 as [x1 y1], pt2 as [x2 y2], pt3 as [x3 y3].
    cbn [real imag] in *.
    split; apply Hsq; unfold d, d1, d0, _dot, Cmul, Csub, conjugate;
      cbn [real imag]; apply Rabs_le; nra.
Qed.




(** ** Curve/line intersection *)

Lemma isclose_false_neq (a b : R) : isclose a b = false -> a <> b.
Proof.
  intros Hclose ->. unfold isclose in Hclose.
  rewrite Rleb_true in Hclose; [discriminate |].
  replace (b - b) with 0 by ring. rewrite Rabs_R0. apply Rmax_r.
Qed.

(** [_line_t_of_pt] never raises: it divides by the extent of the line on
    an axis only when the end points are not close on that axis. *)
Lemma _line_t_of_pt_total (s e p : point) :
  exists t, _line_t_of_pt s e p = Ok t.
Proof.
  destruct s as [sx sy], e as [ex ey], p as [px py].
  unfold _line_t_of_pt.
  destruct (isclose sx ex) eqn:Hx; cbn [negb].
  - destruct (isclose sy ey) eqn:Hy; cbn [negb].
    + eexists. reflexivity.
    + apply isclose_false_neq in Hy.
      rewrite truediv_ok by lra. eexists. reflexivity.
  - apply isclose_false_neq in Hx.
    rewrite truediv_ok by lra. eexists. reflexivity.
Qed.

Lemma sorted_filter_in_unit_closed (l : list R) (t : R) :
  In t (sorted (filter in_unit_closed l)) -> 0 <= t <= 1.
Proof.
  intros Hin.
  apply (Permutation_in t (sorted_perm (filter in_unit_closed l))) in Hin.
  apply filter_In in Hin as [_ Hunit].
  unfold in_unit_closed in Hunit.
  apply Bool.andb_true_iff in Hunit as [H0 H1].
  destruct (Rleb_spec 0.0 t); [| discriminate].
  destruct (Rleb_spec t 1); [| discriminate]. lra.
Qed.

Section CurveLine.

Context `{TransformLib}.

Lemma _curve_line_intersections_t_quadratic (p0 p1 p2 s e : point) :
  _curve_line_intersections_t [p0; p1; p2] [s; e] = Raise TypeError.
Proof. reflexivity. Qed.

(** For a cubic the parameters found are returned, each in [0, 1]. *)
Lemma _curve_line_intersections_t_cubic (p0 p1 p2 p3 s e : point) :
  exists ts,
    _curve_line_intersections_t [p0; p1; p2; p3] [s; e] = Ok ts
    /\ Forall (fun t => 0 <= t <= 1) ts.
Proof.
  unfold _curve_line_intersections_t, _alignment_transformation.
  cbn [first last rev app bind length Nat.eqb transformPoints map].
  unfold calcCubicParameters_star. cbn [star4 bind].
  destruct (calcCubicParameters _ _ _ _) as [[[a b] c] d].
  cbn [bind unpack4].
  destruct (solveCubic_total (fst a) (fst b) (fst c) (fst d)) as [xs ->].
  destruct (solveCubic_total (snd a) (snd b) (snd c) (snd d)) as [ys ->].
  cbn [bind]. eexists. split; [reflexivity |].
  apply Forall_forall. intros t. apply sorted_filter_in_unit_closed.
Qed.

Lemma curveLineIntersections_cubic (p0 p1 p2 p3 s e : point) :
  exists res,
    curveLineIntersections [p0; p1; p2; p3] [s; e] = Ok res
    /\ Forall (fun i => pt i = cubicPointAtT p0 p1 p2 p3 (t1 i)
                        /\ 0 <= t1 i <= 1) res.
Proof.
  unfold curveLineIntersections. cbn [length Nat.eqb bind].
  destruct (_curve_line_intersections_t_cubic p0 p1 p2 p3 s e)
    as (ts & -> & Hts).
  cbn [bind]. induction Hts as [| t ts Ht _ IH]; cbn [for_each star4 bind].
  - eexists. split; [reflexivity | constructor].
  - cbn [star2 bind].
    destruct (_line_t_of_pt_total s e (cubicPointAtT p0 p1 p2 p3 t))
      as [t2' ->].
    cbn [bind]. destruct IH as (res & Hres & Hall).
    cbn [star4 star2 bind] in Hres. rewrite Hres.
    eexists. split; [reflexivity |].
    constructor; [cbn [pt t1]; auto | assumption].
Qed.

(** C1. For a quadratic curve (three control points) and a line,
    [curveLineIntersections] returns no Intersection at all: the aligned
    curve, three points, is passed to [calcCubicParameters], which takes
    four, and the call raises TypeError.  The sibling branch for a cubic
    curve does what the claim describes: it returns one Intersection for
    each parameter found, each in [0, 1], with [pt] the point of the
    original curve at that parameter. *)
Theorem curveLineIntersections_quadratic_raises :
  (forall p0 p1 p2 s e : point,
      curveLineIntersections [p0; p1; p2] [s; e] = Raise TypeError)
  /\ (forall p0 p1 p2 p3 s e : point,
         exists res,
           curveLineIntersections [p0; p1; p2; p3] [s; e] = Ok res
           /\ Forall (fun i => pt i = cubicPointAtT p0 p1 p2 p3 (t1 i)
                               /\ 0 <= t1 i <= 1) res).
Proof.
  split.
  - intros p0 p1 p2 s e.
    unfold curveLineIntersections. cbn [length Nat.eqb bind].
    now rewrite _curve_line_intersections_t_quadratic.
  - exact curveLineIntersections_cubic.
Qed.

End CurveLine.

(** ** The segment/segment dispatcher *)

(** *** Calls that cannot raise ValueError *)

Lemma no_ValueError_Ok {A : Type} (a : A) : no_ValueError (Ok a).
Proof. discriminate. Qed.

Lemma no_ValueError_bind {A B : Type} (m : result A) (k : A -> result B) :
  no_ValueError m ->
  (forall a, m = Ok a -> no_ValueError (k a)) ->
  no_ValueError (bind m k).
Proof.
  unfold no_ValueError. intros Hm Hk. destruct m as [a | e]; cbn [bind].
  - now apply Hk.
  - intros He. apply Hm. congruence.
Qed.

Lemma no_ValueError_truediv (a b : R) : no_ValueError (truediv a b).
Proof. unfold no_ValueError, truediv. destruct (Reqb b 0); discriminate. Qed.

Lemma no_ValueError_for_each {A B : Type} (f : A -> result B) (l : list A) :
  (forall a, In a l -> no_ValueError (f a)) ->
  no_ValueError (for_each f l).
Proof.
  unfold no_ValueError. induction l as [| a l IH]; intros Hf; cbn [for_each].
  - discriminate.
  - pose proof (Hf a (or_introl eq_refl)) as Ha.
    destruct (f a) as [b |]; [| congruence].
    assert (Hl : for_each f l <> Raise ValueError)
      by (apply IH; intros a' Ha'; apply Hf; now right).
    destruct (for_each f l); [discriminate | congruence].
Qed.

(** The structure of a monadic body is followed down to the calls that
    can raise. *)
Ltac no_value_error :=
  repeat match goal with
    | |- no_ValueError (Ok _) => apply no_ValueError_Ok
    | |- no_ValueError (Raise _) => discriminate
    | |- no_ValueError (truediv _ _) => apply no_ValueError_truediv
    | |- no_ValueError (bind _ _) =>
        apply no_ValueError_bind; [| intros ? _]
    | |- no_ValueError (if ?b then _ else _) => destruct b
    end.

Lemma no_ValueError_line_t_of_pt (s e p : point) :
  no_ValueError (_line_t_of_pt s e p).
Proof.
  destruct s as [sx sy], e as [ex ey], p as [px py].
  unfold _line_t_of_pt. no_value_error.
Qed.

Lemma no_ValueError_lineLineIntersections (s1 e1 s2 e2 : point) :
  no_ValueError (lineLineIntersections s1 e1 s2 e2).
Proof.
  destruct s1 as [ax ay], e1 as [bx by_], s2 as [cx cy], e2 as [dx dy].
  unfold lineLineIntersections, xy.
  no_value_error; apply no_ValueError_line_t_of_pt.
Qed.

Lemma no_ValueError_unique (precision : R) (found : list (R * R)) :
  forall seen, no_ValueError (_unique precision seen found).
Proof.
  induction found as [| ts rest IH]; intros seen; cbn [_unique].
  - apply no_ValueError_Ok.
  - no_value_error; apply IH.
Qed.

(** Both halves of a curve split at one parameter are curves of the same
    length. *)
Lemma _split_segment_at_t_curve (c : segment) (t : R) :
  length c = 3%nat \/ length c = 4%nat ->
  exists c1 c2,
    _split_segment_at_t c t = Ok (Some [c1; c2])
    /\ length c1 = length c /\ length c2 = length c.
Proof.
  intros [Hlen | Hlen].
  - destruct c as [| p1 [| p2 [| p3 [| p4 rest]]]]; try discriminate.
    unfold _split_segment_at_t, splitQuadraticAtT.
    cbn [length Nat.eqb star3 bind].
    destruct (calcQuadraticParameters p1 p2 p3) as [[[ax ay] [bx by_]] [cx cy]].
    unfold _splitQuadraticAtT. cbn [app length Nat.sub seq map].
    destruct (calcQuadraticPoints _ _ _) as [[q1 q2] q3].
    destruct (calcQuadraticPoints _ _ _) as [[q1' q2'] q3'].
    do 2 eexists. split; [reflexivity |]. split; reflexivity.
  - destruct c as [| p1 [| p2 [| p3 [| p4 [| p5 rest]]]]]; try discriminate.
    unfold _split_segment_at_t, splitCubicAtT.
    cbn [length Nat.eqb star4 bind].
    destruct (calcCubicParameters p1 p2 p3 p4)
      as [[[[ax ay] [bx by_]] [cx cy]] [dx dy]].
    unfold _splitCubicAtT. cbn [app length Nat.sub seq map].
    destruct (calcCubicPoints _ _ _ _) as [[[q1 q2] q3] q4].
    destruct (calcCubicPoints _ _ _ _) as [[[q1' q2'] q3'] q4'].
    do 2 eexists. split; [reflexivity |]. split; reflexivity.
Qed.

Lemma _curve_bounds_curve (c : segment) :
  length c = 3%nat \/ length c = 4%nat ->
  exists b, _curve_bounds c = Ok (Some b).
Proof.
  intros [Hlen | Hlen].
  - destruct c as [| p1 [| p2 [| p3 [| p4 rest]]]]; try discriminate.
    unfold _curve_bounds. cbn [length Nat.eqb star3 bind].
    destruct (calcQuadraticBounds_total p1 p2 p3) as [b ->].
    eexists. reflexivity.
  - destruct c as [| p1 [| p2 [| p3 [| p4 [| p5 rest]]]]]; try discriminate.
    unfold _curve_bounds. cbn [length Nat.eqb star4 bind].
    destruct (calcCubicBounds_total p1 p2 p3 p4) as [b ->].
    eexists. reflexivity.
Qed.

Lemma no_ValueError_curve_curve_intersections_t (depth : nat) (precision : R) :
  forall (curve1 curve2 : segment) (range1 range2 : option (R * R)),
    length curve1 = 3%nat \/ length curve1 = 4%nat ->
    length curve2 = 3%nat \/ length curve2 = 4%nat ->
    no_ValueError
      (_curve_curve_intersections_t depth curve1 curve2 precision
         range1 range2).
Proof.
  induction depth as [| depth IH]; intros curve1 curve2 range1 range2 H1 H2;
    cbn [_curve_curve_intersections_t].
  - discriminate.
  - destruct (_curve_bounds_curve curve1 H1) as [b1 ->].
    destruct (_curve_bounds_curve curve2 H2) as [b2 ->].
    cbn [bind]. unfold sectRect.
    destruct b1 as [[[xMin1 yMin1] xMax1] yMax1].
    destruct b2 as [[[xMin2 yMin2] xMax2] yMax2].
    destruct (_ || _); cbn [bind negb]; [apply no_ValueError_Ok |].
    destruct (_ && _); [apply no_ValueError_Ok |].
    destruct (_split_segment_at_t_curve curve1 0.5 H1)
      as (c11 & c12 & -> & Hc11 & Hc12).
    destruct (_split_segment_at_t_curve curve2 0.5 H2)
      as (c21 & c22 & -> & Hc21 & Hc22).
    cbn [bind unpack_halves unpack2].
    rewrite <- Hc11 in H1. rewrite <- Hc21 in H2.
    assert (H1' : length c12 = 3%nat \/ length c12 = 4%nat)
      by (rewrite Hc12, <- Hc11; exact H1).
    assert (H2' : length c22 = 3%nat \/ length c22 = 4%nat)
      by (rewrite Hc22, <- Hc21; exact H2).
    no_value_error; auto using no_ValueError_unique.
Qed.

Lemma no_ValueError_curveCurveIntersections (depth : nat)
    (curve1 curve2 : segment) :
  length curve1 = 3%nat \/ length curve1 = 4%nat ->
  length curve2 = 3%nat \/ length curve2 = 4%nat ->
  no_ValueError (curveCurveIntersections depth curve1 curve2).
Proof.
  intros H1 H2. unfold curveCurveIntersections.
  apply no_ValueError_bind.
  - now apply no_ValueError_curve_curve_intersections_t.
  - intros tss _. apply no_ValueError_for_each. intros ts _.
    destruct (segmentPointAtT_ok curve1 (fst ts)) as [p ->].
    + unfold valid_length. tauto.
    + cbn [bind]. apply no_ValueError_Ok.
Qed.

Section Dispatch.

Context `{TransformLib}.

Lemma segmentSegmentIntersections_cubic_empty (depth : nat)
    (p0 p1 p2 p3 : point) :
  segmentSegmentIntersections depth [p0; p1; p2; p3] [] = Raise IndexError.
Proof. reflexivity. Qed.

Lemma segmentSegmentIntersections_empty_cubic (depth : nat)
    (p0 p1 p2 p3 : point) :
  segmentSegmentIntersections depth [] [p0; p1; p2; p3] = Raise IndexError.
Proof. reflexivity. Qed.

Lemma segmentSegmentIntersections_quartic (depth : nat)
    (p0 p1 p2 p3 p4 q0 q1 q2 q3 : point) :
  segmentSegmentIntersections (S depth)
    [p0; p1; p2; p3; p4] [q0; q1; q2; q3]
  = Raise TypeError.
Proof.
  unfold segmentSegmentIntersections, curveCurveIntersections.
  cbn [length Nat.ltb Nat.leb].
  unfold _curve_curve_intersections_t, _curve_bounds.
  cbn [length Nat.eqb bind star4].
  destruct (calcCubicBounds_total q0 q1 q2 q3) as [b ->]. reflexivity.
Qed.

Lemma no_ValueError_curveLineIntersections_cubic
    (p0 p1 p2 p3 s e : point) :
  no_ValueError (curveLineIntersections [p0; p1; p2; p3] [s; e]).
Proof.
  unfold curveLineIntersections. cbn [length Nat.eqb bind].
  apply no_ValueError_bind.
  - unfold _curve_line_intersections_t, _alignment_transformation.
    cbn [first last rev app bind length Nat.eqb transformPoints map].
    unfold calcCubicParameters_star. cbn [star4 bind].
    destruct (calcCubicParameters _ _ _ _) as [[[a b] c] d].
    cbn [bind unpack4].
    destruct (solveCubic_total (fst a) (fst b) (fst c) (fst d)) as [xs ->].
    destruct (solveCubic_total (snd a) (snd b) (snd c) (snd d)) as [ys ->].
    cbn [bind]. apply no_ValueError_Ok.
  - intros ts _. apply no_ValueError_for_each. intros t _.
    cbn [star4 star2 bind].
    no_value_error. apply no_ValueError_line_t_of_pt.
Qed.

Lemma no_ValueError_curveLineIntersections_quadratic
    (p0 p1 p2 s e : point) :
  no_ValueError (curveLineIntersections [p0; p1; p2] [s; e]).
Proof.
  unfold curveLineIntersections. cbn [length Nat.eqb bind].
  rewrite _curve_line_intersections_t_quadratic. discriminate.
Qed.

(** For segments of 2, 3 or 4 points the dispatcher raises no
    ValueError, whichever routine it calls. *)
Lemma no_ValueError_segmentSegmentIntersections (depth : nat)
    (seg1 seg2 : segment) :
  valid_length (length seg1) -> valid_length (length seg2) ->
  no_ValueError (segmentSegmentIntersections depth seg1 seg2).
Proof.
  unfold valid_length. intros H1 H2.
  destruct seg1 as [| a1 [| a2 [| a3 [| a4 [| a5 r1]]]]];
    cbn [length] in H1; try (exfalso; lia);
    destruct seg2 as [| b1 [| b2 [| b3 [| b4 [| b5 r2]]]]];
    cbn [length] in H2; try (exfalso; lia);
    unfold segmentSegmentIntersections;
    cbn [length Nat.ltb Nat.leb Nat.eqb andb app star4 bind];
    first
      [ apply no_ValueError_lineLineIntersections
      | apply no_ValueError_curveLineIntersections_quadratic
      | apply no_ValueError_curveLineIntersections_cubic
      | apply no_ValueError_curveCurveIntersections; cbn [length]; auto ].
Qed.

(** C9.  [segmentPointAtT] raises ValueError ("Unknown curve degree")
    exactly when the segment has not 2, 3 or 4 points, and otherwise
    returns the point of the line, quadratic or cubic routine.
    [segmentSegmentIntersections] raises no ValueError for segments of 2,
    3 or 4 points, but it does not raise ValueError for every other
    length: with a cubic and an empty segment it raises IndexError, and
    with a segment of five points and a cubic it raises TypeError. *)
Theorem segment_dispatch_invalid_degree :
  (forall (seg : segment) (t : R),
      segmentPointAtT seg t = Raise ValueError
      <-> ~ valid_length (length seg))
  /\ (forall (pt1 pt2 pt3 pt4 : point) (t : R),
         segmentPointAtT [pt1; pt2] t = Ok (linePointAtT pt1 pt2 t)
         /\ segmentPointAtT [pt1; pt2; pt3] t
            = Ok (quadraticPointAtT pt1 pt2 pt3 t)
         /\ segmentPointAtT [pt1; pt2; pt3; pt4] t
            = Ok (cubicPointAtT pt1 pt2 pt3 pt4 t))
  /\ (forall (depth : nat) (seg1 seg2 : segment),
         valid_length (length seg1) -> valid_length (length seg2) ->
         segmentSegmentIntersections depth seg1 seg2 <> Raise ValueError)
  /\ (forall (depth : nat) (p0 p1 p2 p3 : point),
         segmentSegmentIntersections depth [p0; p1; p2; p3] []
         = Raise IndexError)
  /\ (forall (depth : nat) (p0 p1 p2 p3 p4 q0 q1 q2 q3 : point),
         segmentSegmentIntersections (S depth)
           [p0; p1; p2; p3; p4] [q0; q1; q2; q3]
         = Raise TypeError).
Proof.
  split; [| split; [| split; [| split]]].
  - exact segmentPointAtT_raises_iff.
  - intros pt1 pt2 pt3 pt4 t. repeat split.
  - exact no_ValueError_segmentSegmentIntersections.
  - exact segmentSegmentIntersections_cubic_empty.
  - exact segmentSegmentIntersections_quartic.
Qed.

End Dispatch.

Lemma segment_dispatch_invalid_degree_witness :
  @segmentSegmentIntersections affine_TransformLib 1
    [(0, 0); (1, 1)] [(0, 1); (1, 0)]
  <> Raise ValueError.
Proof.
  destruct (@segment_dispatch_invalid_degree affine_TransformLib)
    as (_ & _ & Hvalid & _).
  apply Hvalid; left; reflexivity.
Defined.

(** * Further properties of the module *)

(** ** The solvers *)

Lemma solveQuadratic_sound (a b c s : R) (roots : list R) :
  epsilon <= Rabs a ->
  solveQuadratic a b c = Ok roots ->
  In s roots ->
  a * (s * s) + b * s + c = 0.
Proof.
  intros Ha Hroots Hin.
  pose proof (Rabs_ge_epsilon_neq0 a Ha) as Hne.
  destruct (Rlt_le_dec (b * b - 4 * a * c) 0) as [HD | HD].
  - rewrite solveQuadratic_complex in Hroots by assumption.
    injection Hroots as <-. destruct Hin.
  - rewrite solveQuadratic_real in Hroots by assumption.
    injection Hroots as <-.
    pose proof (sqrt_sqrt _ HD) as Hsq.
    set (r := sqrt (b * b - 4 * a * c)) in *.
    assert (Hkey : forall x, 2 * a * x + b = r \/ 2 * a * x + b = - r ->
                             a * (x * x) + b * x + c = 0).
    { intros x Hx.
      assert (H4 : 4 * a * (a * (x * x) + b * x + c) = 0) by
        (destruct Hx as [Hx | Hx];
         replace (4 * a * (a * (x * x) + b * x + c))
           with ((2 * a * x + b) * (2 * a * x + b) - (b * b - 4 * a * c))
           by ring; rewrite Hx, <- Hsq; ring).
      apply Rmult_integral in H4 as [H4 | H4]; [lra | assumption]. }
    destruct Hin as [<- | [<- | []]]; apply Hkey.
    + left. field. assumption.
    + right. field. assumption.
Qed.

(** X1.  For a leading coefficient that is not small, [solveQuadratic]
    returns exactly the real solutions of [a x^2 + b x + c = 0]: every
    root returned solves the equation and every solution is returned. *)
Theorem solveQuadratic_exact (a b c : R) :
  epsilon <= Rabs a ->
  exists roots,
    solveQuadratic a b c = Ok roots
    /\ forall s, In s roots <-> a * (s * s) + b * s + c = 0.
Proof.
  intros Ha. destruct (solveQuadratic_total a b c) as [roots Hroots].
  exists roots. split; [assumption |]. intros s. split.
  - now apply solveQuadratic_sound.
  - now apply solveQuadratic_complete_quadratic.
Qed.

Lemma solveQuadratic_exact_witness :
  exists roots,
    solveQuadratic 1 0 (- 1) = Ok roots
    /\ forall s, In s roots <-> 1 * (s * s) + 0 * s + - 1 = 0.
Proof.
  apply solveQuadratic_exact.
  rewrite Rabs_R1. unfold epsilon. lra.
Defined.

Lemma solveCubic_one_or_three (a b c d : R) :
  epsilon <= Rabs a ->
  (exists x, solveCubic a b c d = Ok [x])
  \/ (exists r0 r1 r2,
         solveCubic a b c d = Ok [r0; r1; r2] /\ r0 <= r1 <= r2).
Proof.
  intros Ha.
  destruct (Req_dec (cubic_R2 a b c d) 0) as [HR | HR];
    [destruct (Req_dec (cubic_Q3 a b c) 0) as [HQ | HQ] |].
  - right. do 3 eexists. split.
    + now apply solveCubic_triple_root.
    + lra.
  - destruct (Rle_lt_dec (cubic_R2 a b c d - cubic_Q3 a b c) (epsilon / 2))
      as [Hle | Hgt].
    + destruct (solveCubic_three_real_roots a b c d Ha)
        as (s0 & s1 & s2 & r0 & r1 & r2 & _ & _ & Heq & Hsorted & _);
        [tauto | assumption |].
      right. now exists r0, r1, r2.
    + left. rewrite solveCubic_eq by assumption. cbv zeta.
      rewrite (Reqb_false (cubic_Q3 a b c)), Bool.andb_false_r by assumption.
      rewrite Rleb_false by lra.
      pose proof epsilon_pos.
      rewrite math_sqrt_ok by lra. cbn [bind].
      assert (Hbase : 0 < sqrt (cubic_R2 a b c d - cubic_Q3 a b c)
                          + Rabs (cubic_R a b c d)).
      { pose proof (sqrt_lt_R0 (cubic_R2 a b c d - cubic_Q3 a b c)).
        pose proof (Rabs_pos (cubic_R a b c d)). lra. }
      unfold pow_float.
      rewrite Rltb_false, Reqb_false by lra. cbn [bind].
      rewrite truediv_ok; [eexists; reflexivity |].
      unfold Rpower. pose proof (exp_pos
        (1 / 3.0 * ln (sqrt (cubic_R2 a b c d - cubic_Q3 a b c)
                       + Rabs (cubic_R a b c d)))). lra.
  - destruct (Rle_lt_dec (cubic_R2 a b c d - cubic_Q3 a b c) (epsilon / 2))
      as [Hle | Hgt].
    + destruct (solveCubic_three_real_roots a b c d Ha)
        as (s0 & s1 & s2 & r0 & r1 & r2 & _ & _ & Heq & Hsorted & _);
        [tauto | assumption |].
      right. now exists r0, r1, r2.
    + left. rewrite solveCubic_eq by assumption. cbv zeta.
      rewrite (Reqb_false (cubic_R2 a b c d)) by assumption. cbn [andb].
      rewrite Rleb_false by lra.
      pose proof epsilon_pos.
      rewrite math_sqrt_ok by lra. cbn [bind].
      assert (Hbase : 0 < sqrt (cubic_R2 a b c d - cubic_Q3 a b c)
                          + Rabs (cubic_R a b c d)).
      { pose proof (sqrt_lt_R0 (cubic_R2 a b c d - cubic_Q3 a b c)).
        pose proof (Rabs_pos (cubic_R a b c d)). lra. }
      unfold pow_float.
      rewrite Rltb_false, Reqb_false by lra. cbn [bind].
      rewrite truediv_ok; [eexists; reflexivity |].
      unfold Rpower. pose proof (exp_pos
        (1 / 3.0 * ln (sqrt (cubic_R2 a b c d - cubic_Q3 a b c)
                       + Rabs (cubic_R a b c d)))). lra.
Qed.

(** X2.  For a leading coefficient that is not small, [solveCubic] raises
    nothing and returns either one root or three roots in ascending
    order. *)
Theorem solveCubic_shape (a b c d : R) :
  epsilon <= Rabs a ->
  (exists x, solveCubic a b c d = Ok [x])
  \/ (exists r0 r1 r2,
         solveCubic a b c d = Ok [r0; r1; r2] /\ r0 <= r1 <= r2).
Proof.
  intros Ha.
  destruct (solveCubic_one_or_three a b c d Ha)
    as [[x Hone] | (r0 & r1 & r2 & Hthree & Hsorted)].
  - left. now exists x.
  - right. now exists r0, r1, r2.
Qed.

Lemma solveCubic_shape_witness :
  (exists x, solveCubic 1 0 0 1 = Ok [x])
  \/ (exists r0 r1 r2,
         solveCubic 1 0 0 1 = Ok [r0; r1; r2] /\ r0 <= r1 <= r2).
Proof.
  apply solveCubic_shape.
  rewrite Rabs_R1. unfold epsilon. lra.
Defined.

(** ** Splitting *)

Lemma quadraticPointAtT_Points (a b c : point) (s : R) :
  quadraticPointAtT3 (calcQuadraticPoints a b c) s = quadraticPower a b c s.
Proof.
  destruct a as [ax ay], b as [bx by_], c as [cx cy].
  unfold quadraticPointAtT3, calcQuadraticPoints, quadraticPointAtT,
    quadraticPower.
  cbn [fst snd]. f_equal; decimals; field.
Qed.

Lemma cubicPointAtT_Points (a b c d : point) (s : R) :
  cubicPointAtT4 (calcCubicPoints a b c d) s = cubicPower a b c d s.
Proof.
  destruct a as [ax ay], b as [bx by_], c as [cx cy], d as [dx dy].
  unfold cubicPointAtT4, calcCubicPoints, cubicPointAtT, cubicPower.
  cbn [fst snd]. f_equal; decimals; field.
Qed.

Lemma quadraticPointAtT_Power (pt1 pt2 pt3 : point) (t : R) :
  quadraticPointAtT pt1 pt2 pt3 t
  = (let '(a, b, c) := calcQuadraticParameters pt1 pt2 pt3 in
     quadraticPower a b c t).
Proof.
  destruct pt1 as [x1 y1], pt2 as [x2 y2], pt3 as [x3 y3].
  unfold quadraticPointAtT, calcQuadraticParameters, quadraticPower.
  cbn [fst snd]. f_equal; decimals; field.
Qed.

Lemma cubicPointAtT_Power (pt1 pt2 pt3 pt4 : point) (t : R) :
  cubicPointAtT pt1 pt2 pt3 pt4 t
  = (let '(a, b, c, d) := calcCubicParameters pt1 pt2 pt3 pt4 in
     cubicPower a b c d t).
Proof.
  destruct pt1 as [x1 y1], pt2 as [x2 y2], pt3 as [x3 y3], pt4 as [x4 y4].
  unfold cubicPointAtT, calcCubicParameters, cubicPower.
  cbn [fst snd]. f_equal; decimals; field.
Qed.

Lemma _splitQuadraticAtT_trace (a b c : point) (ts : list R) (i : nat)
    (seg : point * point * point) (s : R) :
  nth_error (_splitQuadraticAtT a b c ts) i = Some seg ->
  let t1 := nth i (0 :: ts ++ [1]) 0 in
  let t2 := nth (S i) (0 :: ts ++ [1]) 0 in
  quadraticPointAtT3 seg s = quadraticPower a b c (t1 + s * (t2 - t1)).
Proof.
  unfold _splitQuadraticAtT.
  destruct a as [ax ay], b as [bx by_], c as [cx cy].
  rewrite split_points_length. intros Hs.
  apply nth_error_map_seq in Hs as [Hi ->].
  cbv zeta. rewrite quadraticPointAtT_Points.
  rewrite Nat.add_1_r.
  replace (0.0 :: ts ++ [1.0]) with (0 :: ts ++ [1])
    by (do 2 f_equal; [lra | f_equal; lra]).
  unfold quadraticPower. cbn [fst snd]. f_equal; ring.
Qed.

Lemma _splitCubicAtT_trace (a b c d : point) (ts : list R) (i : nat)
    (seg : point * point * point * point) (s : R) :
  nth_error (_splitCubicAtT a b c d ts) i = Some seg ->
  let t1 := nth i (0 :: ts ++ [1]) 0 in
  let t2 := nth (S i) (0 :: ts ++ [1]) 0 in
  cubicPointAtT4 seg s = cubicPower a b c d (t1 + s * (t2 - t1)).
Proof.
  unfold _splitCubicAtT.
  destruct a as [ax ay], b as [bx by_], c as [cx cy], d as [dx dy].
  rewrite split_points_length. intros Hs.
  apply nth_error_map_seq in Hs as [Hi ->].
  cbv zeta. rewrite cubicPointAtT_Points.
  rewrite Nat.add_1_r.
  replace (0.0 :: ts ++ [1.0]) with (0 :: ts ++ [1])
    by (do 2 f_equal; [lra | f_equal; lra]).
  unfold cubicPower. cbn [fst snd]. f_equal; ring.
Qed.

(** X3.  The sub-segments returned by [splitQuadraticAtT] and
    [splitCubicAtT] trace the original curve: the i-th sub-segment at the
    parameter s is the original curve at t_i + s (t_(i+1) - t_i), where
    t_0 = 0, t_1, ..., t_k are the split parameters and t_(k+1) = 1. *)
Theorem splitAtT_traces_curve :
  (forall (pt1 pt2 pt3 : point) (ts : list R) (i : nat)
          (seg : point * point * point) (s : R),
      nth_error (splitQuadraticAtT pt1 pt2 pt3 ts) i = Some seg ->
      quadraticPointAtT3 seg s
      = quadraticPointAtT pt1 pt2 pt3
          (nth i (0 :: ts ++ [1]) 0
           + s * (nth (S i) (0 :: ts ++ [1]) 0 - nth i (0 :: ts ++ [1]) 0)))
  /\ (forall (pt1 pt2 pt3 pt4 : point) (ts : list R) (i : nat)
             (seg : point * point * point * point) (s : R),
         nth_error (splitCubicAtT pt1 pt2 pt3 pt4 ts) i = Some seg ->
         cubicPointAtT4 seg s
         = cubicPointAtT pt1 pt2 pt3 pt4
             (nth i (0 :: ts ++ [1]) 0
              + s * (nth (S i) (0 :: ts ++ [1]) 0
                     - nth i (0 :: ts ++ [1]) 0))).
Proof.
  split.
  - intros pt1 pt2 pt3 ts i seg s. unfold splitQuadraticAtT.
    rewrite quadraticPointAtT_Power.
    destruct (calcQuadraticParameters pt1 pt2 pt3) as [[a b] c].
    intros Hseg. now apply _splitQuadraticAtT_trace.
  - intros pt1 pt2 pt3 pt4 ts i seg s. unfold splitCubicAtT.
    rewrite cubicPointAtT_Power.
    destruct (calcCubicParameters pt1 pt2 pt3 pt4) as [[[a b] c] d].
    intros Hseg. now apply _splitCubicAtT_trace.
Qed.

Lemma splitAtT_traces_curve_witness :
  exists seg,
    nth_error (splitQuadraticAtT (0, 0) (50, 100) (100, 0) [0.5]) 1 = Some seg
    /\ quadraticPointAtT3 seg 0.5
       = quadraticPointAtT (0, 0) (50, 100) (100, 0)
           (nth 1 (0 :: [0.5] ++ [1]) 0
            + 0.5 * (nth 2 (0 :: [0.5] ++ [1]) 0
                     - nth 1 (0 :: [0.5] ++ [1]) 0)).
Proof.
  destruct splitAtT_traces_curve as [Hquadratic _].
  eexists. split; [reflexivity |].
  apply (Hquadratic (0, 0) (50, 100) (100, 0) [0.5] 1%nat). reflexivity.
Defined.

Lemma in_unit_half_open_iff (t : R) :
  in_unit_half_open t = true <-> 0 <= t < 1.
Proof.
  unfold in_unit_half_open. split.
  - intros Hunit. apply Bool.andb_true_iff in Hunit as [H0 H1].
    destruct (Rleb_spec 0 t); [| discriminate].
    destruct (Rltb_spec t 1); [| discriminate]. lra.
  - intros [H0 H1]. rewrite Rleb_true, Rltb_true by assumption. reflexivity.
Qed.

Lemma sorted_filter_in (f : R -> bool) (l : list R) (t : R) :
  In t (sorted (filter f l)) <-> In t l /\ f t = true.
Proof.
  rewrite <- filter_In. split; intros Hin.
  - now apply (Permutation_in t (sorted_perm (filter f l))).
  - now apply (Permutation_in t (Permutation_sym (sorted_perm (filter f l)))).
Qed.

Lemma sorted_filter_length (f : R -> bool) (l : list R) :
  (length (sorted (filter f l)) <= length l)%nat.
Proof.
  rewrite (Permutation_length (sorted_perm (filter f l))).
  apply filter_length_le.
Qed.

Lemma solveQuadratic_length (a b c : R) (roots : list R) :
  solveQuadratic a b c = Ok roots -> (length roots <= 2)%nat.
Proof.
  unfold solveQuadratic. intros Hroots.
  destruct (Rltb (Rabs a) epsilon).
  - destruct (Rltb (Rabs b) epsilon).
    + injection Hroots as <-. cbn. lia.
    + destruct (truediv (- c) b); [| discriminate].
      injection Hroots as <-. cbn. lia.
  - destruct (Rleb 0.0 (b * b - 4.0 * a * c)).
    + destruct (math_sqrt _); [| discriminate]. cbn [bind] in Hroots.
      destruct (truediv _ a); [| discriminate]. cbn [bind] in Hroots.
      destruct (truediv _ a); [| discriminate].
      injection Hroots as <-. cbn. lia.
    + injection Hroots as <-. cbn. lia.
Qed.

Lemma solveCubic_length (a b c d : R) (roots : list R) :
  solveCubic a b c d = Ok roots -> (length roots <= 3)%nat.
Proof.
  intros Hroots.
  destruct (Rlt_le_dec (Rabs a) epsilon) as [Ha | Ha].
  - unfold solveCubic in Hroots. rewrite Rltb_true in Hroots by assumption.
    apply solveQuadratic_length in Hroots. lia.
  - destruct (solveCubic_one_or_three a b c d Ha)
      as [(x & Hx) | (r0 & r1 & r2 & Hr & _)];
      rewrite Hroots in *; [injection Hx as -> | injection Hr as ->];
      cbn; lia.
Qed.

Lemma _splitQuadraticAtT_nil (pt1 pt2 pt3 : point) :
  splitQuadraticAtT pt1 pt2 pt3 [] = [(pt1, pt2, pt3)].
Proof.
  destruct pt1 as [x1 y1], pt2 as [x2 y2], pt3 as [x3 y3].
  unfold splitQuadraticAtT, calcQuadraticParameters, _splitQuadraticAtT,
    calcQuadraticPoints.
  cbn [app length Nat.sub seq map nth Nat.add].
  repeat f_equal; decimals; field.
Qed.

Lemma _splitCubicAtT_nil (pt1 pt2 pt3 pt4 : point) :
  splitCubicAtT pt1 pt2 pt3 pt4 [] = [(pt1, pt2, pt3, pt4)].
Proof.
  destruct pt1 as [x1 y1], pt2 as [x2 y2], pt3 as [x3 y3], pt4 as [x4 y4].
  unfold splitCubicAtT, calcCubicParameters, _splitCubicAtT,
    calcCubicPoints.
  cbn [app length Nat.sub seq map nth Nat.add].
  repeat f_equal; decimals; field.
Qed.

Lemma item_quadraticPower (a b c : point) (t : R) (isHorizontal : bool) :
  item (quadraticPower a b c t) isHorizontal
  = item a isHorizontal * (t * t) + item b isHorizontal * t
    + item c isHorizontal.
Proof. destruct isHorizontal; reflexivity. Qed.

(** X4.  [splitQuadratic] raises nothing.  Its result is the curve split,
    as by [splitQuadraticAtT], at an ascending list of at most two
    parameters in [0, 1) (the curve itself when the list is empty).  When
    the coefficient of t^2 on the chosen axis is not small, these
    parameters are exactly the t in [0, 1) at which the curve has the
    coordinate [where] on that axis. *)
Theorem splitQuadratic_at_crossings (pt1 pt2 pt3 : point) (where_ : R)
    (isHorizontal : bool) :
  exists ts,
    splitQuadratic pt1 pt2 pt3 where_ isHorizontal
    = Ok (splitQuadraticAtT pt1 pt2 pt3 ts)
    /\ Sorted Rle ts
    /\ (length ts <= 2)%nat
    /\ (forall t, In t ts -> 0 <= t < 1)
    /\ (let '(a, _, _) := calcQuadraticParameters pt1 pt2 pt3 in
        epsilon <= Rabs (item a isHorizontal) ->
        forall t,
          In t ts <->
          0 <= t < 1
          /\ item (quadraticPointAtT pt1 pt2 pt3 t) isHorizontal = where_).
Proof.
  pose proof (_splitQuadraticAtT_nil pt1 pt2 pt3) as Hnil.
  pose proof (quadraticPointAtT_Power pt1 pt2 pt3) as Hpow.
  unfold splitQuadratic, splitQuadraticAtT in *.
  destruct (calcQuadraticParameters pt1 pt2 pt3) as [[a b] c].
  destruct (solveQuadratic_total (item a isHorizontal) (item b isHorizontal)
              (item c isHorizontal - where_)) as [roots Hroots].
  rewrite Hroots. cbn [bind].
  exists (sorted (filter in_unit_half_open roots)).
  split; [| split; [| split; [| split]]].
  - destruct (sorted (filter in_unit_half_open roots)) eqn:Hs;
      [now rewrite Hnil | reflexivity].
  - apply sorted_Sorted.
  - pose proof (sorted_filter_length in_unit_half_open roots).
    pose proof (solveQuadratic_length _ _ _ _ Hroots). lia.
  - intros t Hin. apply sorted_filter_in in Hin as [_ Hunit].
    now apply in_unit_half_open_iff.
  - intros Ha t. rewrite sorted_filter_in, in_unit_half_open_iff.
    rewrite Hpow, item_quadraticPower.
    split; intros [H1 H2]; split; try assumption.
    + pose proof (solveQuadratic_sound _ _ _ t roots Ha Hroots H1). lra.
    + apply (solveQuadratic_complete_quadratic _ _ _ t roots Ha Hroots). lra.
Qed.

Lemma splitQuadratic_at_crossings_witness :
  exists ts,
    splitQuadratic (0, 0) (50, 100) (100, 0) 25 true
    = Ok (splitQuadraticAtT (0, 0) (50, 100) (100, 0) ts)
    /\ forall t,
         In t ts <->
         0 <= t < 1
         /\ item (quadraticPointAtT (0, 0) (50, 100) (100, 0) t) true = 25.
Proof.
  destruct (splitQuadratic_at_crossings (0, 0) (50, 100) (100, 0) 25 true)
    as (ts & Heq & _ & _ & _ & Hexact).
  exists ts. split; [exact Heq |].
  cbv beta iota zeta delta [calcQuadraticParameters] in Hexact.
  apply Hexact. cbn [item snd]. eval_float. unfold epsilon. lra.
Defined.

(** X5.  [splitCubic] raises nothing.  Its result is the curve split, as
    by [splitCubicAtT], at an ascending list of at most three parameters
    in [0, 1) (the curve itself when the list is empty). *)
Theorem splitCubic_at_sorted_parameters (pt1 pt2 pt3 pt4 : point)
    (where_ : R) (isHorizontal : bool) :
  exists ts,
    splitCubic pt1 pt2 pt3 pt4 where_ isHorizontal
    = Ok (splitCubicAtT pt1 pt2 pt3 pt4 ts)
    /\ Sorted Rle ts
    /\ (length ts <= 3)%nat
    /\ Forall (fun t => 0 <= t < 1) ts.
Proof.
  pose proof (_splitCubicAtT_nil pt1 pt2 pt3 pt4) as Hnil.
  unfold splitCubic, splitCubicAtT in *.
  destruct (calcCubicParameters pt1 pt2 pt3 pt4) as [[[a b] c] d].
  destruct (solveCubic_total (item a isHorizontal) (item b isHorizontal)
              (item c isHorizontal) (item d isHorizontal - where_))
    as [roots Hroots].
  rewrite Hroots. cbn [bind].
  exists (sorted (filter in_unit_half_open roots)).
  split; [| split; [| split]].
  - destruct (sorted (filter in_unit_half_open roots)) eqn:Hs;
      [now rewrite Hnil | reflexivity].
  - apply sorted_Sorted.
  - pose proof (sorted_filter_length in_unit_half_open roots).
    pose proof (solveCubic_length _ _ _ _ _ Hroots). lia.
  - apply Forall_forall. intros t Hin.
    apply sorted_filter_in in Hin as [_ Hunit].
    now apply in_unit_half_open_iff.
Qed.

(** X6.  [splitLine] raises nothing.  Either it returns the two halves
    of the line, joined at the point of the line at a parameter t in
    [0, 1) where the line has the coordinate [where] on the chosen axis;
    or it returns the line itself, and then the line is parallel to the
    ray or does not have that coordinate at any t in [0, 1). *)
Theorem splitLine_at_crossing (pt1 pt2 : point) (where_ : R)
    (isHorizontal : bool) :
  (exists t,
      0 <= t < 1
      /\ item (linePointAtT pt1 pt2 t) isHorizontal = where_
      /\ splitLine pt1 pt2 where_ isHorizontal
         = Ok [(pt1, linePointAtT pt1 pt2 t); (linePointAtT pt1 pt2 t, pt2)])
  \/ (splitLine pt1 pt2 where_ isHorizontal = Ok [(pt1, pt2)]
      /\ (item pt1 isHorizontal = item pt2 isHorizontal
          \/ forall t, 0 <= t < 1 ->
                       item (linePointAtT pt1 pt2 t) isHorizontal <> where_)).
Proof.
  destruct pt1 as [x1 y1], pt2 as [x2 y2]. unfold splitLine.
  set (a := item (x2 - x1, y2 - y1) isHorizontal).
  set (b := item (x1, y1) isHorizontal).
  assert (Hitem : forall t,
             item (linePointAtT (x1, y1) (x2, y2) t) isHorizontal
             = a * t + b).
  { intros t. unfold a, b, linePointAtT.
    destruct isHorizontal; cbn [item fst snd]; ring. }
  destruct (Reqb_spec a 0) as [Ha | Ha].
  { right. split; [reflexivity |]. left.
    unfold a, b in *. destruct isHorizontal; cbn [item fst snd] in *; lra. }
  rewrite truediv_ok by assumption. cbn [bind].
  destruct (in_unit_half_open ((where_ - b) / a)) eqn:Hunit.
  - left. exists ((where_ - b) / a).
    apply in_unit_half_open_iff in Hunit.
    split; [assumption |]. split.
    + rewrite Hitem. field. assumption.
    + assert (Hm : forall t,
                 ((x2 - x1) * t + x1, (y2 - y1) * t + y1)
                 = linePointAtT (x1, y1) (x2, y2) t)
        by (intros t; unfold linePointAtT; cbn [fst snd]; f_equal; ring).
      now rewrite Hm.
  - right. split; [reflexivity |]. right. intros t Ht Hcross.
    rewrite Hitem in Hcross.
    assert (Ht' : t = (where_ - b) / a)
      by (rewrite <- Hcross; field; assumption).
    rewrite <- Ht' in Hunit.
    apply in_unit_half_open_iff in Ht. congruence.
Qed.

(** ** Arc length of a cubic by subdivision *)

Lemma Cabs_Cmul (k z : complex) : Cabs (k * z)%C = Cabs k * Cabs z.
Proof.
  destruct k as [kr ki], z as [x y]. unfold Cabs, Cmul. cbn [real imag].
  rewrite <- sqrt_mult by nra. f_equal. ring.
Qed.

Lemma Cabs_minus_sym (z w : complex) : Cabs (z - w)%C = Cabs (w - z)%C.
Proof.
  destruct z as [a b], w as [c d]. unfold Cabs, Csub. cbn [real imag].
  f_equal. ring.
Qed.

Lemma Cabs_triangle (z w : complex) : Cabs (z + w)%C <= Cabs z + Cabs w.
Proof.
  pose proof (Cabs_nonneg z) as Hz. pose proof (Cabs_nonneg w) as Hw.
  pose proof (Cabs_sqr z) as Hz2. pose proof (Cabs_sqr w) as Hw2.
  pose proof (Cabs_sqr (z + w)%C) as Hs2.
  destruct z as [a b], w as [c d]. unfold Cadd in *. cbn [real imag] in *.
  set (nz := Cabs (Complex a b)) in *. set (nw := Cabs (Complex c d)) in *.
  set (ns := Cabs (Complex (a + c) (b + d))) in *.
  assert (Hcs : a * c + b * d <= nz * nw).
  { destruct (Rle_lt_dec (a * c + b * d) 0) as [Hneg | Hpos]; [nra |].
    apply Rsqr_incr_0_var; [| nra].
    unfold Rsqr.
    replace (nz * nw * (nz * nw)) with ((nz * nz) * (nw * nw)) by ring.
    rewrite Hz2, Hw2.
    pose proof (Rle_0_sqr (a * d - b * c)) as Hsq. unfold Rsqr in Hsq.
    nra. }
  apply Rsqr_incr_0_var; [| lra].
  unfold Rsqr. nra.
Qed.

Lemma Cabs_triangle3 (u v w : complex) :
  Cabs (u + v + w)%C <= Cabs u + Cabs v + Cabs w.
Proof.
  pose proof (Cabs_triangle (u + v)%C w). pose proof (Cabs_triangle u v).
  lra.
Qed.

Lemma Cabs_Cfloat_mul (k : R) (z : complex) :
  Cabs (Cfloat k * z)%C = Rabs k * Cabs z.
Proof.
  rewrite Cabs_Cmul. f_equal. unfold Cabs, Cfloat. cbn [real imag].
  replace (k * k + 0 * 0) with (Rsqr k) by (unfold Rsqr; ring).
  apply sqrt_Rsqr_abs.
Qed.

(** Equations between complex numbers that hold component by component. *)
Ltac complex_eq :=
  repeat match goal with z : complex |- _ => destruct z end;
  unfold Cadd, Csub, Cmul, Cfloat, conjugate, j1; cbn [real imag];
  f_equal; decimals; field.

(** Equations between tuples, one goal for each component. *)
Ltac tuple_eq :=
  repeat match goal with |- (_, _) = (_, _) => apply f_equal2 end.


Lemma dist_Cabs (p q : point) :
  dist p q = Cabs (complex_of p - complex_of q)%C.
Proof.
  destruct p as [x1 y1], q as [x2 y2].
  unfold dist, Cabs, Csub, complex_of. cbn [real imag fst snd].
  f_equal. ring.
Qed.




Lemma Cabs_similarity (k v z w : complex) :
  Cabs (similarity k v z - similarity k v w)%C = Cabs k * Cabs (z - w)%C.
Proof.
  rewrite <- Cabs_Cmul. f_equal. unfold similarity. complex_eq.
Qed.


Lemma bind_Ok_inv {A B : Type} (m : result A) (k : A -> result B) (b : B) :
  bind m k = Ok b -> exists a, m = Ok a /\ k a = Ok b.
Proof.
  destruct m as [a | e]; cbn [bind]; [| discriminate].
  intros Hk. now exists a.
Qed.



Lemma Cabs_j1 : Cabs j1 = 1.
Proof.
  unfold Cabs, j1. cbn [real imag].
  replace (0 * 0 + 1 * 1) with 1 by ring. apply sqrt_1.
Qed.


Lemma _split_cubic_into_two_reversed (p0 p1 p2 p3 : complex) :
  _split_cubic_into_two p3 p2 p1 p0
  = let '((a0, a1, a2, a3), (b0, b1, b2, b3)) :=
      _split_cubic_into_two p0 p1 p2 p3 in
    ((b3, b2, b1, b0), (a3, a2, a1, a0)).
Proof.
  unfold _split_cubic_into_two. cbv zeta.
  tuple_eq; complex_eq.
Qed.

Lemma _calcCubicArcLengthCRecurse_reversed (depth : nat) (mult : R)
    (p0 p1 p2 p3 : complex) :
  _calcCubicArcLengthCRecurse depth mult p3 p2 p1 p0
  = _calcCubicArcLengthCRecurse depth mult p0 p1 p2 p3.
Proof.
  revert p0 p1 p2 p3.
  induction depth as [| depth IH]; intros p0 p1 p2 p3;
    cbn [_calcCubicArcLengthCRecurse]; [reflexivity |].
  rewrite _split_cubic_into_two_reversed.
  rewrite (Cabs_minus_sym p3 p0), (Cabs_minus_sym p3 p2),
    (Cabs_minus_sym p2 p1), (Cabs_minus_sym p1 p0).
  replace (Cabs (p2 - p3)%C + Cabs (p1 - p2)%C + Cabs (p0 - p1)%C)
    with (Cabs (p0 - p1)%C + Cabs (p1 - p2)%C + Cabs (p2 - p3)%C) by ring.
  destruct (Rleb _ _); [reflexivity |].
  destruct (_split_cubic_into_two p0 p1 p2 p3)
    as [[[[a0 a1] a2] a3] [[[b0 b1] b2] b3]].
  rewrite (IH b0 b1 b2 b3), (IH a0 a1 a2 a3).
  destruct (_calcCubicArcLengthCRecurse_nonneg depth mult a0 a1 a2 a3)
    as [(l1 & -> & _) | ->];
    destruct (_calcCubicArcLengthCRecurse_nonneg depth mult b0 b1 b2 b3)
      as [(l2 & -> & _) | ->]; cbn [bind]; try reflexivity.
  f_equal. ring.
Qed.

(** X9. The arc length of a cubic does not depend on the direction of
    travel: [calcCubicArcLengthC] gives the same result, the same length or
    the same exception, on the control points in reverse order. *)
Theorem calcCubicArcLengthC_reversed (depth : nat)
    (pt1 pt2 pt3 pt4 : complex) (tolerance : R) :
  calcCubicArcLengthC depth pt4 pt3 pt2 pt1 tolerance
  = calcCubicArcLengthC depth pt1 pt2 pt3 pt4 tolerance.
Proof.
  unfold calcCubicArcLengthC. apply _calcCubicArcLengthCRecurse_reversed.
Qed.

(** ** Arc length of a quadratic in closed form *)

Lemma _dot_Cmul (k z w : complex) :
  _dot (k * z)%C (k * w)%C = Cabs k * Cabs k * _dot z w.
Proof.
  rewrite Cabs_sqr. destruct k, z, w.
  unfold _dot, Cmul, conjugate. cbn [real imag]. ring.
Qed.

Lemma truediv_opp (a b : R) : truediv (- a) (- b) = truediv a b.
Proof.
  unfold truediv.
  destruct (Reqb_spec b 0) as [Hb | Hb].
  - rewrite Reqb_true by lra. reflexivity.
  - rewrite Reqb_false by lra. f_equal. now field.
Qed.

(** X10. [calcQuadraticArcLengthC] is invariant under the rigid motions of
    the plane: rotating the three control points by a complex factor [k]
    of modulus 1 and translating them by [v] leaves the result
    unchanged. *)
Theorem calcQuadraticArcLengthC_rigid_motion (k v pt1 pt2 pt3 : complex) :
  Cabs k = 1 ->
  calcQuadraticArcLengthC (similarity k v pt1) (similarity k v pt2)
    (similarity k v pt3)
  = calcQuadraticArcLengthC pt1 pt2 pt3.
Proof.
  intros Hk. unfold calcQuadraticArcLengthC. cbv zeta.
  assert (Habs : forall z, Cabs (k * z)%C = Cabs z).
  { intros z. rewrite Cabs_Cmul, Hk. ring. }
  assert (Hdot : forall z w, _dot (k * z)%C (k * w)%C = _dot z w).
  { intros z w. rewrite _dot_Cmul, Hk. ring. }
  assert (Hsub : forall z w,
             (similarity k v z - similarity k v w)%C = (k * (z - w))%C).
  { intros z w. unfold similarity. complex_eq. }
  assert (Hlin : forall z w, (k * z - k * w)%C = (k * (z - w))%C).
  { intros z w. complex_eq. }
  assert (Hj : forall z, (k * z * j1)%C = (k * (z * j1))%C).
  { intros z. complex_eq. }
  rewrite !Hsub, !Hlin, !Hj, !Habs, !Hdot. reflexivity.
Qed.

Lemma calcQuadraticArcLengthC_rigid_motion_witness :
  Cabs j1 = 1
  /\ calcQuadraticArcLengthC
       (similarity j1 (Complex 5 7) (Complex 0 0))
       (similarity j1 (Complex 5 7) (Complex 50 100))
       (similarity j1 (Complex 5 7) (Complex 100 0))
     = calcQuadraticArcLengthC (Complex 0 0) (Complex 50 100)
         (Complex 100 0).
Proof.
  split; [exact Cabs_j1 |].
  apply (calcQuadraticArcLengthC_rigid_motion j1 (Complex 5 7)).
  exact Cabs_j1.
Defined.

Lemma swap_numerator (i0 i1 o : R) :
  2 * (i0 - i1) * - o = 2 * (i1 - i0) * o.
Proof. ring. Qed.

Lemma swap_denominator (s x0 x1 : R) : s * (x0 - x1) = - (s * (x1 - x0)).
Proof. ring. Qed.

(** X11. The closed-form arc length of a quadratic does not depend on the
    direction of travel: [calcQuadraticArcLengthC] returns the same length
    on the control points in reverse order. *)
Theorem calcQuadraticArcLengthC_reversed (pt1 pt2 pt3 : complex) :
  calcQuadraticArcLengthC pt3 pt2 pt1 = calcQuadraticArcLengthC pt1 pt2 pt3.
Proof.
  unfold calcQuadraticArcLengthC. cbv zeta.
  set (d0 := (pt2 - pt1)%C). set (d1 := (pt3 - pt2)%C).
  set (d := (d1 - d0)%C). set (n := (d * j1)%C).
  assert (Hd : (pt1 - pt2 - (pt2 - pt3))%C = d)
    by (unfold d, d1, d0; complex_eq).
  rewrite Hd. fold n.
  assert (Ho : _dot n (pt2 - pt3)%C = - _dot n d0).
  { unfold n, d, d1, d0. destruct pt1, pt2, pt3.
    unfold _dot, Cmul, Csub, conjugate, j1. cbn [real imag]. ring. }
  assert (Hdd : _dot (pt2 - pt3)%C (pt1 - pt2)%C = _dot d0 d1).
  { unfold d1, d0. destruct pt1, pt2, pt3.
    unfold _dot, Cmul, Csub, conjugate. cbn [real imag]. ring. }
  assert (Hx0 : _dot d (pt2 - pt3)%C = - _dot d d1).
  { unfold d, d1, d0. destruct pt1, pt2, pt3.
    unfold _dot, Cmul, Csub, conjugate. cbn [real imag]. ring. }
  assert (Hx1 : _dot d (pt1 - pt2)%C = - _dot d d0).
  { unfold d, d1, d0. destruct pt1, pt2, pt3.
    unfold _dot, Cmul, Csub, conjugate. cbn [real imag]. ring. }
  rewrite Ho, Hdd, Hx0, Hx1, Rabs_Ropp, !truediv_opp.
  rewrite (Cabs_minus_sym pt1 pt3), (Cabs_minus_sym pt2 pt3),
    (Cabs_minus_sym pt1 pt2).
  fold d1 d0.
  destruct (Reqb (Cabs n) 0); [reflexivity |].
  destruct (Rltb (Rabs (_dot n d0)) epsilon).
  { destruct (Rleb 0 (_dot d0 d1)); [reflexivity |].
    apply f_equal2; ring. }
  destruct (Reqb_spec (_dot n d0) 0) as [Hz | Hz].
  { assert (Hraise : forall a, truediv a (_dot n d0)
                                 = Raise ZeroDivisionError).
    { intros a. unfold truediv. now rewrite Reqb_true. }
    rewrite !Hraise. reflexivity. }
  rewrite !(truediv_ok _ (_dot n d0)) by assumption. cbn [bind].
  destruct (_intSecAtan_ok (_dot d d1 / _dot n d0)) as [i1 ->].
  destruct (_intSecAtan_ok (_dot d d0 / _dot n d0)) as [i0 ->]. cbn [bind].
  set (x1 := _dot d d1 / _dot n d0). set (x0 := _dot d d0 / _dot n d0).
  rewrite (swap_numerator i0 i1), (swap_denominator _ x0 x1).
  unfold truediv.
  destruct (Reqb_spec (Cabs n * (x1 - x0)) 0) as [Hq | Hq].
  - rewrite Reqb_true by lra. reflexivity.
  - rewrite Reqb_false by lra. cbn [bind]. f_equal.
    rewrite <- Rabs_Ropp. f_equal. unfold Rdiv. rewrite Rinv_opp. ring.
Qed.

(** ** Arc length by Gaussian quadrature *)

(** X12. [approximateCubicArcLengthC] commutes with every similarity of
    the plane: rotating and scaling the four control points by a complex
    factor [k] and translating them by [v] multiplies the approximation by
    [abs(k)]. *)
Theorem approximateCubicArcLengthC_similarity
    (k v pt1 pt2 pt3 pt4 : complex) :
  approximateCubicArcLengthC (similarity k v pt1) (similarity k v pt2)
    (similarity k v pt3) (similarity k v pt4)
  = Cabs k * approximateCubicArcLengthC pt1 pt2 pt3 pt4.
Proof.
  unfold approximateCubicArcLengthC. cbv zeta.
  rewrite !Cabs_similarity.
  replace (similarity k v pt4 - similarity k v pt1 + similarity k v pt3
           - similarity k v pt2)%C
    with (k * (pt4 - pt1 + pt3 - pt2))%C
    by (unfold similarity; complex_eq).
  replace (Cfloat (- 0.558983582205757) * similarity k v pt1
           + Cfloat 0.325650248872424 * similarity k v pt2
           + Cfloat 0.208983582205757 * similarity k v pt3
           + Cfloat 0.024349751127576 * similarity k v pt4)%C
    with (k * (Cfloat (- 0.558983582205757) * pt1
               + Cfloat 0.325650248872424 * pt2
               + Cfloat 0.208983582205757 * pt3
               + Cfloat 0.024349751127576 * pt4))%C
    by (unfold similarity; complex_eq).
  replace (Cfloat (- 0.024349751127576) * similarity k v pt1
           - Cfloat 0.208983582205757 * similarity k v pt2
           - Cfloat 0.325650248872424 * similarity k v pt3
           + Cfloat 0.558983582205757 * similarity k v pt4)%C
    with (k * (Cfloat (- 0.024349751127576) * pt1
               - Cfloat 0.208983582205757 * pt2
               - Cfloat 0.325650248872424 * pt3
               + Cfloat 0.558983582205757 * pt4))%C
    by (unfold similarity; complex_eq).
  rewrite !Cabs_Cmul. ring.
Qed.

(** X13. The approximation that [approximateCubicArcLength] returns is
    never negative and never exceeds the length of the control polygon
    [pt1 pt2 pt3 pt4]. *)
Theorem approximateCubicArcLength_at_most_polygon (pt1 pt2 pt3 pt4 : point) :
  0 <= approximateCubicArcLength pt1 pt2 pt3 pt4
  <= dist pt1 pt2 + dist pt2 pt3 + dist pt3 pt4.
Proof.
  rewrite !dist_Cabs.
  unfold approximateCubicArcLength, approximateCubicArcLengthC. cbv zeta.
  set (p1 := complex_of pt1). set (p2 := complex_of pt2).
  set (p3 := complex_of pt3). set (p4 := complex_of pt4).
  set (A := (p1 - p2)%C). set (B := (p2 - p3)%C). set (C := (p3 - p4)%C).
  pose proof (Cabs_nonneg A) as HA. pose proof (Cabs_nonneg B) as HB.
  pose proof (Cabs_nonneg C) as HC.
  rewrite (Cabs_minus_sym p2 p1), (Cabs_minus_sym p4 p3). fold A C.
  assert (H1 : Cabs (Cfloat (- 0.558983582205757) * p1
                     + Cfloat 0.325650248872424 * p2
                     + Cfloat 0.208983582205757 * p3
                     + Cfloat 0.024349751127576 * p4)%C
               <= 0.558983582205757 * Cabs A + 0.233333333333333 * Cabs B
                  + 0.024349751127576 * Cabs C).
  { replace (Cfloat (- 0.558983582205757) * p1
             + Cfloat 0.325650248872424 * p2
             + Cfloat 0.208983582205757 * p3
             + Cfloat 0.024349751127576 * p4)%C
      with (Cfloat (- 0.558983582205757) * A
            + Cfloat (- 0.233333333333333) * B
            + Cfloat (- 0.024349751127576) * C)%C
      by (unfold A, B, C; complex_eq).
    pose proof (Cabs_triangle3 (Cfloat (- 0.558983582205757) * A)
                  (Cfloat (- 0.233333333333333) * B)
                  (Cfloat (- 0.024349751127576) * C))%C as Ht.
    rewrite !Cabs_Cfloat_mul, !Rabs_left in Ht by lra. lra. }
  assert (H2 : Cabs (p4 - p1 + p3 - p2)%C
               <= Cabs A + 2 * Cabs B + Cabs C).
  { replace (p4 - p1 + p3 - p2)%C
      with (Cfloat (- 1) * A + Cfloat (- 2) * B + Cfloat (- 1) * C)%C
      by (unfold A, B, C; complex_eq).
    pose proof (Cabs_triangle3 (Cfloat (- 1) * A) (Cfloat (- 2) * B)
                  (Cfloat (- 1) * C))%C as Ht.
    rewrite !Cabs_Cfloat_mul, !Rabs_left in Ht by lra. lra. }
  assert (H3 : Cabs (Cfloat (- 0.024349751127576) * p1
                     - Cfloat 0.208983582205757 * p2
                     - Cfloat 0.325650248872424 * p3
                     + Cfloat 0.558983582205757 * p4)%C
               <= 0.024349751127576 * Cabs A + 0.233333333333333 * Cabs B
                  + 0.558983582205757 * Cabs C).
  { replace (Cfloat (- 0.024349751127576) * p1
             - Cfloat 0.208983582205757 * p2
             - Cfloat 0.325650248872424 * p3
             + Cfloat 0.558983582205757 * p4)%C
      with (Cfloat (- 0.024349751127576) * A
            + Cfloat (- 0.233333333333333) * B
            + Cfloat (- 0.558983582205757) * C)%C
      by (unfold A, B, C; complex_eq).
    pose proof (Cabs_triangle3 (Cfloat (- 0.024349751127576) * A)
                  (Cfloat (- 0.233333333333333) * B)
                  (Cfloat (- 0.558983582205757) * C))%C as Ht.
    rewrite !Cabs_Cfloat_mul, !Rabs_left in Ht by lra. lra. }
  match goal with
  | |- _ <= _ + Cabs ?v1 + _ * _ + Cabs ?v3 + _ <= _ =>
      pose proof (Cabs_nonneg v1); pose proof (Cabs_nonneg v3)
  end.
  pose proof (Cabs_nonneg (p4 - p1 + p3 - p2)%C).
  split; lra.
Qed.

(** X14. The two quadrature approximations do not depend on the direction
    of travel: [approximateQuadraticArcLengthC] and
    [approximateCubicArcLengthC] return the same value on the control
    points in reverse order. *)
Theorem approximateArcLengthC_reversed :
  (forall pt1 pt2 pt3 : complex,
      approximateQuadraticArcLengthC pt3 pt2 pt1
      = approximateQuadraticArcLengthC pt1 pt2 pt3)
  /\ (forall pt1 pt2 pt3 pt4 : complex,
         approximateCubicArcLengthC pt4 pt3 pt2 pt1
         = approximateCubicArcLengthC pt1 pt2 pt3 pt4).
Proof.
  assert (Hneg : forall z w : complex,
             z = (Cfloat (- 1) * w)%C -> Cabs z = Cabs w).
  { intros z w ->. rewrite Cabs_Cfloat_mul, Rabs_left by lra. lra. }
  split.
  - intros pt1 pt2 pt3. unfold approximateQuadraticArcLengthC. cbv zeta.
    rewrite (Cabs_minus_sym pt1 pt3).
    rewrite (Hneg (Cfloat (- 0.492943519233745) * pt3
                   + Cfloat 0.430331482911935 * pt2
                   + Cfloat 0.0626120363218102 * pt1)%C
               (Cfloat (- 0.0626120363218102) * pt1
                - Cfloat 0.430331482911935 * pt2
                + Cfloat 0.492943519233745 * pt3)%C) by complex_eq.
    rewrite (Hneg (Cfloat (- 0.0626120363218102) * pt3
                   - Cfloat 0.430331482911935 * pt2
                   + Cfloat 0.492943519233745 * pt1)%C
               (Cfloat (- 0.492943519233745) * pt1
                + Cfloat 0.430331482911935 * pt2
                + Cfloat 0.0626120363218102 * pt3)%C) by complex_eq.
    ring.
  - intros pt1 pt2 pt3 pt4. unfold approximateCubicArcLengthC. cbv zeta.
    rewrite (Cabs_minus_sym pt3 pt4), (Cabs_minus_sym pt1 pt2).
    rewrite (Hneg (pt1 - pt4 + pt2 - pt3)%C (pt4 - pt1 + pt3 - pt2)%C)
      by complex_eq.
    rewrite (Hneg (Cfloat (- 0.558983582205757) * pt4
                   + Cfloat 0.325650248872424 * pt3
                   + Cfloat 0.208983582205757 * pt2
                   + Cfloat 0.024349751127576 * pt1)%C
               (Cfloat (- 0.024349751127576) * pt1
                - Cfloat 0.208983582205757 * pt2
                - Cfloat 0.325650248872424 * pt3
                + Cfloat 0.558983582205757 * pt4)%C) by complex_eq.
    rewrite (Hneg (Cfloat (- 0.024349751127576) * pt4
                   - Cfloat 0.208983582205757 * pt3
                   - Cfloat 0.325650248872424 * pt2
                   + Cfloat 0.558983582205757 * pt1)%C
               (Cfloat (- 0.558983582205757) * pt1
                + Cfloat 0.325650248872424 * pt2
                + Cfloat 0.208983582205757 * pt3
                + Cfloat 0.024349751127576 * pt4)%C) by complex_eq.
    ring.
Qed.

(** ** Intersections of two lines *)

(** X15. [_line_t_of_pt] inverts [linePointAtT]: it recovers the parameter
    of every point of a line, unless the two end points are close on both
    axes, where it returns -1 for every point. *)
Theorem line_t_of_pt_inverts_linePointAtT (s e : point) (t : R) :
  _line_t_of_pt s e (linePointAtT s e t)
  = if isclose (fst s) (fst e) && isclose (snd s) (snd e)
    then Ok (- 1) else Ok t.
Proof.
  destruct s as [sx sy], e as [ex ey].
  unfold _line_t_of_pt, linePointAtT. cbn [fst snd].
  destruct (isclose sx ex) eqn:Hx; cbn [negb andb].
  - destruct (isclose sy ey) eqn:Hy; cbn [negb]; [reflexivity |].
    apply isclose_false_neq in Hy.
    rewrite truediv_ok by lra. f_equal. field. lra.
  - apply isclose_false_neq in Hx.
    rewrite truediv_ok by lra. f_equal. field. lra.
Qed.

Lemma _line_t_of_pt_x (s e p : point) :
  isclose (fst s) (fst e) = false ->
  _line_t_of_pt s e p = Ok (x_parameter s e p).
Proof.
  destruct s as [sx sy], e as [ex ey], p as [px py]. cbn [fst snd].
  intros Hx. unfold _line_t_of_pt, x_parameter. rewrite Hx. cbn [negb fst snd].
  apply isclose_false_neq in Hx. now rewrite truediv_ok by lra.
Qed.

Lemma _line_t_of_pt_y (s e p : point) :
  isclose (fst s) (fst e) = true ->
  isclose (snd s) (snd e) = false ->
  _line_t_of_pt s e p = Ok (y_parameter s e p).
Proof.
  destruct s as [sx sy], e as [ex ey], p as [px py]. cbn [fst snd].
  intros Hx Hy. unfold _line_t_of_pt, y_parameter. rewrite Hx, Hy.
  cbn [negb fst snd].
  apply isclose_false_neq in Hy. now rewrite truediv_ok by lra.
Qed.

(** The two tests of [_both_points_are_on_same_side_of_origin] that
    [lineLineIntersections] makes, for a point of both lines. *)
Lemma same_side_first (s e : point) (t : R) :
  fst s <> fst e ->
  _both_points_are_on_same_side_of_origin (linePointAtT s e t) e s
  = Rltb 0 t.
Proof.
  destruct s as [sx sy], e as [ex ey]. cbn [fst snd]. intros Hx.
  unfold _both_points_are_on_same_side_of_origin, linePointAtT.
  cbn [fst snd].
  replace ((sx * (1 - t) + ex * t - sx) * (ex - sx))
    with (t * ((ex - sx) * (ex - sx))) by ring.
  replace ((sy * (1 - t) + ey * t - sy) * (ey - sy))
    with (t * ((ey - sy) * (ey - sy))) by ring.
  assert (Hsq : 0 < (ex - sx) * (ex - sx)) by nra.
  pose proof (Rle_0_sqr (ey - sy)) as Hsy. unfold Rsqr in Hsy.
  destruct (Rltb_spec 0 t) as [Ht | Ht].
  - rewrite (Rleb_false (t * ((ex - sx) * (ex - sx)))) by nra. reflexivity.
  - rewrite !Rleb_true by nra. reflexivity.
Qed.

Lemma same_side_second (s e : point) (t : R) :
  fst s <> fst e ->
  _both_points_are_on_same_side_of_origin (linePointAtT s e t) s e
  = Rltb t 1.
Proof.
  destruct s as [sx sy], e as [ex ey]. cbn [fst snd]. intros Hx.
  unfold _both_points_are_on_same_side_of_origin, linePointAtT.
  cbn [fst snd].
  replace ((sx * (1 - t) + ex * t - ex) * (sx - ex))
    with ((1 - t) * ((ex - sx) * (ex - sx))) by ring.
  replace ((sy * (1 - t) + ey * t - ey) * (sy - ey))
    with ((1 - t) * ((ey - sy) * (ey - sy))) by ring.
  assert (Hsq : 0 < (ex - sx) * (ex - sx)) by nra.
  pose proof (Rle_0_sqr (ey - sy)) as Hsy. unfold Rsqr in Hsy.
  destruct (Rltb_spec t 1) as [Ht | Ht].
  - rewrite (Rleb_false ((1 - t) * ((ex - sx) * (ex - sx)))) by nra.
    reflexivity.
  - rewrite !Rleb_true by nra. reflexivity.
Qed.

Lemma crossing_on_first (s1 e1 s2 e2 : point) :
  fst s1 <> fst e1 ->
  crossing s1 e1 s2 e2
  = linePointAtT s1 e1 (x_parameter s1 e1 (crossing s1 e1 s2 e2)).
Proof.
  destruct s1 as [ax ay], e1 as [bx by_]. cbn [fst snd]. intros Hx.
  unfold crossing, x_parameter, linePointAtT. cbn [fst snd].
  set (x := _ / (slope (ax, ay) (bx, by_) - slope s2 e2)).
  unfold slope. cbn [fst snd]. f_equal; field; lra.
Qed.

Lemma crossing_on_second (s1 e1 s2 e2 : point) :
  fst s2 <> fst e2 ->
  slope s1 e1 <> slope s2 e2 ->
  crossing s1 e1 s2 e2
  = linePointAtT s2 e2 (x_parameter s2 e2 (crossing s1 e1 s2 e2)).
Proof.
  destruct s2 as [cx cy], e2 as [dx dy]. cbn [fst snd]. intros Hx Hs.
  unfold crossing, x_parameter, linePointAtT. cbn [fst snd].
  set (m1 := slope s1 e1) in *. set (m2 := slope (cx, cy) (dx, dy)) in *.
  set (x := (m1 * fst s1 - snd s1 - m2 * cx + cy) / (m1 - m2)).
  assert (Hm2 : m2 * (dx - cx) = dy - cy).
  { unfold m2, slope. cbn [fst snd]. field. lra. }
  assert (Hxm : x * (m1 - m2) = m1 * fst s1 - snd s1 - m2 * cx + cy).
  { unfold x. field. lra. }
  f_equal.
  - field. lra.
  - replace (cy * (1 - (x - cx) / (dx - cx)) + dy * ((x - cx) / (dx - cx)))
      with (cy + (dy - cy) * ((x - cx) / (dx - cx))) by ring.
    rewrite <- Hm2.
    replace (m2 * (dx - cx) * ((x - cx) / (dx - cx))) with (m2 * (x - cx))
      by (field; lra).
    lra.
Qed.

(** X16. When neither line is close to vertical, the two lines are not
    both close to horizontal and their slopes are not close,
    [lineLineIntersections] computes the point where the two infinite lines
    cross and reports it exactly when its parameter on the first line is
    positive and its parameter on the second line is below 1; neither an
    upper bound on the first parameter nor a lower bound on the second is
    tested. *)
Theorem lineLineIntersections_one_sided_test (s1 e1 s2 e2 : point) :
  isclose (fst s1) (fst e1) = false ->
  isclose (fst s2) (fst e2) = false ->
  isclose (snd s2) (snd e2) && isclose (snd s1) (snd e1) = false ->
  isclose (slope s1 e1) (slope s2 e2) = false ->
  let pt := crossing s1 e1 s2 e2 in
  let t1 := x_parameter s1 e1 pt in
  let t2 := x_parameter s2 e2 pt in
  pt = linePointAtT s1 e1 t1
  /\ pt = linePointAtT s2 e2 t2
  /\ lineLineIntersections s1 e1 s2 e2
     = if Rltb 0 t1 && Rltb t2 1
       then Ok [mkIntersection pt t1 t2] else Ok [].
Proof.
  intros H1 H2 Hh Hs pt t1 t2.
  pose proof (isclose_false_neq _ _ H1) as N1.
  pose proof (isclose_false_neq _ _ H2) as N2.
  pose proof (isclose_false_neq _ _ Hs) as Ns.
  assert (P1 : pt = linePointAtT s1 e1 t1) by now apply crossing_on_first.
  assert (P2 : pt = linePointAtT s2 e2 t2) by now apply crossing_on_second.
  split; [exact P1 |]. split; [exact P2 |].
  assert (T1 : _line_t_of_pt s1 e1 pt = Ok t1) by now apply _line_t_of_pt_x.
  assert (T2 : _line_t_of_pt s2 e2 pt = Ok t2) by now apply _line_t_of_pt_x.
  assert (S1 : _both_points_are_on_same_side_of_origin pt e1 s1 = Rltb 0 t1).
  { rewrite P1 at 1. now apply same_side_first. }
  assert (S2 : _both_points_are_on_same_side_of_origin pt s2 e2 = Rltb t2 1).
  { rewrite P2 at 1. now apply same_side_second. }
  clearbody t1 t2.
  destruct s1 as [ax ay], e1 as [bx by_], s2 as [cx cy], e2 as [dx dy].
  cbn [fst snd] in *.
  unfold lineLineIntersections.
  rewrite H1, H2, Hh, (isclose_sym bx ax), H1. cbn [andb].
  rewrite !truediv_ok by lra. cbn [bind].
  change ((by_ - ay) / (bx - ax)) with (slope (ax, ay) (bx, by_)).
  change ((dy - cy) / (dx - cx)) with (slope (cx, cy) (dx, dy)).
  rewrite Hs. rewrite truediv_ok by lra. cbn [bind].
  change (slope (ax, ay) (bx, by_)
            * ((slope (ax, ay) (bx, by_) * ax - ay
                - slope (cx, cy) (dx, dy) * cx + cy)
               / (slope (ax, ay) (bx, by_) - slope (cx, cy) (dx, dy)) - ax)
          + ay)
    with (snd pt).
  change ((slope (ax, ay) (bx, by_) * ax - ay
           - slope (cx, cy) (dx, dy) * cx + cy)
          / (slope (ax, ay) (bx, by_) - slope (cx, cy) (dx, dy)))
    with (fst pt).
  replace (fst pt, snd pt) with pt by (destruct pt; reflexivity).
  rewrite S1, S2, T1, T2. cbn [bind].
  reflexivity.
Qed.

Lemma lineLineIntersections_one_sided_test_witness :
  x_parameter (0, 0) (1, 1) (crossing (0, 0) (1, 1) (3, 1) (4, 0)) = 2
  /\ x_parameter (3, 1) (4, 0) (crossing (0, 0) (1, 1) (3, 1) (4, 0)) = - 1
  /\ lineLineIntersections (0, 0) (1, 1) (3, 1) (4, 0)
     = Ok [mkIntersection (crossing (0, 0) (1, 1) (3, 1) (4, 0)) 2 (- 1)].
Proof.
  assert (S1 : slope (0, 0) (1, 1) = 1)
    by (unfold slope; cbn [fst snd]; field).
  assert (S2 : slope (3, 1) (4, 0) = - 1)
    by (unfold slope; cbn [fst snd]; field).
  assert (T1 : x_parameter (0, 0) (1, 1)
                 (crossing (0, 0) (1, 1) (3, 1) (4, 0)) = 2).
  { unfold x_parameter, crossing. rewrite S1, S2. cbn [fst snd]. field. }
  assert (T2 : x_parameter (3, 1) (4, 0)
                 (crossing (0, 0) (1, 1) (3, 1) (4, 0)) = - 1).
  { unfold x_parameter, crossing. rewrite S1, S2. cbn [fst snd]. field. }
  split; [exact T1 |]. split; [exact T2 |].
  destruct (lineLineIntersections_one_sided_test (0, 0) (1, 1) (3, 1) (4, 0))
    as (_ & _ & Hcall).
  - cbn [fst snd]. concrete_isclose.
  - cbn [fst snd]. concrete_isclose.
  - cbn [fst snd].
    replace (isclose 1 0) with false; [reflexivity |].
    symmetry. concrete_isclose.
  - rewrite S1, S2. concrete_isclose.
  - rewrite Hcall, T1, T2.
    rewrite (Rltb_true 0 2), (Rltb_true (- 1) 1) by lra. reflexivity.
Defined.

(** X17. When the second line is close to vertical and not a point, and
    the first line is not close to vertical, [lineLineIntersections]
    reports exactly one intersection, the point of the first line at the x
    coordinate of the start of the second line, without any test on the
    two parameters. *)
Theorem lineLineIntersections_vertical_second (s1 e1 s2 e2 : point) :
  isclose (fst s2) (fst e2) = true ->
  isclose (snd s2) (snd e2) = false ->
  isclose (fst s1) (fst e1) = false ->
  vertical_crossing s1 e1 s2
  = linePointAtT s1 e1 (x_parameter s1 e1 (vertical_crossing s1 e1 s2))
  /\ lineLineIntersections s1 e1 s2 e2
     = Ok [mkIntersection (vertical_crossing s1 e1 s2)
             (x_parameter s1 e1 (vertical_crossing s1 e1 s2))
             (y_parameter s2 e2 (vertical_crossing s1 e1 s2))].
Proof.
  intros H2 Hy H1.
  pose proof (isclose_false_neq _ _ H1) as N1.
  pose proof (_line_t_of_pt_x s1 e1 (vertical_crossing s1 e1 s2) H1) as T1.
  pose proof (_line_t_of_pt_y s2 e2 (vertical_crossing s1 e1 s2) H2 Hy)
    as T2.
  destruct s1 as [ax ay], e1 as [bx by_], s2 as [cx cy], e2 as [dx dy].
  cbn [fst snd] in *. split.
  - unfold vertical_crossing, x_parameter, linePointAtT, slope.
    cbn [fst snd]. f_equal; field; lra.
  - unfold lineLineIntersections.
    rewrite H2, Hy, (isclose_sym bx ax), H1. cbn [andb].
    rewrite truediv_ok by lra. cbn [bind].
    change ((by_ - ay) / (bx - ax)) with (slope (ax, ay) (bx, by_)).
    change (cx, slope (ax, ay) (bx, by_) * (cx - ax) + ay)
      with (vertical_crossing (ax, ay) (bx, by_) (cx, cy)).
    rewrite T1, T2. reflexivity.
Qed.

Lemma lineLineIntersections_vertical_second_witness :
  lineLineIntersections (0, 0) (1, 1) (5, 0) (5, 1)
  = Ok [mkIntersection (vertical_crossing (0, 0) (1, 1) (5, 0))
          (x_parameter (0, 0) (1, 1) (vertical_crossing (0, 0) (1, 1) (5, 0)))
          (y_parameter (5, 0) (5, 1)
             (vertical_crossing (0, 0) (1, 1) (5, 0)))].
Proof.
  apply (lineLineIntersections_vertical_second (0, 0) (1, 1) (5, 0) (5, 1));
    cbn [fst snd]; concrete_isclose.
Defined.

(** Closes a goal on a call that returns one intersection once the two
    calls of [_line_t_of_pt] have returned. *)
Ltac one_intersection :=
  repeat match goal with
    | |- context [_line_t_of_pt ?s ?e ?p] =>
        let t := fresh "t" in
        destruct (_line_t_of_pt_total s e p) as [t ->]; cbn [bind]
    end;
  match goal with
  | |- (exists l, Ok [_] = Ok l /\ _) \/ _ =>
      left; eexists; split; [reflexivity | cbn; lia]
  end.

(** X18. [lineLineIntersections] never divides by zero: it either returns
    a list of at most one intersection or raises NameError. *)
Theorem lineLineIntersections_outcomes (s1 e1 s2 e2 : point) :
  (exists l, lineLineIntersections s1 e1 s2 e2 = Ok l
             /\ (length l <= 1)%nat)
  \/ lineLineIntersections s1 e1 s2 e2 = Raise NameError.
Proof.
  destruct s1 as [ax ay], e1 as [bx by_], s2 as [cx cy], e2 as [dx dy].
  unfold lineLineIntersections, xy.
  destruct (isclose cx dx) eqn:Hcd; destruct (isclose ax bx) eqn:Hab;
    cbn [andb]; try (left; exists []; split; [reflexivity | cbn; lia]);
    destruct (isclose cy dy) eqn:Hcdy; destruct (isclose ay by_) eqn:Haby;
    cbn [andb]; try (left; exists []; split; [reflexivity | cbn; lia]);
    rewrite (isclose_sym bx ax), Hab;
    try (right; reflexivity).
  all: pose proof (isclose_false_neq _ _ Hab) as Nab.
  all: rewrite ?(truediv_ok (by_ - ay) (bx - ax)) by lra; cbn [bind].
  all: try (one_intersection; fail).
  all: pose proof (isclose_false_neq _ _ Hcd) as Ncd.
  all: rewrite (truediv_ok (dy - cy) (dx - cx)) by lra; cbn [bind].
  all: match goal with
       | |- context [if isclose ?a ?b then _ else _] =>
           destruct (isclose a b) eqn:Hs
       end;
    [left; exists []; split; [reflexivity | cbn; lia] |].
  all: apply isclose_false_neq in Hs.
  all: rewrite truediv_ok by lra; cbn [bind].
  all: destruct (_ && _);
    [| left; exists []; split; [reflexivity | cbn; lia]].
  all: one_intersection.
Qed.

(** ** Intersections of two curves *)

Lemma _unique_incl (precision : R) (found : list (R * R)) :
  forall seen l, _unique precision seen found = Ok l -> incl l found.
Proof.
  induction found as [| ts rest IH]; intros seen l; cbn [_unique].
  - intros [= <-]. apply incl_refl.
  - intros Hl. apply bind_Ok_inv in Hl as (q & _ & Hl).
    destruct (existsb _ seen).
    + apply incl_tl. now apply (IH seen).
    + apply bind_Ok_inv in Hl as (kept & Hkept & [= <-]).
      apply incl_cons; [now left |]. apply incl_tl. now apply (IH _ _ Hkept).
Qed.

Lemma _unique_keys (precision : R) (found : list (R * R)) :
  precision <> 0 ->
  forall seen l,
    _unique precision seen found = Ok l ->
    NoDup (map (unique_key precision) l)
    /\ Forall (fun ts => ~ In (unique_key precision ts) seen) l.
Proof.
  intros Hp.
  induction found as [| ts rest IH]; intros seen l; cbn [_unique].
  - intros [= <-]. split; constructor.
  - rewrite truediv_ok by assumption. cbn [bind].
    fold (unique_key precision ts).
    destruct (existsb _ seen) eqn:Hseen; [apply IH |].
    intros Hl. apply bind_Ok_inv in Hl as (kept & Hkept & [= <-]).
    destruct (IH _ _ Hkept) as [Hnodup Hall].
    split.
    + cbn [map]. constructor; [| exact Hnodup].
      intros Hin. apply in_map_iff in Hin as (ts' & Hkey & Hin).
      rewrite Forall_forall in Hall. apply (Hall ts' Hin).
      left. now symmetry.
    + constructor.
      * intros Hin.
        assert (Hex : existsb (Z.eqb (unique_key precision ts)) seen = true).
        { apply existsb_exists. exists (unique_key precision ts).
          split; [exact Hin | apply Z.eqb_refl]. }
        congruence.
      * eapply Forall_impl; [| exact Hall].
        intros ts' Hnot Hin. apply Hnot. now right.
Qed.

Lemma _curve_curve_intersections_t_ranges (depth : nat) (precision : R) :
  forall (curve1 curve2 : segment) (range1 range2 : R * R)
         (l : list (R * R)),
    _curve_curve_intersections_t depth curve1 curve2 precision
      (Some range1) (Some range2) = Ok l ->
    fst range1 < snd range1 ->
    fst range2 < snd range2 ->
    Forall (fun ts => fst range1 < fst ts < snd range1
                      /\ fst range2 < snd ts < snd range2) l.
Proof.
  induction depth as [| depth IH];
    intros curve1 curve2 range1 range2 l Hl Hr1 Hr2;
    cbn [_curve_curve_intersections_t] in Hl; [discriminate |].
  apply bind_Ok_inv in Hl as (b1 & _ & Hl).
  apply bind_Ok_inv in Hl as (b2 & _ & Hl).
  cbv beta iota zeta in Hl.
  apply bind_Ok_inv in Hl as ([intersects rect] & _ & Hl).
  destruct intersects; cbn [negb] in Hl; [| injection Hl as <-; constructor].
  destruct b1 as [b1 |]; [| discriminate].
  destruct b2 as [b2 |]; [| discriminate].
  destruct (_ && _) in Hl.
  { injection Hl as <-. constructor; [| constructor].
    unfold midpoint. cbn [fst snd]. lra. }
  apply bind_Ok_inv in Hl as (halves1 & _ & Hl).
  apply bind_Ok_inv in Hl as ([c11 c12] & _ & Hl).
  apply bind_Ok_inv in Hl as (halves2 & _ & Hl).
  apply bind_Ok_inv in Hl as ([c21 c22] & _ & Hl).
  apply bind_Ok_inv in Hl as (f1 & Hf1 & Hl).
  apply bind_Ok_inv in Hl as (f2 & Hf2 & Hl).
  apply bind_Ok_inv in Hl as (f3 & Hf3 & Hl).
  apply bind_Ok_inv in Hl as (f4 & Hf4 & Hl).
  apply _unique_incl in Hl.
  assert (Hm1 : fst range1 < midpoint range1 < snd range1)
    by (unfold midpoint; lra).
  assert (Hm2 : fst range2 < midpoint range2 < snd range2)
    by (unfold midpoint; lra).
  apply IH in Hf1; cbn [fst snd]; try lra.
  apply IH in Hf2; cbn [fst snd]; try lra.
  apply IH in Hf3; cbn [fst snd]; try lra.
  apply IH in Hf4; cbn [fst snd]; try lra.
  cbn [fst snd] in *.
  apply Forall_forall. intros ts Hin. apply Hl in Hin.
  rewrite Forall_forall in Hf1, Hf2, Hf3, Hf4.
  rewrite !in_app_iff in Hin.
  destruct Hin as [Hin | [Hin | [Hin | Hin]]];
    [apply Hf1 in Hin | apply Hf2 in Hin | apply Hf3 in Hin
     | apply Hf4 in Hin]; lra.
Qed.

Lemma _curve_curve_intersections_t_keys (depth : nat) (precision : R)
    (curve1 curve2 : segment) (range1 range2 : option (R * R))
    (l : list (R * R)) :
  precision <> 0 ->
  _curve_curve_intersections_t depth curve1 curve2 precision range1 range2
  = Ok l ->
  NoDup (map (unique_key precision) l).
Proof.
  intros Hp Hl. destruct depth as [| depth];
    cbn [_curve_curve_intersections_t] in Hl; [discriminate |].
  apply bind_Ok_inv in Hl as (b1 & _ & Hl).
  apply bind_Ok_inv in Hl as (b2 & _ & Hl).
  cbv beta iota zeta in Hl.
  apply bind_Ok_inv in Hl as ([intersects rect] & _ & Hl).
  destruct intersects; cbn [negb] in Hl; [| injection Hl as <-; constructor].
  destruct b1 as [b1 |]; [| discriminate].
  destruct b2 as [b2 |]; [| discriminate].
  destruct (_ && _) in Hl.
  { injection Hl as <-. cbn [map]. constructor; [intros [] | constructor]. }
  apply bind_Ok_inv in Hl as (halves1 & _ & Hl).
  apply bind_Ok_inv in Hl as ([c11 c12] & _ & Hl).
  apply bind_Ok_inv in Hl as (halves2 & _ & Hl).
  apply bind_Ok_inv in Hl as ([c21 c22] & _ & Hl).
  apply bind_Ok_inv in Hl as (f1 & _ & Hl).
  apply bind_Ok_inv in Hl as (f2 & _ & Hl).
  apply bind_Ok_inv in Hl as (f3 & _ & Hl).
  apply bind_Ok_inv in Hl as (f4 & _ & Hl).
  now apply (_unique_keys precision _ Hp) in Hl.
Qed.

Lemma default_precision_neq_0 : default_precision <> 0.
Proof. unfold default_precision. lra. Qed.

(** X19. Every intersection that [curveCurveIntersections] returns has
    both parameters strictly between 0 and 1: the parameters are midpoints
    of the subdivided ranges, so that a crossing at an end point of a curve
    is reported at a parameter inside the curve. *)
Theorem curveCurveIntersections_parameters_inside (depth : nat)
    (curve1 curve2 : segment) (res : list Intersection) :
  curveCurveIntersections depth curve1 curve2 = Ok res ->
  Forall (fun i => 0 < t1 i < 1 /\ 0 < t2 i < 1) res.
Proof.
  intros Hres.
  apply curveCurveIntersections_records in Hres as (tss & Htss & Hrec).
  assert (Hall : Forall (fun ts => 0 < fst ts < 1 /\ 0 < snd ts < 1) tss).
  { destruct depth as [| depth]; [discriminate |].
    assert (Hsome : _curve_curve_intersections_t (S depth) curve1 curve2
                      default_precision (Some (0.0, 1.0)) (Some (0.0, 1.0))
                    = Ok tss) by exact Htss.
    apply _curve_curve_intersections_t_ranges in Hsome;
      cbn [fst snd] in *; try lra.
    eapply Forall_impl; [| exact Hsome]. cbn beta. intros ts. lra. }
  clear Htss.
  induction Hrec as [| ts i tss res (_ & Ht1 & Ht2) _ IH]; constructor.
  - rewrite Ht1, Ht2. now inversion Hall.
  - apply IH. now inversion Hall.
Qed.

Lemma curveCurveIntersections_parameters_inside_witness :
  Forall (fun i => 0 < t1 i < 1 /\ 0 < t2 i < 1)
    [mkIntersection (0.01, 0.01) 0.5 0.5].
Proof.
  apply (curveCurveIntersections_parameters_inside 1 small_curve1
           small_curve2).
  exact curveCurveIntersections_small_curves.
Defined.

(** X20. [curveCurveIntersections] returns at most one intersection for
    each value of [int(t1 / precision)], with the default precision 0.001:
    the keys of the returned intersections are pairwise different, and so
    are their parameters on the first curve. *)
Theorem curveCurveIntersections_one_per_key (depth : nat)
    (curve1 curve2 : segment) (res : list Intersection) :
  curveCurveIntersections depth curve1 curve2 = Ok res ->
  NoDup (map (fun i => int (t1 i / default_precision)) res)
  /\ NoDup (map t1 res).
Proof.
  intros Hres.
  apply curveCurveIntersections_records in Hres as (tss & Htss & Hrec).
  apply (_curve_curve_intersections_t_keys _ _ _ _ _ _ _
           default_precision_neq_0) in Htss.
  assert (Hmap : map (fun i => int (t1 i / default_precision)) res
                 = map (unique_key default_precision) tss).
  { clear Htss.
    induction Hrec as [| ts i tss res (_ & Ht1 & _) _ IH]; [reflexivity |].
    cbn [map]. rewrite IH, Ht1. reflexivity. }
  assert (Hkeys : NoDup (map (fun i => int (t1 i / default_precision)) res))
    by now rewrite Hmap.
  split; [exact Hkeys |].
  replace (map (fun i => int (t1 i / default_precision)) res)
    with (map (fun t => int (t / default_precision)) (map t1 res)) in Hkeys
    by now rewrite map_map.
  now apply NoDup_map_inv in Hkeys.
Qed.

(** The bounding box of a straight quadratic, one whose control point lies
    in the middle of its end points, that climbs to the right. *)
Lemma _curve_bounds_straight (x1 y1 x2 y2 x3 y3 : R) :
  x2 - x1 = x3 - x2 -> y2 - y1 = y3 - y2 -> x1 <= x3 -> y1 <= y3 ->
  _curve_bounds [(x1, y1); (x2, y2); (x3, y3)] = Ok (Some (x1, y1, x3, y3)).
Proof.
  intros Hx Hy Hx13 Hy13.
  unfold _curve_bounds. cbn [length Nat.eqb star3 bind].
  unfold calcQuadraticBounds, calcQuadraticParameters.
  rewrite (Reqb_true ((x3 - x1 - (x2 - x1) * 2.0) * 2.0)) by lra.
  rewrite (Reqb_true ((y3 - y1 - (y2 - y1) * 2.0) * 2.0)) by lra.
  cbn [bind app filter map calcBounds fold_left fst snd].
  rewrite (Rmin_left x1 x3), (Rmin_left y1 y3), (Rmax_right x1 x3),
    (Rmax_right y1 y3) by lra.
  reflexivity.
Qed.

(** The two halves of a quadratic, by de Casteljau's construction. *)
Lemma _split_segment_at_t_halves (x1 y1 x2 y2 x3 y3 : R) :
  _split_segment_at_t [(x1, y1); (x2, y2); (x3, y3)] 0.5
  = Ok (Some [[(x1, y1); ((x1 + x2) / 2, (y1 + y2) / 2);
               ((x1 + 2 * x2 + x3) / 4, (y1 + 2 * y2 + y3) / 4)];
              [((x1 + 2 * x2 + x3) / 4, (y1 + 2 * y2 + y3) / 4);
               ((x2 + x3) / 2, (y2 + y3) / 2); (x3, y3)]]).
Proof.
  unfold _split_segment_at_t. cbn [length Nat.eqb star3 bind].
  unfold splitQuadraticAtT, calcQuadraticParameters, _splitQuadraticAtT.
  cbn [app length Nat.sub seq map nth Nat.add].
  unfold calcQuadraticPoints. cbn [map].
  do 2 f_equal.
  repeat match goal with
    | |- _ :: _ = _ :: _ => apply f_equal2
    | |- (_, _) = (_, _) => apply f_equal2
    end; try reflexivity; decimals; field.
Qed.

(** The two ways in which a call of [_curve_curve_intersections_t] ends
    without subdividing: the bounding boxes do not overlap, or they overlap
    and both have an area below the precision. *)
Lemma _curve_curve_intersections_t_apart (depth : nat)
    (curve1 curve2 : segment) (precision : R) (range1 range2 : R * R)
    (xMin1 yMin1 xMax1 yMax1 xMin2 yMin2 xMax2 yMax2 : R) :
  _curve_bounds curve1 = Ok (Some (xMin1, yMin1, xMax1, yMax1)) ->
  _curve_bounds curve2 = Ok (Some (xMin2, yMin2, xMax2, yMax2)) ->
  Rmin xMax1 xMax2 <= Rmax xMin1 xMin2
  \/ Rmin yMax1 yMax2 <= Rmax yMin1 yMin2 ->
  _curve_curve_intersections_t (S depth) curve1 curve2 precision
    (Some range1) (Some range2)
  = Ok [].
Proof.
  intros H1 H2 Hsect. cbn [_curve_curve_intersections_t].
  rewrite H1, H2. cbn [bind]. unfold sectRect.
  destruct Hsect as [Hx | Hy].
  - rewrite (Rleb_true _ _ Hx). reflexivity.
  - rewrite (Rleb_true _ _ Hy), Bool.orb_true_r. reflexivity.
Qed.

Lemma _curve_curve_intersections_t_tiny (depth : nat)
    (curve1 curve2 : segment) (precision : R) (range1 range2 : R * R)
    (xMin1 yMin1 xMax1 yMax1 xMin2 yMin2 xMax2 yMax2 : R) :
  _curve_bounds curve1 = Ok (Some (xMin1, yMin1, xMax1, yMax1)) ->
  _curve_bounds curve2 = Ok (Some (xMin2, yMin2, xMax2, yMax2)) ->
  Rmax xMin1 xMin2 < Rmin xMax1 xMax2 ->
  Rmax yMin1 yMin2 < Rmin yMax1 yMax2 ->
  (yMax1 - yMin1) * (xMax1 - xMin1) < precision ->
  (yMax2 - yMin2) * (xMax2 - xMin2) < precision ->
  _curve_curve_intersections_t (S depth) curve1 curve2 precision
    (Some range1) (Some range2)
  = Ok [(midpoint range1, midpoint range2)].
Proof.
  intros H1 H2 Hx Hy Ha1 Ha2. cbn [_curve_curve_intersections_t].
  rewrite H1, H2. cbn [bind]. unfold sectRect.
  rewrite (Rleb_false _ _ Hx), (Rleb_false _ _ Hy). cbn [orb bind negb].
  unfold rectArea. now rewrite !Rltb_true by assumption.
Qed.

(** The two kinds of leaves, for straight quadratics with concrete
    coordinates. *)
Ltac leaf_tiny depth :=
  erewrite (_curve_curve_intersections_t_tiny depth);
  [ | apply _curve_bounds_straight; lra
    | apply _curve_bounds_straight; lra
    | concrete_cases | concrete_cases
    | unfold default_precision; lra | unfold default_precision; lra ].

Ltac leaf_apart depth :=
  erewrite (_curve_curve_intersections_t_apart depth);
  [ | apply _curve_bounds_straight; lra
    | apply _curve_bounds_straight; lra
    | first [ left; concrete_cases; fail | right; concrete_cases; fail ] ].

Lemma int_of_nonneg (x : R) (z : Z) :
  0 <= IZR z -> IZR z <= x < IZR z + 1 -> int x = z.
Proof.
  intros Hz Hx. unfold int. rewrite Rleb_true by lra.
  pose proof (Int_part_bounds x) as Hb.
  assert (H1 : (z < Int_part x + 1)%Z)
    by (apply lt_IZR; rewrite plus_IZR; lra).
  assert (H2 : (Int_part x < z + 1)%Z)
    by (apply lt_IZR; rewrite plus_IZR; lra).
  lia.
Qed.

(** The two crossing curves, at any budget of two or more nested calls:
    the four pairs of halves give the parameters (0.25, 0.25),
    (0.75, 0.25) and (0.75, 0.75); the third has the key of the second,
    750, and is left out. *)
Lemma curveCurveIntersections_crossing_curves (depth : nat) :
  curveCurveIntersections (S (S depth)) crossing_curve1 crossing_curve2
  = Ok [mkIntersection (0.5, 0.000244140625) 0.25 0.25;
        mkIntersection (1.5, 0.000732421875) 0.75 0.25].
Proof.
  unfold curveCurveIntersections, crossing_curve1, crossing_curve2.
  remember (S depth) as d eqn:Hd.
  cbn [_curve_curve_intersections_t].
  rewrite !_curve_bounds_straight by lra. cbn [bind].
  unfold sectRect at 1. eval_float. cbn [orb bind negb].
  unfold rectArea at 1 2, default_precision at 1 2.
  rewrite (Rltb_false ((0.0009765625 - 0) * (2 - 0))) by lra.
  cbn [andb].
  rewrite !_split_segment_at_t_halves.
  cbn [bind unpack_halves unpack2 fst snd].
  subst d.
  leaf_tiny depth. leaf_tiny depth. leaf_apart depth. leaf_tiny depth.
  cbn [bind app].
  assert (K1 : int (midpoint (0.0, midpoint (0.0, 1.0)) / default_precision)
               = 250%Z).
  { apply int_of_nonneg; unfold midpoint, default_precision;
      cbn [fst snd]; lra. }
  assert (K2 : int (midpoint (midpoint (0.0, 1.0), 1.0) / default_precision)
               = 750%Z).
  { apply int_of_nonneg; unfold midpoint, default_precision;
      cbn [fst snd]; lra. }
  cbn [_unique fst].
  rewrite !(truediv_ok _ default_precision) by apply default_precision_neq_0.
  cbn [bind]. rewrite !K1, !K2.
  cbn [existsb orb].
  change (Z.eqb 750 250) with false. change (Z.eqb 750 750) with true.
  cbn [existsb orb bind for_each fst snd].
  unfold segmentPointAtT. cbn [length Nat.eqb star3 bind].
  unfold quadraticPointAtT, midpoint. cbn [fst snd].
  f_equal.
  repeat match goal with |- _ :: _ = _ :: _ => apply f_equal2 end;
    try reflexivity; apply Intersection_eq; cbn [fst snd]; lra.
Qed.

Lemma curveCurveIntersections_one_per_key_witness :
  NoDup (map (fun i => int (t1 i / default_precision))
           [mkIntersection (0.5, 0.000244140625) 0.25 0.25;
            mkIntersection (1.5, 0.000732421875) 0.75 0.25])
  /\ NoDup (map t1 [mkIntersection (0.5, 0.000244140625) 0.25 0.25;
                    mkIntersection (1.5, 0.000732421875) 0.75 0.25]).
Proof.
  apply (curveCurveIntersections_one_per_key 2 crossing_curve1
           crossing_curve2).
  exact (curveCurveIntersections_crossing_curves 0).
Defined.

(** ** Intersections of a curve and a line, dispatch *)

Section CurveLineOrder.

Context `{TransformLib}.

Lemma _curve_line_intersections_t_cubic_sorted (p0 p1 p2 p3 s e : point) :
  exists ts,
    _curve_line_intersections_t [p0; p1; p2; p3] [s; e] = Ok ts
    /\ Sorted Rle ts /\ (length ts <= 6)%nat.
Proof.
  unfold _curve_line_intersections_t, _alignment_transformation.
  cbn [first last rev app bind length Nat.eqb transformPoints map].
  unfold calcCubicParameters_star. cbn [star4 bind].
  destruct (calcCubicParameters _ _ _ _) as [[[a b] c] d].
  cbn [bind unpack4].
  destruct (solveCubic_total (fst a) (fst b) (fst c) (fst d)) as [xs Hxs].
  destruct (solveCubic_total (snd a) (snd b) (snd c) (snd d)) as [ys Hys].
  rewrite Hxs, Hys. cbn [bind]. eexists. split; [reflexivity |].
  split; [apply sorted_Sorted |].
  apply solveCubic_length in Hxs. apply solveCubic_length in Hys.
  pose proof (sorted_filter_length in_unit_closed (xs ++ ys)) as Hlen.
  rewrite length_app in Hlen. lia.
Qed.

(** X21. For a cubic curve and a line, [curveLineIntersections] returns at
    most six intersections, in ascending order of the parameter [t1] on the
    curve, and the [t2] of each is what [_line_t_of_pt] gives for its point
    on the line. *)
Theorem curveLineIntersections_cubic_ordered (p0 p1 p2 p3 s e : point) :
  exists res,
    curveLineIntersections [p0; p1; p2; p3] [s; e] = Ok res
    /\ Sorted Rle (map t1 res)
    /\ (length res <= 6)%nat
    /\ Forall (fun i => _line_t_of_pt s e (pt i) = Ok (t2 i)) res.
Proof.
  unfold curveLineIntersections. cbn [length Nat.eqb bind].
  destruct (_curve_line_intersections_t_cubic_sorted p0 p1 p2 p3 s e)
    as (ts & -> & Hsorted & Hlen).
  cbn [bind].
  assert (Hres : exists res,
             for_each
               (fun t =>
                  pt <- ('(pt1, pt2, pt3, pt4) <- star4 [p0; p1; p2; p3] ;;
                         Ok (cubicPointAtT pt1 pt2 pt3 pt4 t)) ;;
                  '(s0, e0) <- star2 [s; e] ;;
                  t2 <- _line_t_of_pt s0 e0 pt ;;
                  Ok (mkIntersection pt t t2))
               ts = Ok res
             /\ map t1 res = ts
             /\ Forall (fun i => _line_t_of_pt s e (pt i) = Ok (t2 i)) res).
  { clear Hsorted Hlen.
    induction ts as [| t ts IH]; cbn [for_each star4 star2 bind].
    - exists []. repeat split. constructor.
    - destruct (_line_t_of_pt_total s e (cubicPointAtT p0 p1 p2 p3 t))
        as [t2' Ht2].
      rewrite Ht2. cbn [bind].
      destruct IH as (res & Hres & Hmap & Hall).
      cbn [star4 star2 bind] in Hres. rewrite Hres.
      eexists. split; [reflexivity |]. split.
      + cbn [map t1]. now rewrite Hmap.
      + constructor; [exact Ht2 | exact Hall]. }
  destruct Hres as (res & Hres & Hmap & Hall).
  exists res. split; [exact Hres |]. split; [now rewrite Hmap |].
  split; [| exact Hall].
  rewrite <- Hmap, length_map in Hlen. exact Hlen.
Qed.

(** X22. [segmentSegmentIntersections] arranges its arguments by degree:
    for two segments of different lengths the result does not depend on
    the order of the arguments.  With a line as first argument and a cubic
    as second, [t1] is therefore the parameter on the second argument, the
    cubic, and [pt] is the point of the cubic at [t1]. *)
Theorem segmentSegmentIntersections_arranged :
  (forall (depth : nat) (seg1 seg2 : segment),
      length seg1 <> length seg2 ->
      segmentSegmentIntersections depth seg1 seg2
      = segmentSegmentIntersections depth seg2 seg1)
  /\ (forall (depth : nat) (s e p0 p1 p2 p3 : point),
         exists res,
           segmentSegmentIntersections depth [s; e] [p0; p1; p2; p3]
           = Ok res
           /\ Forall (fun i => pt i = cubicPointAtT p0 p1 p2 p3 (t1 i)) res).
Proof.
  split.
  - intros depth seg1 seg2 Hlen. unfold segmentSegmentIntersections.
    destruct (Nat.ltb_spec (length seg1) (length seg2));
      destruct (Nat.ltb_spec (length seg2) (length seg1));
      try reflexivity; lia.
  - intros depth s e p0 p1 p2 p3.
    destruct (curveLineIntersections_cubic p0 p1 p2 p3 s e)
      as (res & Hres & Hall).
    exists res. split.
    + unfold segmentSegmentIntersections. cbn [length Nat.ltb Nat.leb].
      exact Hres.
    + eapply Forall_impl; [| exact Hall]. cbn beta. intros i [Hpt _].
      exact Hpt.
Qed.

End CurveLineOrder.

Lemma segmentSegmentIntersections_arranged_witness :
  @segmentSegmentIntersections affine_TransformLib 1
    [(0, 0); (1, 1)] [(0, 0); (1, 2); (3, 2); (4, 0)]
  = @segmentSegmentIntersections affine_TransformLib 1
      [(0, 0); (1, 2); (3, 2); (4, 0)] [(0, 0); (1, 1)].
Proof.
  destruct (@segmentSegmentIntersections_arranged affine_TransformLib)
    as [Hswap _].
  apply Hswap. cbn [length]. lia.
Defined.

(** ** Bounding boxes and the control points *)

Lemma calcBounds_fold_within (c : Bounds) (rest : list point) :
  forall acc : Bounds,
    rect_within acc c ->
    Forall (inside c) rest ->
    rect_within
      (fold_left
         (fun (acc : Bounds) (p : point) =>
            let '(xMin, yMin, xMax, yMax) := acc in
            (Rmin xMin (fst p), Rmin yMin (snd p),
             Rmax xMax (fst p), Rmax yMax (snd p)))
         rest acc) c.
Proof.
  induction rest as [| q rest IH]; intros acc Hacc Hall; cbn [fold_left].
  - exact Hacc.
  - inversion Hall as [| q' rest' Hq Hrest]; subst.
    apply IH; [| exact Hrest].
    destruct acc as [[[xm ym] xM] yM]. unfold rect_within, inside in *.
    cbn [xMin_of yMin_of xMax_of yMax_of fst snd] in *.
    repeat split;
      first [ apply Rmin_glb; lra | apply Rmax_lub; lra ].
Qed.

Lemma calcBounds_within (c : Bounds) (points : list point) :
  points <> [] ->
  Forall (inside c) points ->
  rect_within (calcBounds points) c.
Proof.
  destruct points as [| [x0 y0] rest]; [congruence |].
  intros _ Hall. inversion Hall as [| q' rest' Hq Hrest]; subst.
  unfold calcBounds. apply calcBounds_fold_within; [| exact Hrest].
  unfold rect_within, inside in *.
  cbn [xMin_of yMin_of xMax_of yMax_of fst snd] in *. lra.
Qed.

(** A quadratic and a cubic in the Bernstein basis stay between the least
    and the greatest of their coefficients on the unit interval. *)
Lemma bernstein2_between (m M x1 x2 x3 t : R) :
  0 <= t <= 1 ->
  m <= x1 <= M -> m <= x2 <= M -> m <= x3 <= M ->
  m <= (1 - t) * (1 - t) * x1 + 2 * (1 - t) * t * x2 + t * t * x3 <= M.
Proof.
  intros Ht H1 H2 H3.
  assert (B0 : 0 <= (1 - t) * (1 - t)) by nra.
  assert (B1 : 0 <= 2 * (1 - t) * t) by nra.
  assert (B2 : 0 <= t * t) by nra.
  assert (Bs : (1 - t) * (1 - t) + 2 * (1 - t) * t + t * t = 1) by ring.
  split; nra.
Qed.

Lemma bernstein3_between (m M x1 x2 x3 x4 t : R) :
  0 <= t <= 1 ->
  m <= x1 <= M -> m <= x2 <= M -> m <= x3 <= M -> m <= x4 <= M ->
  m <= (1 - t) * (1 - t) * (1 - t) * x1 + 3 * (1 - t) * (1 - t) * t * x2
       + 3 * (1 - t) * t * t * x3 + t * t * t * x4 <= M.
Proof.
  intros Ht H1 H2 H3 H4.
  assert (T0 : 0 <= (1 - t) * (1 - t)) by nra.
  assert (T1 : 0 <= t * t) by nra.
  assert (B0 : 0 <= (1 - t) * (1 - t) * (1 - t)) by nra.
  assert (B1 : 0 <= 3 * (1 - t) * (1 - t) * t) by nra.
  assert (B2 : 0 <= 3 * (1 - t) * t * t) by nra.
  assert (B3 : 0 <= t * t * t) by nra.
  assert (Bs : (1 - t) * (1 - t) * (1 - t) + 3 * (1 - t) * (1 - t) * t
               + 3 * (1 - t) * t * t + t * t * t = 1) by ring.
  split; nra.
Qed.

Lemma calcQuadraticBounds_within (pt1 pt2 pt3 : point) :
  exists b,
    calcQuadraticBounds pt1 pt2 pt3 = Ok b
    /\ rect_within b (calcBounds [pt1; pt2; pt3]).
Proof.
  pose proof (calcQuadraticBounds_eq pt1 pt2 pt3) as Heq.
  set (c := calcBounds [pt1; pt2; pt3]).
  assert (I1 : inside c pt1) by (apply calcBounds_inside; cbn; auto).
  assert (I2 : inside c pt2) by (apply calcBounds_inside; cbn; auto).
  assert (I3 : inside c pt3) by (apply calcBounds_inside; cbn; auto).
  clearbody c.
  destruct pt1 as [x1 y1], pt2 as [x2 y2], pt3 as [x3 y3].
  unfold calcQuadraticParameters in Heq.
  destruct Heq as (roots & -> & _).
  eexists. split; [reflexivity |].
  apply calcBounds_within.
  { intros Hnil. apply app_eq_nil in Hnil as [_ Hnil]. discriminate. }
  apply Forall_app.
  split; [| constructor; [assumption | constructor; [assumption |]];
            constructor].
  apply Forall_forall. intros p Hp.
  apply in_map_iff in Hp as (t & <- & Ht).
  apply filter_In in Ht as [_ Ht]. apply in_unit_half_open_iff in Ht.
  unfold inside in *. cbn [fst snd] in *.
  pose proof (bernstein2_between (xMin_of c) (xMax_of c) x1 x2 x3 t) as Bx.
  pose proof (bernstein2_between (yMin_of c) (yMax_of c) y1 y2 y3 t) as By.
  replace ((x3 - x1 - (x2 - x1) * 2.0) * t * t + (x2 - x1) * 2.0 * t + x1)
    with ((1 - t) * (1 - t) * x1 + 2 * (1 - t) * t * x2 + t * t * x3)
    by (decimals; field).
  replace ((y3 - y1 - (y2 - y1) * 2.0) * t * t + (y2 - y1) * 2.0 * t + y1)
    with ((1 - t) * (1 - t) * y1 + 2 * (1 - t) * t * y2 + t * t * y3)
    by (decimals; field).
  split; [apply Bx | apply By]; lra.
Qed.

Lemma calcCubicBounds_within (pt1 pt2 pt3 pt4 : point) :
  exists b,
    calcCubicBounds pt1 pt2 pt3 pt4 = Ok b
    /\ rect_within b (calcBounds [pt1; pt2; pt3; pt4]).
Proof.
  pose proof (calcCubicBounds_eq pt1 pt2 pt3 pt4) as Heq.
  set (c := calcBounds [pt1; pt2; pt3; pt4]).
  assert (I1 : inside c pt1) by (apply calcBounds_inside; cbn; auto).
  assert (I2 : inside c pt2) by (apply calcBounds_inside; cbn; auto).
  assert (I3 : inside c pt3) by (apply calcBounds_inside; cbn; auto).
  assert (I4 : inside c pt4) by (apply calcBounds_inside; cbn; auto).
  clearbody c.
  destruct pt1 as [x1 y1], pt2 as [x2 y2], pt3 as [x3 y3], pt4 as [x4 y4].
  unfold calcCubicParameters in Heq.
  destruct Heq as (xs & ys & _ & _ & ->).
  eexists. split; [reflexivity |].
  apply calcBounds_within.
  { intros Hnil. apply app_eq_nil in Hnil as [_ Hnil]. discriminate. }
  apply Forall_app.
  split; [| constructor; [assumption | constructor; [assumption |]];
            constructor].
  apply Forall_forall. intros p Hp.
  apply in_map_iff in Hp as (t & <- & Ht).
  apply filter_In in Ht as [_ Ht]. apply in_unit_half_open_iff in Ht.
  unfold inside in *. cbn [fst snd] in *.
  pose proof (bernstein3_between (xMin_of c) (xMax_of c) x1 x2 x3 x4 t)
    as Bx.
  pose proof (bernstein3_between (yMin_of c) (yMax_of c) y1 y2 y3 y4 t)
    as By.
  match goal with
  | |- _ <= ?px <= _ /\ _ <= ?py <= _ =>
      replace px
        with ((1 - t) * (1 - t) * (1 - t) * x1
              + 3 * (1 - t) * (1 - t) * t * x2
              + 3 * (1 - t) * t * t * x3 + t * t * t * x4)
        by (decimals; field);
      replace py
        with ((1 - t) * (1 - t) * (1 - t) * y1
              + 3 * (1 - t) * (1 - t) * t * y2
              + 3 * (1 - t) * t * t * y3 + t * t * t * y4)
        by (decimals; field)
  end.
  split; [apply Bx | apply By]; lra.
Qed.

(** X23. The rectangle that [calcQuadraticBounds] or [calcCubicBounds]
    returns never extends beyond the control points: it lies within the
    bounding rectangle of the three, or four, control points. *)
Theorem bounds_within_control_points :
  (forall pt1 pt2 pt3 : point,
      exists b,
        calcQuadraticBounds pt1 pt2 pt3 = Ok b
        /\ rect_within b (calcBounds [pt1; pt2; pt3]))
  /\ (forall pt1 pt2 pt3 pt4 : point,
         exists b,
           calcCubicBounds pt1 pt2 pt3 pt4 = Ok b
           /\ rect_within b (calcBounds [pt1; pt2; pt3; pt4])).
Proof.
  split.
  - exact calcQuadraticBounds_within.
  - exact calcCubicBounds_within.
Qed.

(** ** Halving a segment *)

Lemma splitQuadraticAtT_one (pt1 pt2 pt3 : point) (t s : R) :
  exists seg0 seg1,
    splitQuadraticAtT pt1 pt2 pt3 [t] = [seg0; seg1]
    /\ quadraticPointAtT3 seg0 s = quadraticPointAtT pt1 pt2 pt3 (s * t)
    /\ quadraticPointAtT3 seg1 s
       = quadraticPointAtT pt1 pt2 pt3 (t + s * (1 - t)).
Proof.
  rewrite !quadraticPointAtT_Power. unfold splitQuadraticAtT.
  destruct (calcQuadraticParameters pt1 pt2 pt3) as [[a b] c].
  pose proof (_splitQuadraticAtT_trace a b c [t] 0) as H0.
  pose proof (_splitQuadraticAtT_trace a b c [t] 1) as H1.
  destruct (_splitQuadraticAtT a b c [t]) as [| seg0 [| seg1 [| seg2 l]]] eqn:E;
    try (apply (f_equal (@length _)) in E;
         unfold _splitQuadraticAtT in E;
         destruct a, b, c; cbn in E; discriminate).
  exists seg0, seg1. split; [reflexivity |].
  specialize (H0 seg0 s eq_refl). specialize (H1 seg1 s eq_refl).
  cbn [nth app] in H0, H1. rewrite H0, H1.
  split; f_equal; ring.
Qed.

Lemma splitCubicAtT_one (pt1 pt2 pt3 pt4 : point) (t s : R) :
  exists seg0 seg1,
    splitCubicAtT pt1 pt2 pt3 pt4 [t] = [seg0; seg1]
    /\ cubicPointAtT4 seg0 s = cubicPointAtT pt1 pt2 pt3 pt4 (s * t)
    /\ cubicPointAtT4 seg1 s
       = cubicPointAtT pt1 pt2 pt3 pt4 (t + s * (1 - t)).
Proof.
  rewrite !cubicPointAtT_Power. unfold splitCubicAtT.
  destruct (calcCubicParameters pt1 pt2 pt3 pt4) as [[[a b] c] d].
  pose proof (_splitCubicAtT_trace a b c d [t] 0) as H0.
  pose proof (_splitCubicAtT_trace a b c d [t] 1) as H1.
  destruct (_splitCubicAtT a b c d [t]) as [| seg0 [| seg1 [| seg2 l]]] eqn:E;
    try (apply (f_equal (@length _)) in E;
         unfold _splitCubicAtT in E;
         destruct a, b, c, d; cbn in E; discriminate).
  exists seg0, seg1. split; [reflexivity |].
  specialize (H0 seg0 s eq_refl). specialize (H1 seg1 s eq_refl).
  cbn [nth app] in H0, H1. rewrite H0, H1.
  split; f_equal; ring.
Qed.

(** X24. For a line, a quadratic or a cubic, [_split_segment_at_t] returns
    two segments of the same degree that trace the segment: the first at
    the parameter s is the segment at s * t, the second at the parameter s
    is the segment at t + s * (1 - t). *)
Theorem split_segment_at_t_traces (c : segment) (t : R) :
  valid_length (length c) ->
  exists c1 c2,
    _split_segment_at_t c t = Ok (Some [c1; c2])
    /\ length c1 = length c /\ length c2 = length c
    /\ forall s,
         segmentPointAtT c1 s = segmentPointAtT c (s * t)
         /\ segmentPointAtT c2 s = segmentPointAtT c (t + s * (1 - t)).
Proof.
  unfold valid_length.
  destruct c as [| p1 [| p2 [| p3 [| p4 [| p5 rest]]]]]; cbn [length];
    intros Hlen; try lia.
  - exists [p1; linePointAtT p1 p2 t], [linePointAtT p1 p2 t; p2].
    split; [reflexivity |]. split; [reflexivity |]. split; [reflexivity |].
    intros s. rewrite !segmentPointAtT_line.
    destruct p1 as [x1 y1], p2 as [x2 y2]. unfold linePointAtT.
    cbn [fst snd]. split; do 2 f_equal; ring.
  - unfold _split_segment_at_t. cbn [length Nat.eqb star3 bind].
    destruct (splitQuadraticAtT_one p1 p2 p3 t 0)
      as ([[q1 q2] q3] & [[r1 r2] r3] & E & _).
    rewrite E. cbn [map].
    exists [q1; q2; q3], [r1; r2; r3].
    split; [reflexivity |]. split; [reflexivity |]. split; [reflexivity |].
    intros s. rewrite !segmentPointAtT_quadratic.
    destruct (splitQuadraticAtT_one p1 p2 p3 t s)
      as (seg0 & seg1 & E' & H0 & H1).
    rewrite E in E'. injection E' as <- <-.
    cbn [quadraticPointAtT3] in H0, H1. now rewrite H0, H1.
  - unfold _split_segment_at_t. cbn [length Nat.eqb star4 bind].
    destruct (splitCubicAtT_one p1 p2 p3 p4 t 0)
      as ([[[q1 q2] q3] q4] & [[[r1 r2] r3] r4] & E & _).
    rewrite E. cbn [map].
    exists [q1; q2; q3; q4], [r1; r2; r3; r4].
    split; [reflexivity |]. split; [reflexivity |]. split; [reflexivity |].
    intros s. rewrite !segmentPointAtT_cubic.
    destruct (splitCubicAtT_one p1 p2 p3 p4 t s)
      as (seg0 & seg1 & E' & H0 & H1).
    rewrite E in E'. injection E' as <- <-.
    cbn [cubicPointAtT4] in H0, H1. now rewrite H0, H1.
Qed.

Lemma split_segment_at_t_traces_witness :
  exists c1 c2,
    _split_segment_at_t [(0, 0); (50, 100); (100, 0)] 0.5
    = Ok (Some [c1; c2])
    /\ length c1 = 3%nat /\ length c2 = 3%nat
    /\ forall s,
         segmentPointAtT c1 s
         = segmentPointAtT [(0, 0); (50, 100); (100, 0)] (s * 0.5)
         /\ segmentPointAtT c2 s
            = segmentPointAtT [(0, 0); (50, 100); (100, 0)]
                (0.5 + s * (1 - 0.5)).
Proof.
  apply (split_segment_at_t_traces [(0, 0); (50, 100); (100, 0)] 0.5).
  right. left. reflexivity.
Defined.

(** X25. The halving [_split_cubic_into_two] that the arc length uses, on
    complex numbers, gives the same two cubics as [splitCubicAtT] at the
    parameter 0.5 gives on points. *)
Theorem split_cubic_into_two_agrees_with_splitCubicAtT (pt1 pt2 pt3 pt4 : point) :
  let '((a0, a1, a2, a3), (b0, b1, b2, b3)) :=
    _split_cubic_into_two (complex_of pt1) (complex_of pt2)
      (complex_of pt3) (complex_of pt4) in
  splitCubicAtT pt1 pt2 pt3 pt4 [0.5]
  = [(point_of a0, point_of a1, point_of a2, point_of a3);
     (point_of b0, point_of b1, point_of b2, point_of b3)].
Proof.
  destruct pt1 as [x1 y1], pt2 as [x2 y2], pt3 as [x3 y3], pt4 as [x4 y4].
  unfold _split_cubic_into_two, splitCubicAtT, calcCubicParameters,
    _splitCubicAtT, complex_of, point_of.
  cbn [app length Nat.sub seq map nth Nat.add fst snd].
  unfold calcCubicPoints, Cadd, Csub, Cmul, Cfloat.
  cbn [real imag fst snd].
  repeat match goal with
    | |- _ :: _ = _ :: _ => apply f_equal2
    | |- (_, _) = (_, _) => apply f_equal2
    end; try reflexivity; decimals; field.
Qed.
